(** * HiFiShifter: segmentation, padded synthesis, edit history and mixing

    A shallow embedding of the pitch-editing pipeline of HiFiShifter
    ([src/hifi_shifter/audio_processor.py] and
    [src/hifi_shifter/main_window.py]) together with the properties its
    design document states about it.

    Conventions of the embedding:
    - Python integers are [Z]; numpy arrays and Python lists are [list];
      [None] is [option]'s [None].
    - floating-point samples and pitch values are an abstract type with the
      operations the code applies to them passed as section variables, so
      that nothing proved here depends on rounding;
    - a Python exception is the [Raise] outcome of the type [res];
    - objects mutated in place (tracks, segment states) are records that the
      operations return updated.  Every array stored on a history stack is a
      [.copy()] in the source, so no stack entry aliases the live curve. *)

From Stdlib Require Import ZArith List Bool Lia QArith Qminmax String.
From stdpp Require Import base list strings gmap pretty.
Import ListNotations.
Open Scope Z_scope.

(** ** Python slices *)

Module Py.

(** [slice_index n k] is how a slice bound [k] is read on a sequence of
    length [n]: a negative bound counts from the end, and the result is
    clamped to [0..n]. *)
Definition slice_index (n k : Z) : Z :=
  if k <? 0 then Z.max 0 (k + n) else Z.min k n.

(** [l[a:b]] *)
Definition slice {A} (l : list A) (a b : Z) : list A :=
  let n := Z.of_nat (length l) in
  let a' := slice_index n a in
  let b' := slice_index n b in
  take (Z.to_nat (b' - a')) (drop (Z.to_nat a') l).

(** [l[:b]] *)
Definition slice_to {A} (l : list A) (b : Z) : list A := slice l 0 b.

(** [l[a:]] *)
Definition slice_from {A} (l : list A) (a : Z) : list A :=
  slice l a (Z.of_nat (length l)).

(** [len(l)] *)
Definition len {A} (l : list A) : Z := Z.of_nat (length l).

End Py.

(** ** Segmenter: [AudioProcessor._segment_audio] *)

Module Segmenter.

Definition Segment : Type := Z * Z.

(** [a > b] on decibel values. *)
Definition Qgtb (a b : Q) : bool := negb (Qle_bool a b).

(** [np.max(energy_db)]; numpy raises on an empty array. *)
Definition np_max (energy_db : list Q) : option Q :=
  match energy_db with
  | [] => None
  | e :: rest => Some (fold_left Qmax rest e)
  end.

(** [is_speech = (energy_db - np.max(energy_db)) > threshold_db] for the
    maximum [mx]. *)
Definition is_speech (energy_db : list Q) (mx threshold_db : Q) : list bool :=
  map (fun e => Qgtb (e - mx)%Q threshold_db) energy_db.

(** Value of the mask at index [k], with scipy's [border_value=0] outside. *)
Definition mask_at (mask : list bool) (k : Z) : bool :=
  if k <? 0 then false else nth (Z.to_nat k) mask false.

(** Does any of the [w] frames starting at [lo] carry speech? *)
Definition window_any (mask : list bool) (lo : Z) (w : nat) : bool :=
  existsb (fun j => mask_at mask (lo + Z.of_nat j)) (seq 0 w).

(** [binary_dilation(mask, structure=np.ones(m))] in one dimension.  scipy
    places the centre of the structuring element at index [m // 2], so that
    output frame [i] is set when an input frame in
    [i + m//2 - (m-1) .. i + m//2] is set (for [m = 100]: [i-49 .. i+50]). *)
Definition binary_dilation (mask : list bool) (m : Z) : list bool :=
  map (fun i => window_any mask (Z.of_nat i + m / 2 - (m - 1)) (Z.to_nat m))
      (seq 0 (length mask)).

(** One iteration of the [for i, active in enumerate(is_speech)] loop; the
    state is [(i, start, segments)]. *)
Definition run_step (st : Z * option Z * list Segment) (active : bool)
  : Z * option Z * list Segment :=
  let '(i, start, segments) := st in
  match active, start with
  | true, None => (i + 1, Some i, segments)
  | false, Some s => (i + 1, None, segments ++ [(s, i)])
  | _, _ => (i + 1, start, segments)
  end.

(** The loop, and the [if start is not None] that closes the last run. *)
Definition find_segments (mask : list bool) : list Segment :=
  let '(_, start, segments) := fold_left run_step mask (0, None, []) in
  match start with
  | Some s => segments ++ [(s, Py.len mask)]
  | None => segments
  end.

(** [[(max(0, start), max(start, end)) for start, end in segments]] *)
Definition clamp_segment (sg : Segment) : Segment :=
  (Z.max 0 (fst sg), Z.max (fst sg) (snd sg)).

(** The part of [_segment_audio] that follows the mask. *)
Definition segments_of_mask (mask : list bool) : list Segment :=
  let segments := find_segments mask in
  let segments :=
    match segments with
    | [] => [(0, Py.len mask)]
    | _ => segments
    end in
  map clamp_segment segments.

(** [_segment_audio] from the decibel curve
    [20 * log10(max(energy, 1e-5))] on, one value per frame of the mel
    spectrogram.  [None] is an exception: numpy's on an empty curve, and
    scipy's on an empty structuring element or on a spectrogram of a single
    frame, which [mel.squeeze()] has turned into a 0-dimensional mask. *)
Definition _segment_audio (energy_db : list Q) (threshold_db : Q)
    (min_silence_frames : Z) : option (list Segment) :=
  match np_max energy_db with
  | None => None
  | Some mx =>
      if (min_silence_frames <=? 0) || (Py.len energy_db =? 1) then None
      else
        let mask := is_speech energy_db mx threshold_db in
        Some (segments_of_mask (binary_dilation mask min_silence_frames))
  end.

Definition default_threshold_db : Q := (-60)%Q.
Definition default_min_silence_frames : Z := 100.

(** *** Vocabulary of the properties *)

(** Frame [i] lies in the closed-open range of [sg]. *)
Definition in_seg (i : Z) (sg : Segment) : Prop := fst sg <= i < snd sg.

Definition covered (i : Z) (segs : list Segment) : Prop :=
  exists sg, In sg segs /\ in_seg i sg.

(** The union of the segments is exactly [[0, n)]. *)
Definition covers_exactly (segs : list Segment) (n : Z) : Prop :=
  forall i, covered i segs <-> 0 <= i < n.

(** No frame lies in two segments. *)
Definition no_overlap (segs : list Segment) : Prop :=
  forall (a b : nat) sa sb i,
    segs !! a = Some sa -> segs !! b = Some sb -> a <> b ->
    ~ (in_seg i sa /\ in_seg i sb).

(** The segments partition [[0, n)]. *)
Definition partitions (segs : list Segment) (n : Z) : Prop :=
  covers_exactly segs n /\ no_overlap segs.

(** Segments are non-empty, in increasing order and separated by at least
    one frame, starting at or after [lo]. *)
Fixpoint separated (lo : Z) (segs : list Segment) : Prop :=
  match segs with
  | [] => True
  | sg :: rest => lo <= fst sg /\ fst sg < snd sg /\ separated (snd sg + 1) rest
  end.

(** One past the first frame a further separated segment may start at. *)
Fixpoint chain_end (lo : Z) (segs : list Segment) : Z :=
  match segs with
  | [] => lo
  | sg :: rest => chain_end (snd sg + 1) rest
  end.

(** The invariant of the loop after the frames [p] have been read. *)
Definition run_inv (p : list bool) (st : Z * option Z * list Segment) : Prop :=
  let '(i, start, acc) := st in
  i = Py.len p /\
  separated 0 acc /\
  match start with
  | None => chain_end 0 acc <= i
  | Some s => chain_end 0 acc <= s /\ s < i
  end /\
  (forall k, 0 <= k < i ->
     (mask_at p k = true <->
      covered k acc \/ exists s, start = Some s /\ s <= k)).

(** No frame of the curve is above the activity threshold. *)
Definition all_silent (energy_db : list Q) (mx threshold_db : Q) : Prop :=
  forall b, In b (is_speech energy_db mx threshold_db) -> b = false.

End Segmenter.

(** ** Outcomes of operations that may raise *)

Inductive exn : Type :=
| RuntimeError | ValueError | IndexError | KeyError | AttributeError | TypeError.

Inductive res (A : Type) : Type :=
| Ok (a : A)
| Raise (e : exn).
Arguments Ok {A} a.
Arguments Raise {A} e.

(** [res] is a monad; sequencing is written [x ← c; k] and stops at the
    first exception. *)
#[global] Instance res_ret : MRet res := fun A a => Ok a.
#[global] Instance res_bind : MBind res := fun A B k c =>
  match c with
  | Ok a => k a
  | Raise e => Raise e
  end.

(** ** PaddedSynthesizer: [AudioProcessor.synthesize_segment] *)

Module Synth.

Section WithSamples.
(** [F]: floating-point values (pitches, frequencies and samples);
    [M]: one frame of the mel spectrogram. *)
Context {F M : Type}.
(** [np.nan], [np.isnan], [0], the per-frame pitch conversions
    [440.0 * 2 ** ((p - 69) / 12.0)] and [69 + 12 * np.log2(hz / 440.0)],
    and the test [hz > 0]. *)
Variables (nan zero : F) (isnan : F -> bool).
Variables (midi_to_hz hz_to_midi : F -> F) (positive : F -> bool).

(** The vocoder [model.Gforward(...)['audio']] and the loaded state of
    the processor: [model] is [None] until a model is loaded; [config]
    carries [hop_size] once it is. *)
Record AudioProcessor : Type := {
  model : option (list M -> list F -> res (list F));
  config : option Z
}.

Definition pad_frames : Z := 64.

(** [p_start], [p_end] *)
Definition padded_range (total_frames : Z) (segment : Z * Z) : Z * Z :=
  let '(start, end_) := segment in
  (Z.max 0 (start - pad_frames), Z.min total_frames (end_ + pad_frames)).

(** [np.pad(a, (pre, post), constant_values=np.nan)]; numpy refuses a
    negative width. *)
Definition np_pad (a : list F) (pre post : Z) : res (list F) :=
  if (pre <? 0) || (post <? 0) then Raise ValueError
  else Ok (replicate (Z.to_nat pre) nan ++ a ++ replicate (Z.to_nat post) nan).

(** "Ensure input segment matches expected length" *)
Definition normalize_f0 (f0_midi_segment : list F) (expected_len : Z)
  : res (list F) :=
  if negb (Py.len f0_midi_segment =? expected_len) then
    if Py.len f0_midi_segment <? expected_len then
      np_pad f0_midi_segment 0 (expected_len - Py.len f0_midi_segment)
    else Ok (Py.slice_to f0_midi_segment expected_len)
  else Ok f0_midi_segment.

(** MIDI pitch to Hz, [NaN] to [0] (also in [synthesize]). *)
Definition f0_to_hz (f0_midi : list F) : list F :=
  map (fun p => if isnan p then zero else midi_to_hz p) f0_midi.

(** Hz to MIDI pitch, unvoiced frames to [NaN] (in [process_audio]). *)
Definition f0_to_midi (f0_np : list F) : list F :=
  map (fun hz => if positive hz then hz_to_midi hz else nan) f0_np.

(** The pitch curve handed to the vocoder for a segment. *)
Definition vocoder_f0 (total_frames : Z) (segment : Z * Z)
    (f0_midi_segment : list F) : res (list F) :=
  let '(start, end_) := segment in
  let '(p_start, p_end) := padded_range total_frames segment in
  let pre_pad := start - p_start in
  let post_pad := p_end - end_ in
  f0_midi_segment ← normalize_f0 f0_midi_segment (end_ - start);
  f0_padded ← np_pad f0_midi_segment pre_pad post_pad;
  Ok (f0_to_hz f0_padded).

(** "Trim padding from audio", with its safety check. *)
Definition trim_audio (audio_padded : list F) (pre_pad post_pad hop_size : Z)
  : list F :=
  let trim_start := pre_pad * hop_size in
  let trim_end := Py.len audio_padded - post_pad * hop_size in
  if trim_end <=? trim_start then audio_padded
  else Py.slice audio_padded trim_start trim_end.

Definition synthesize_segment (self : AudioProcessor) (mel : list M)
    (segment : Z * Z) (f0_midi_segment : list F) : res (list F) :=
  match model self with
  | None => Raise RuntimeError
  | Some Gforward =>
      let '(start, end_) := segment in
      let '(p_start, p_end) := padded_range (Py.len mel) segment in
      let mel_slice := Py.slice mel p_start p_end in
      let pre_pad := start - p_start in
      let post_pad := p_end - end_ in
      f0_hz ← vocoder_f0 (Py.len mel) segment f0_midi_segment;
      audio_padded ← Gforward mel_slice f0_hz;
      match config self with
      | None => Raise KeyError
      | Some hop_size => Ok (trim_audio audio_padded pre_pad post_pad hop_size)
      end
  end.

(** [synthesize(mel, f0_midi)]: the whole track in one call of the
    vocoder. *)
Definition synthesize (self : AudioProcessor) (mel : list M)
    (f0_midi : list F) : res (list F) :=
  match model self with
  | None => Raise RuntimeError
  | Some Gforward => Gforward mel (f0_to_hz f0_midi)
  end.

End WithSamples.

Arguments AudioProcessor : clear implicits.

(** *** Vocabulary of the properties *)

(** The vocoder covers the window [mel_slice] at [hop] samples per frame:
    given a pitch curve aligned with the window, it returns a waveform of
    [len(mel_slice) * hop] samples. *)
Definition vocoder_covers {F M : Type}
    (Gforward : list M -> list F -> res (list F)) (hop : Z)
    (mel_slice : list M) : Prop :=
  forall f0, Py.len f0 = Py.len mel_slice ->
    exists audio,
      Gforward mel_slice f0 = Ok audio /\
      Py.len audio = Py.len mel_slice * hop.

(** The normalization as the specification words it: padding with zeros. *)
Definition zero_padded {F : Type} (zero : F) (f0 : list F) (expected_len : Z)
  : list F :=
  f0 ++ replicate (Z.to_nat (expected_len - Py.len f0)) zero.

End Synth.

(** ** Tracks, edit history and the editor: [HifiShifterGUI] *)

Module Editor.

Import Segmenter.

(** One entry of [track.segment_states]: the [dirty] flag and the cached
    audio of the segment. *)
Record SegmentState (F : Type) : Type := mkSegmentState {
  dirty : bool;
  audio : option (list F)
}.
Arguments mkSegmentState {F} _ _.
Arguments dirty {F} _.
Arguments audio {F} _.

(** The attributes of a [Track] the editor reads and writes. *)
Record Track (F : Type) : Type := mkTrack {
  name : string;
  track_type : string;
  f0_original : option (list F);
  f0_edited : option (list F);
  segments : list Segment;
  segment_states : list (SegmentState F);
  synthesized_audio : option (list F);
  muted : bool;
  solo : bool;
  volume : F;
  start_frame : Z;
  shift_value : F;
  undo_stack : list (list F);
  redo_stack : list (list F)
}.
Arguments mkTrack {F} _ _ _ _ _ _ _ _ _ _ _ _ _ _.
Arguments name {F} _.
Arguments track_type {F} _.
Arguments f0_original {F} _.
Arguments f0_edited {F} _.
Arguments segments {F} _.
Arguments segment_states {F} _.
Arguments synthesized_audio {F} _.
Arguments muted {F} _.
Arguments solo {F} _.
Arguments volume {F} _.
Arguments start_frame {F} _.
Arguments shift_value {F} _.
Arguments undo_stack {F} _.
Arguments redo_stack {F} _.

(** The state of the main window that the modelled handlers touch.
    [config] is [processor.config]: [None] while it is empty, the hop size
    once a model is loaded. *)
Record GUI (F : Type) : Type := mkGUI {
  tracks : list (Track F);
  current_track_idx : Z;
  last_mouse_pos : option (Z * F);
  status_label : string;
  is_dirty : bool;
  config : option Z
}.
Arguments mkGUI {F} _ _ _ _ _ _.
Arguments tracks {F} _.
Arguments current_track_idx {F} _.
Arguments last_mouse_pos {F} _.
Arguments status_label {F} _.
Arguments is_dirty {F} _.
Arguments config {F} _.

Section WithSamples.
Context {F : Type}.
(** [zero] and [one] are [0.0] and [1.0]; [add] and [mul] are float
    addition and product;
    [interp last_x last_y x y i] is the stroke interpolation
    [last_y + ((i - last_x) / (x - last_x) if x != last_x else 0) * (y - last_y)]. *)
Variables (zero one : F) (add mul : F -> F -> F).
Variable interp : Z -> F -> Z -> F -> Z -> F.

(** *** Field updates *)

Definition set_dirty (st : SegmentState F) : SegmentState F :=
  mkSegmentState true (audio st).

Definition with_history (t : Track F) (f0 : option (list F))
    (undo redo : list (list F)) : Track F :=
  mkTrack (name t) (track_type t) (f0_original t) f0 (segments t)
    (segment_states t) (synthesized_audio t) (muted t) (solo t) (volume t)
    (start_frame t) (shift_value t) undo redo.

Definition with_f0_edited (t : Track F) (f0 : option (list F)) : Track F :=
  with_history t f0 (undo_stack t) (redo_stack t).

Definition with_segment_states (t : Track F) (sts : list (SegmentState F))
  : Track F :=
  mkTrack (name t) (track_type t) (f0_original t) (f0_edited t) (segments t)
    sts (synthesized_audio t) (muted t) (solo t) (volume t)
    (start_frame t) (shift_value t) (undo_stack t) (redo_stack t).

(** [for state in track.segment_states: state['dirty'] = True] *)
Definition mark_all_dirty (t : Track F) : Track F :=
  with_segment_states t (map set_dirty (segment_states t)).

Definition with_tracks (g : GUI F) (ts : list (Track F)) : GUI F :=
  mkGUI ts (current_track_idx g) (last_mouse_pos g) (status_label g)
    (is_dirty g) (config g).

Definition with_status (g : GUI F) (s : string) : GUI F :=
  mkGUI (tracks g) (current_track_idx g) (last_mouse_pos g) s
    (is_dirty g) (config g).

Definition with_last_mouse_pos (g : GUI F) (p : option (Z * F)) : GUI F :=
  mkGUI (tracks g) (current_track_idx g) p (status_label g)
    (is_dirty g) (config g).

Definition with_is_dirty (g : GUI F) (b : bool) : GUI F :=
  mkGUI (tracks g) (current_track_idx g) (last_mouse_pos g) (status_label g)
    b (config g).

(** The [current_track] property. *)
Definition current_track (g : GUI F) : option (Track F) :=
  if (0 <=? current_track_idx g) && (current_track_idx g <? Py.len (tracks g))
  then tracks g !! Z.to_nat (current_track_idx g)
  else None.

(** The handlers mutate the current track object in place: the updated
    track takes its place in [self.tracks]. *)
Definition put_current (g : GUI F) (t : Track F) : GUI F :=
  with_tracks g (<[Z.to_nat (current_track_idx g) := t]> (tracks g)).

Definition is_vocal (t : Track F) : bool := String.eqb (track_type t) "vocal".

(** *** Edit history *)

(** [stack.pop()] on a non-empty list: the list without its last element,
    and that element. *)
Definition pop (stack : list (list F)) : option (list (list F) * list F) :=
  match last stack with
  | Some top => Some (take (length stack - 1) stack, top)
  | None => None
  end.

(** The body of [push_undo] past its guard: a copy of the curve [f0] goes
    on the undo stack, the oldest entry is dropped beyond 16, and the redo
    stack is cleared. *)
Definition snapshot (track : Track F) (f0 : list F) : Track F :=
  let undo := undo_stack track ++ [f0] in
  let undo := if 16 <? Py.len undo then drop 1 undo else undo in
  with_history track (Some f0) undo [].

Definition push_undo (g : GUI F) : GUI F :=
  match current_track g with
  | None => g
  | Some track =>
      if negb (is_vocal track) then g
      else
        match f0_edited track with
        | None => g
        | Some f0 => put_current g (snapshot track f0)
        end
  end.

Definition undo (g : GUI F) : res (GUI F) :=
  match current_track g with
  | None => Ok g
  | Some track =>
      if negb (is_vocal track) then Ok g
      else
        match pop (undo_stack track) with
        | None => Ok (with_status g "没有可撤销的操作")
        | Some (rest, top) =>
            match f0_edited track with
            | None => Raise AttributeError
            | Some f0 =>
                let track :=
                  with_history track (Some top) rest (redo_stack track ++ [f0]) in
                Ok (with_status (put_current g (mark_all_dirty track)) "撤销")
            end
        end
  end.

Definition redo (g : GUI F) : res (GUI F) :=
  match current_track g with
  | None => Ok g
  | Some track =>
      if negb (is_vocal track) then Ok g
      else
        match pop (redo_stack track) with
        | None => Ok (with_status g "没有可重做的操作")
        | Some (rest, top) =>
            match f0_edited track with
            | None => Raise AttributeError
            | Some f0 =>
                let track :=
                  with_history track (Some top) (undo_stack track ++ [f0]) rest in
                Ok (with_status (put_current g (mark_all_dirty track)) "重做")
            end
        end
  end.

(** *** Drawing: [handle_draw] *)

(** The body of [for i in range(start_x, end_x + 1)], run [count] times
    from frame [i] on. *)
Fixpoint draw_range (is_left is_right : bool) (f0_orig : option (list F))
    (last_x : Z) (last_y : F) (x : Z) (y : F)
    (i : Z) (count : nat) (f0 : list F) (changed : bool)
  : res (list F * bool) :=
  match count with
  | O => Ok (f0, changed)
  | S count =>
      if is_left then
        draw_range is_left is_right f0_orig last_x last_y x y (i + 1) count
          (<[Z.to_nat i := interp last_x last_y x y i]> f0) true
      else if is_right then
        match f0_orig with
        | Some orig =>
            match orig !! Z.to_nat i with
            | Some v =>
                draw_range is_left is_right f0_orig last_x last_y x y (i + 1)
                  count (<[Z.to_nat i := v]> f0) true
            | None => Raise IndexError
            end
        | None =>
            draw_range is_left is_right f0_orig last_x last_y x y (i + 1)
              count f0 changed
        end
      else
        draw_range is_left is_right f0_orig last_x last_y x y (i + 1)
          count f0 changed
  end.

(** The edit of the single frame [x]: [f0[x] = y] with the left button,
    [f0[x] = f0_orig[x]] with the right one. *)
Definition draw_point (is_left is_right : bool) (f0_orig : option (list F))
    (x : Z) (y : F) (f0 : list F) : res (list F * bool) :=
  if is_left then Ok (<[Z.to_nat x := y]> f0, true)
  else if is_right then
    match f0_orig with
    | Some orig =>
        match orig !! Z.to_nat x with
        | Some v => Ok (<[Z.to_nat x := v]> f0, true)
        | None => Raise IndexError
        end
    | None => Ok (f0, false)
    end
  else Ok (f0, false).

(** The overlap test [not (max_x < seg_start or min_x >= seg_end)]. *)
Definition overlaps (min_x max_x : Z) (sg : Segment) : bool :=
  negb ((max_x <? fst sg) || (snd sg <=? min_x)).

(** "Mark affected segments as dirty": the loop over
    [enumerate(track.segments)], from index [i] on. *)
Fixpoint mark_dirty (segs : list Segment) (i : nat) (min_x max_x : Z)
    (states : list (SegmentState F)) : res (list (SegmentState F)) :=
  match segs with
  | [] => Ok states
  | sg :: rest =>
      if overlaps min_x max_x sg then
        match states !! i with
        | Some st =>
            mark_dirty rest (S i) min_x max_x (<[i := set_dirty st]> states)
        | None => Raise IndexError
        end
      else mark_dirty rest (S i) min_x max_x states
  end.

(** The edit proper of [handle_draw] for an in-range frame [x]: the new
    curve, the [changed] flag and [affected_range]. *)
Definition draw_edit (last : option (Z * F)) (is_left is_right : bool)
    (f0_orig : option (list F)) (x : Z) (y : F) (f0 : list F)
  : res (list F * bool * (Z * Z)) :=
  match last with
  | Some (last_x, last_y) =>
      let start_x := Z.max 0 (Z.min last_x x) in
      let end_x := Z.min (Py.len f0 - 1) (Z.max last_x x) in
      r ← (if start_x <? end_x then
             draw_range is_left is_right f0_orig last_x last_y x y start_x
               (Z.to_nat (end_x + 1 - start_x)) f0 false
           else draw_point is_left is_right f0_orig x y f0);
      Ok (r, (start_x, end_x))
  | None =>
      r ← draw_point is_left is_right f0_orig x y f0;
      Ok (r, (x, x))
  end.

(** The end of [handle_draw] once the edit [r] of the curve is made: the
    affected segments are marked dirty, the pointer position is kept and
    the status line updated. *)
Definition finish_draw (g : GUI F) (track : Track F) (x : Z) (y : F)
    (r : list F * bool * (Z * Z)) : res (GUI F) :=
  let '(f0, changed, affected_range) := r in
  states ←
    (if changed then
       mark_dirty (segments track) 0 (fst affected_range) (snd affected_range)
         (segment_states track)
     else Ok (segment_states track));
  let track := with_segment_states (with_f0_edited track (Some f0)) states in
  let g := with_last_mouse_pos (put_current g track) (Some (x, y)) in
  Ok (if changed
      then with_status (with_is_dirty g true) "音高已修改 (未合成)"
      else g).

(** [handle_draw(point, is_left, is_right)], where [point_x] is
    [int(point.x())] and [y] is [point.y()]. *)
Definition handle_draw (g : GUI F) (point_x : Z) (y : F)
    (is_left is_right : bool) : res (GUI F) :=
  match current_track g with
  | None => Ok g
  | Some track =>
      if negb (is_vocal track) then Ok g
      else
        match f0_edited track with
        | None => Ok g
        | Some _ =>
            let x := point_x - start_frame track in
            let last := last_mouse_pos g in
            (* Start of a new stroke? *)
            let g := match last with None => push_undo g | Some _ => g end in
            (* [track] is the object [push_undo] has just updated *)
            match current_track g with
            | None => Ok g
            | Some track =>
                match f0_edited track with
                | None => Ok g
                | Some f0 =>
                    if (0 <=? x) && (x <? Py.len f0) then
                      let f0_orig := f0_original track in
                      r ← draw_edit last is_left is_right f0_orig x y f0;
                      finish_draw g track x y r
                    else Ok g
                end
            end
        end
  end.

(** *** Pointer events of the draw tool *)

Inductive MouseButton : Type := LeftButton | RightButton | OtherButton.

Definition is_left_button (button : MouseButton) : bool :=
  match button with LeftButton => true | _ => false end.

Definition is_right_button (button : MouseButton) : bool :=
  match button with RightButton => true | _ => false end.

Definition drawable (track : Track F) : bool :=
  is_vocal track && bool_decide (is_Some (f0_edited track)).

(** [on_scene_mouse_click] inside the plot, with the draw tool. *)
Definition on_scene_mouse_click (g : GUI F) (button : MouseButton)
    (point_x : Z) (y : F) : res (GUI F) :=
  match current_track g with
  | None => Ok g
  | Some track =>
      match button with
      | OtherButton => Ok g
      | _ =>
          let is_left := is_left_button button in
          let is_right := is_right_button button in
          if drawable track then
            handle_draw (with_last_mouse_pos g None) point_x y is_left is_right
          else Ok g
      end
  end.

(** [on_scene_mouse_move] with the draw tool. *)
Definition on_scene_mouse_move (g : GUI F) (is_left is_right : bool)
    (point_x : Z) (y : F) : res (GUI F) :=
  match current_track g with
  | None => Ok g
  | Some track =>
      if negb (is_left || is_right) then Ok (with_last_mouse_pos g None)
      else if drawable track then handle_draw g point_x y is_left is_right
      else Ok g
  end.

Definition mouseReleaseEvent (g : GUI F) : GUI F :=
  with_last_mouse_pos g None.

(** The pointer moves of a drag, with one button held down. *)
Fixpoint drag (g : GUI F) (is_left is_right : bool) (moves : list (Z * F))
  : res (GUI F) :=
  match moves with
  | [] => Ok g
  | (point_x, y) :: moves =>
      g ← on_scene_mouse_move g is_left is_right point_x y;
      drag g is_left is_right moves
  end.

(** One edit stroke: press [button] at [(point_x, y)], drag along [moves],
    release. *)
Definition stroke (g : GUI F) (button : MouseButton) (point_x : Z) (y : F)
    (moves : list (Z * F)) : res (GUI F) :=
  g ← on_scene_mouse_click g button point_x y;
  g ← drag g (is_left_button button) (is_right_button button) moves;
  Ok (mouseReleaseEvent g).

(** *** Mixer: [mix_tracks] *)

(** [self.processor.config['hop_size'] if self.processor.config else 512] *)
Definition hop_size (g : GUI F) : Z := default 512 (config g).

(** The tracks that take part in the mix. *)
Definition active_tracks (ts : list (Track F)) : list (Track F) :=
  let active_tracks := List.filter (fun t => negb (muted t)) ts in
  let solo_tracks := List.filter solo ts in
  match solo_tracks with
  | [] => active_tracks
  | _ => solo_tracks
  end.

(** The first loop: the length of the mix in samples. *)
Definition mix_max_len (hop : Z) (active : list (Track F)) : Z :=
  fold_left
    (fun max_len track =>
       match synthesized_audio track with
       | Some audio =>
           let start_sample := start_frame track * hop in
           let end_sample := start_sample + Py.len audio in
           Z.max max_len end_sample
       | None => max_len
       end)
    active 0.

(** [mixed[a:b] += rhs] on numpy arrays: [rhs] must have the length of the
    slice, or length one, in which case it is broadcast. *)
Definition slice_iadd (mixed : list F) (a b : Z) (rhs : list F)
  : res (list F) :=
  let n := Py.len mixed in
  let a' := Z.to_nat (Py.slice_index n a) in
  let w := Z.to_nat (Py.slice_index n b - Py.slice_index n a) in
  let view := take w (drop a' mixed) in
  sum ← (if Py.len rhs =? Z.of_nat w then Ok (zip_with add view rhs)
         else
           match rhs with
           | [v] => Ok (map (fun m => add m v) view)
           | _ => Raise ValueError
           end);
  Ok (take a' mixed ++ sum ++ drop (a' + w) mixed).

(** The second loop: every participant's samples, scaled by its volume,
    are added at its sample offset. *)
Fixpoint mix_into (hop : Z) (active : list (Track F)) (mixed_audio : list F)
  : res (list F) :=
  match active with
  | [] => Ok mixed_audio
  | track :: rest =>
      match synthesized_audio track with
      | Some audio =>
          let start_sample := start_frame track * hop in
          let l := Py.len audio in
          mixed_audio ←
            slice_iadd mixed_audio start_sample (start_sample + l)
              (map (fun s => mul s (volume track)) audio);
          mix_into hop rest mixed_audio
      | None => mix_into hop rest mixed_audio
      end
  end.

(** [mix_tracks]; [Ok None] is the "no output" result. *)
Definition mix_tracks (g : GUI F) : res (option (list F)) :=
  match active_tracks (tracks g) with
  | [] => Ok None
  | active =>
      let max_len := mix_max_len (hop_size g) active in
      if max_len =? 0 then Ok None
      else
        mixed_audio ←
          mix_into (hop_size g) active (replicate (Z.to_nat max_len) zero);
        Ok (Some mixed_audio)
  end.

(** *** Opening a project: [open_project] *)

(** One record of the project file's [tracks] list; an absent key is
    [None]. *)
Record TrackData : Type := mkTrackData {
  td_name : string;
  td_type : option string;
  td_shift : option F;
  td_muted : option bool;
  td_solo : option bool;
  td_volume : option F;
  td_start_frame : option Z;
  td_f0 : option (list F)
}.

(** Modelled from the spec: [Track.load] of [track.py], which is not part
    of the sources at hand.  Loading "computes [f0_original] (converted to
    log-pitch scale), seeds [f0_edited := copy(f0_original)], runs Segmenter
    to produce [segments], initializes [segment_states] all dirty with
    absent caches".  [f0_midi] and [segs] are what
    [AudioProcessor.process_audio] returned for the file. *)
Definition load (track : Track F) (f0_midi : list F) (segs : list Segment)
  : Track F :=
  mkTrack (name track) (track_type track) (Some f0_midi) (Some f0_midi) segs
    (map (fun _ => mkSegmentState true None) segs) (synthesized_audio track)
    (muted track) (solo track) (volume track) (start_frame track)
    (shift_value track) (undo_stack track) (redo_stack track).

(** The body of [for t_data in data['tracks']] that follows
    [track.load(self.processor)], on the loaded [track]. *)
Definition restore_track (t_data : TrackData) (track : Track F) : Track F :=
  let track :=
    mkTrack (name track) (track_type track) (f0_original track)
      (f0_edited track) (segments track) (segment_states track)
      (synthesized_audio track)
      (default false (td_muted t_data)) (default false (td_solo t_data))
      (default one (td_volume t_data)) (default 0 (td_start_frame t_data))
      (default zero (td_shift t_data)) (undo_stack track) (redo_stack track) in
  match td_f0 t_data, f0_edited track with
  | Some saved_f0, Some f0 =>
      (* Handle length mismatch *)
      let min_len := Z.min (Py.len saved_f0) (Py.len f0) in
      let f0 := Py.slice_to saved_f0 min_len ++ Py.slice_from f0 min_len in
      mark_all_dirty (with_f0_edited track (Some f0))
  | _, _ => track
  end.

(** *** Vocabulary of the properties *)

(** The current track is a vocal track with a pitch curve and at least [n]
    undo snapshots. *)
Definition vocal_ready (g : GUI F) (n : nat) : Prop :=
  exists track,
    current_track g = Some track /\
    is_vocal track = true /\
    is_Some (f0_edited track) /\
    (n <= length (undo_stack track))%nat.

(** A call of [handle_draw] at frame [x] of a curve of [len] frames edits
    that frame alone: at the start of a stroke, or when the clamped range
    from the previous pointer position is not a proper range. *)
Definition single_frame (last : option (Z * F)) (x len : Z) : Prop :=
  match last with
  | None => True
  | Some (last_x, _) =>
      ~ (Z.max 0 (Z.min last_x x) < Z.min (len - 1) (Z.max last_x x))
  end.

(** The state of a segment after an edit of frame [x], as the design
    document has it: marked dirty when the segment contains [x], untouched
    otherwise. *)
Definition dirty_after (x : Z) (sg : Segment) (st : SegmentState F)
  : SegmentState F :=
  if decide (fst sg <= x < snd sg) then set_dirty st else st.

End WithSamples.

Arguments TrackData : clear implicits.

End Editor.

(** ** Model configuration: [AudioProcessor._patch_config] *)

Module Config.

Section WithValues.
(** [V]: the values of the configuration dictionary; [float_one], [int 40]
    and [int 1600] are the defaults [1.0], [40] and [1600], and [dict d] is
    the dictionary [d] stored as a value. *)
Context {V : Type}.
Variables (float_one : V) (int : Z -> V) (dict : gmap string V -> V).

(** [if key not in self.config: self.config[key] = v] *)
Definition setdefault (key : string) (v : V) (config : gmap string V)
  : gmap string V :=
  match config !! key with
  | Some _ => config
  | None => <[key := v]> config
  end.

Definition key_mapping : list (string * string) :=
  [("sampling_rate", "audio_sample_rate");
   ("num_mels", "audio_num_mel_bins");
   ("n_fft", "fft_size")].

(** The body of [for old_key, new_key in key_mapping.items()]. *)
Definition rename_step (config : gmap string V) (entry : string * string)
  : gmap string V :=
  let '(old_key, new_key) := entry in
  match config !! old_key, config !! new_key with
  | Some v, None => <[new_key := v]> config
  | _, _ => config
  end.

Definition model_arg_keys : list string :=
  ["mini_nsf"; "upsample_rates"; "upsample_kernel_sizes";
   "upsample_initial_channel"; "resblock_kernel_sizes";
   "resblock_dilation_sizes"; "resblock"; "discriminator_periods"].

(** The dictionary built by [for key in model_arg_keys]. *)
Definition collect_model_args (config : gmap string V) : gmap string V :=
  fold_left
    (fun model_args key =>
       match config !! key with
       | Some v => <[key := v]> model_args
       | None => model_args
       end)
    model_arg_keys ∅.

Definition _patch_config (config : gmap string V) : gmap string V :=
  let config := setdefault "clip_grad_norm" float_one config in
  let config := fold_left rename_step key_mapping config in
  let config := setdefault "f0_min" (int 40) config in
  let config := setdefault "f0_max" (int 1600) config in
  match config !! "model_args" with
  | Some _ => config
  | None => <["model_args" := dict (collect_model_args config)]> config
  end.

(** *** Vocabulary of the properties *)

(** What patching writes under [key] when the configuration has no such
    key. *)
Definition patch_default (config : gmap string V) (key : string) : option V :=
  if decide (key = "clip_grad_norm") then Some float_one
  else if decide (key = "audio_sample_rate") then config !! "sampling_rate"
  else if decide (key = "audio_num_mel_bins") then config !! "num_mels"
  else if decide (key = "fft_size") then config !! "n_fft"
  else if decide (key = "f0_min") then Some (int 40)
  else if decide (key = "f0_max") then Some (int 1600)
  else if decide (key = "model_args") then
    Some (dict (collect_model_args config))
  else None.

End WithValues.

End Config.

(** ** Transposition, clipboard, track list and project records *)

Module Arrangement.

Import Segmenter Editor.

Section WithSamples.
Context {F : Type}.
(** [zero] is [0.0]; [add] and [sub] are float addition and subtraction. *)
Variables (zero : F) (add sub : F -> F -> F).
(** [mul] is the float product, [of_int n] the float of the integer [n] in
    mixed arithmetic, and [truediv a b] is [a / b] on integers; [one] is
    [1.0]. *)
Variables (mul : F -> F -> F) (of_int : Z -> F) (truediv : Z -> Z -> F).
Variable one : F.

(** The pitch that the drawing loop of [handle_draw] writes on frame [i]:
    [ratio = (i - last_x) / (x - last_x) if x != last_x else 0] and
    [interp_y = last_y + ratio * (y - last_y)]. *)
Definition interp_y (last_x : Z) (last_y : F) (x : Z) (y : F) (i : Z) : F :=
  let ratio :=
    if negb (x =? last_x) then truediv (i - last_x) (x - last_x)
    else of_int 0 in
  add last_y (mul ratio (sub y last_y)).

Definition with_shift_value (t : Track F) (v : F) : Track F :=
  mkTrack (name t) (track_type t) (f0_original t) (f0_edited t) (segments t)
    (segment_states t) (synthesized_audio t) (muted t) (solo t) (volume t)
    (start_frame t) v (undo_stack t) (redo_stack t).

(** [apply_shift(semitones)].  The window's [last_shift_value] is passed
    in and returned with the window. *)
Definition apply_shift (g : GUI F) (last_shift_value semitones : F)
  : GUI F * F :=
  match current_track g with
  | None => (g, last_shift_value)
  | Some track =>
      if negb (is_vocal track) then (g, last_shift_value)
      else
        match f0_edited track with
        | None => (g, last_shift_value)
        | Some f0 =>
            let delta := sub semitones last_shift_value in
            (* track.f0_edited += delta *)
            let track :=
              with_f0_edited track (Some (map (fun p => add p delta) f0)) in
            let track := with_shift_value track semitones in
            (put_current g (mark_all_dirty track), semitones)
        end
  end.

(** [self.tracks[index]] under the guard [0 <= index < len(self.tracks)]. *)
Definition track_at (g : GUI F) (index : Z) : option (Track F) :=
  if (0 <=? index) && (index <? Py.len (tracks g))
  then tracks g !! Z.to_nat index
  else None.

Definition put_at (g : GUI F) (index : Z) (t : Track F) : GUI F :=
  with_tracks g (<[Z.to_nat index := t]> (tracks g)).

(** [copy_pitch(index)]: the window and its [pitch_clipboard]. *)
Definition copy_pitch (g : GUI F) (pitch_clipboard : option (list F))
    (index : Z) : GUI F * option (list F) :=
  match track_at g index with
  | None => (g, pitch_clipboard)
  | Some track =>
      match f0_edited track with
      | Some f0 =>
          (with_status g
             (String.append "Copied pitch from track '"
                (String.append (name track) "'")),
           Some f0)
      | None => (with_status g "No pitch data to copy", pitch_clipboard)
      end
  end.

(** [paste_pitch(index)].  [reply_yes] is the answer to the question asked
    when the lengths differ.  (The flag [track.is_edited], which nothing
    reads, is not part of [Track].) *)
Definition paste_pitch (g : GUI F) (pitch_clipboard : option (list F))
    (index : Z) (reply_yes : bool) : GUI F :=
  match track_at g index, pitch_clipboard with
  | Some track, Some pitch_clipboard =>
      match f0_original track with
      | None => g
      | Some f0_original =>
          let target_len := Py.len f0_original in
          let source_len := Py.len pitch_clipboard in
          if negb (target_len =? source_len) && negb reply_yes then g
          else
            let new_f0 := replicate (Z.to_nat target_len) zero in
            let copy_len := Z.min target_len source_len in
            (* new_f0[:copy_len] = self.pitch_clipboard[:copy_len] *)
            let new_f0 :=
              Py.slice_to pitch_clipboard copy_len
              ++ Py.slice_from new_f0 copy_len in
            (* new_f0[copy_len:] = track.f0_original[copy_len:] *)
            let new_f0 :=
              if copy_len <? target_len
              then Py.slice_to new_f0 copy_len
                   ++ Py.slice_from f0_original copy_len
              else new_f0 in
            let track := mark_all_dirty (with_f0_edited track (Some new_f0)) in
            with_status (put_at g index track)
              (String.append "Pasted pitch to track '"
                 (String.append (name track) "'"))
      end
  | _, _ => with_status g "Clipboard empty or invalid index"
  end.

(** [delete_track(index)]; [reply_yes] is the answer to the confirmation. *)
Definition delete_track (g : GUI F) (index : Z) (reply_yes : bool) : GUI F :=
  if (0 <=? index) && (index <? Py.len (tracks g)) then
    if reply_yes then
      let current_track_idx :=
        if current_track_idx g =? index then -1
        else if index <? current_track_idx g then current_track_idx g - 1
        else current_track_idx g in
      mkGUI (delete (Z.to_nat index) (tracks g)) current_track_idx
        (last_mouse_pos g) (status_label g) (is_dirty g) (Editor.config g)
    else g
  else g.

Definition with_current_track_idx (g : GUI F) (index : Z) : GUI F :=
  mkGUI (tracks g) index (last_mouse_pos g) (status_label g) (is_dirty g)
    (Editor.config g).

(** [on_track_selected(index)]: the window and its [last_shift_value],
    which follows the shift of the track that is selected now. *)
Definition on_track_selected (g : GUI F) (last_shift_value : F) (index : Z)
  : GUI F * F :=
  let g := with_current_track_idx g index in
  match current_track g with
  | Some track => (g, shift_value track)
  | None => (g, last_shift_value)
  end.

Definition with_start_frame (t : Track F) (v : Z) : Track F :=
  mkTrack (name t) (track_type t) (f0_original t) (f0_edited t) (segments t)
    (segment_states t) (synthesized_audio t) (muted t) (solo t) (volume t)
    v (shift_value t) (undo_stack t) (redo_stack t).

(** The move tool in [on_scene_mouse_move], with the left button held
    after a press: [new_start] is [int(self.move_start_frame + delta)]. *)
Definition move_track (g : GUI F) (new_start : Z) : GUI F :=
  match current_track g with
  | None => g
  | Some track =>
      let new_start := if new_start <? 0 then 0 else new_start in
      if negb (new_start =? start_frame track) then
        with_status (put_current g (with_start_frame track new_start))
          (String.append "移动音轨: "
             (String.append (pretty new_start) " 帧"))
      else g
  end.

(** The record of one track written by [_save_project_file]. *)
Definition save_track (track : Track F) : TrackData F :=
  mkTrackData (name track) (Some (track_type track))
    (Some (shift_value track)) (Some (muted track)) (Some (solo track))
    (Some (volume track)) (Some (start_frame track))
    (if is_vocal track then f0_edited track else None).

(** The "Backward compatibility for v1.0" branch of [open_project], on
    the track loaded from [data['audio_path']]: [saved_f0] is [data['f0']]
    and [shift] is [data['params']['shift']], [None] where the key is
    absent.  The saved curve replaces [f0_edited] only when it has the
    length of the extracted curve; no segment is marked. *)
Definition restore_legacy (saved_f0 : option (list F)) (shift : option F)
    (track : Track F) : res (Track F) :=
  track ←
    match saved_f0 with
    | Some saved_f0 =>
        match f0_edited track with
        | Some f0 =>
            Ok (if Py.len saved_f0 =? Py.len f0
                then with_f0_edited track (Some saved_f0)
                else track)
        | None => Raise TypeError
        end
    | None => Ok track
    end;
  Ok match shift with
     | Some shift => with_shift_value track shift
     | None => track
     end.

(** What a project file says about tracks, with the recordings already
    loaded: in the current format the records of [data['tracks']] whose file
    exists, each with the track that [Track.load] made of its file; in a
    v1.0 file, which has [data['audio_path']] instead, the saved curve and
    shift with the one loaded track. *)
Inductive ProjectTracks : Type :=
| CurrentFormat (records : list (TrackData F * Track F))
| LegacyFormat (saved_f0 : option (list F)) (shift : option F)
    (track : Track F).

(** "Load Tracks" in [open_project]: the track list of the window, which
    was emptied before. *)
Definition open_project (data : ProjectTracks) : res (list (Track F)) :=
  match data with
  | CurrentFormat records =>
      Ok (map (fun record => restore_track zero one (fst record) (snd record))
            records)
  | LegacyFormat saved_f0 shift track =>
      track ← restore_legacy saved_f0 shift track;
      Ok [track]
  end.

(** *** Vocabulary of the properties *)

(** The two history stacks of the current track hold at most 16 snapshots
    together. *)
Definition history_bounded (g : GUI F) : Prop :=
  forall track, current_track g = Some track ->
    (length (undo_stack track) + length (redo_stack track) <= 16)%nat.

(** During a stroke that started on the curve [f0_before]: that curve is
    the newest undo snapshot, nothing can be redone, and as long as no
    frame has been drawn the curve is still [f0_before]. *)
Definition in_stroke (f0_before : list F) (g : GUI F) : Prop :=
  exists track,
    current_track g = Some track /\
    is_vocal track = true /\
    is_Some (f0_edited track) /\
    last (undo_stack track) = Some f0_before /\
    redo_stack track = [] /\
    (last_mouse_pos g = None -> f0_edited track = Some f0_before).

(** The window's [last_shift_value] is the shift of the selected track. *)
Definition shift_synced (g : GUI F) (last_shift_value : F) : Prop :=
  forall track, current_track g = Some track ->
    shift_value track = last_shift_value.

(** From [g] to [g'] the selected track, if there still is one, kept its
    shift. *)
Definition keeps_shift (g g' : GUI F) : Prop :=
  forall track', current_track g' = Some track' ->
    exists track, current_track g = Some track /\
      shift_value track' = shift_value track.

(** The start frames of the tracks, in track order. *)
Definition offsets (g : GUI F) : list Z := map start_frame (tracks g).

(** Every track starts at a non-negative frame. *)
Definition starts_nonneg (g : GUI F) : Prop :=
  Forall (fun start => 0 <= start) (offsets g).

(** From [g] to [g'] no start frame has changed. *)
Definition same_offsets (g g' : GUI F) : Prop := offsets g' = offsets g.

(** From [states] to [states'] dirty flags were only set: no flag was
    cleared and no cached audio was touched. *)
Definition only_marks (states states' : list (SegmentState F)) : Prop :=
  length states' = length states /\
  forall k st, states !! k = Some st ->
    exists st', states' !! k = Some st' /\
      (dirty st = true -> dirty st' = true) /\ audio st' = audio st.

(** Every segment of the track is marked dirty. *)
Definition all_dirty (track : Track F) : Prop :=
  Forall (fun st => dirty st = true) (segment_states track).

(** The frames that a call of [handle_draw] at frame [x] of a curve of
    [len] frames goes over: from the previous pointer position to [x],
    clamped to the curve; the frame [x] alone at the start of a stroke. *)
Definition stroke_range (last : option (Z * F)) (x len : Z) : Z * Z :=
  match last with
  | Some (last_x, _) =>
      (Z.max 0 (Z.min last_x x), Z.min (len - 1) (Z.max last_x x))
  | None => (x, x)
  end.

(** Frame [i] lies in the range [r], bounds included. *)
Definition in_range (r : Z * Z) (i : Z) : bool :=
  (fst r <=? i) && (i <=? snd r).

(** The pitch that the left button writes on frame [i] of that range: the
    interpolation [interp] between the previous pointer position and
    [(x, y)] on a proper range, [y] itself on a single frame. *)
Definition stroke_pitch (interp : Z -> F -> Z -> F -> Z -> F)
    (last : option (Z * F)) (x : Z) (y : F) (len i : Z) : F :=
  match last with
  | Some (last_x, last_y) =>
      if fst (stroke_range last x len) <? snd (stroke_range last x len)
      then interp last_x last_y x y i
      else y
  | None => y
  end.

End WithSamples.

Arguments ProjectTracks : clear implicits.

End Arrangement.

(** ** Test vectors *)

Module Vectors.

Import Segmenter.

(** A 60-frame curve whose first frame is loud (0 dB) and whose other
    frames lie 80 dB below it. *)
Definition one_loud_frame : list Q := 0%Q :: repeat (-80)%Q 59.

(** A two-frame curve, used with the threshold raised to 0 dB. *)
Definition two_frames : list Q := [(-3)%Q; 0%Q].

(** Five frames with speech on the first and on the last one. *)
Definition two_bursts : list Q := [0%Q; (-80)%Q; (-80)%Q; (-80)%Q; 0%Q].

(** Configuration values for small examples: numbers and nested
    dictionaries. *)
#[warnings="-register-all"]
Inductive cfg_value : Type :=
| CNum (z : Z)
| CDict (d : gmap string cfg_value).

(** A configuration in the legacy shape: [sampling_rate] instead of
    [audio_sample_rate], and one vocoder argument at the top level. *)
Definition legacy_config : gmap string cfg_value :=
  {[ "sampling_rate" := CNum 44100; "resblock" := CNum 1 ]}.

(** Pitch values and samples for small examples: exact rationals in lowest
    terms, and [None] for NaN. *)
Definition pitch : Type := option Q.
Definition pitch_isnan (p : pitch) : bool :=
  match p with None => true | Some _ => false end.

(** [hz > 0] on the example values. *)
Definition pitch_voiced (p : pitch) : bool :=
  match p with Some hz => negb (Qle_bool hz 0) | None => false end.

(** Arithmetic on the example values: NaN is absorbing. *)
Definition pitch_op (op : Q -> Q -> Q) (p q : pitch) : pitch :=
  match p, q with Some a, Some b => Some (Qred (op a b)) | _, _ => None end.

Definition pitch_add : pitch -> pitch -> pitch := pitch_op Qplus.
Definition pitch_sub : pitch -> pitch -> pitch := pitch_op Qminus.
Definition pitch_mul : pitch -> pitch -> pitch := pitch_op Qmult.
Definition pitch_of_int (n : Z) : pitch := Some (inject_Z n).
Definition pitch_truediv (a b : Z) : pitch :=
  Some (Qred (inject_Z a / inject_Z b)).

(** The interpolation of [handle_draw] on the example values. *)
Definition linear_interp : Z -> pitch -> Z -> pitch -> Z -> pitch :=
  Arrangement.interp_y pitch_add pitch_sub pitch_mul pitch_of_int pitch_truediv.

(** A stand-in vocoder that returns [hop] silent samples per mel frame, and
    a processor loaded with it at hop size 4. *)
Definition silent_vocoder (hop : Z) (mel : list unit) (f0 : list pitch)
  : res (list pitch) :=
  Ok (replicate (Z.to_nat (Py.len mel * hop)) (Some 0%Q)).

Definition loaded_processor : Synth.AudioProcessor pitch unit :=
  {| Synth.model := Some (silent_vocoder 4); Synth.config := Some 4 |}.

(** A vocoder that returns three samples whatever the window, far fewer
    than the context pads take away, and a processor loaded with it. *)
Definition short_vocoder (mel : list unit) (f0 : list pitch)
  : res (list pitch) :=
  Ok [Some 1%Q; Some 2%Q; Some 3%Q].

Definition short_processor : Synth.AudioProcessor pitch unit :=
  {| Synth.model := Some short_vocoder; Synth.config := Some 4 |}.

(** A mel spectrogram of 1000 frames. *)
Definition mel_1000 : list unit := replicate 1000 tt.

Definition curve : list pitch := [Some 60%Q; Some 62%Q; None; Some 64%Q].

Definition clean : Editor.SegmentState pitch := Editor.mkSegmentState false None.

(** A vocal track of four frames in two clean segments, with empty history
    stacks, and an editor with that track selected. *)
Definition lead : Editor.Track pitch :=
  Editor.mkTrack "lead" "vocal" (Some curve) (Some curve) [(0, 2); (2, 4)]
    [clean; clean] None false false (Some 1%Q) 0 (Some 0%Q) [] [].

Definition editor : Editor.GUI pitch :=
  Editor.mkGUI [lead] 0 None "" false (Some 4).

(** The editor after a first stroke with the left button over frames 1
    and 2, and after a second one with the right button on frame 3. *)
Definition after_first_stroke : Editor.GUI pitch :=
  Eval vm_compute in
  match
    Editor.stroke linear_interp editor Editor.LeftButton 1 (Some 70%Q)
      [(2, Some 71%Q)]
  with
  | Ok g => g
  | Raise _ => editor
  end.

Definition after_second_stroke : Editor.GUI pitch :=
  Eval vm_compute in
  match
    Editor.stroke linear_interp after_first_stroke Editor.RightButton 3
      (Some 50%Q) []
  with
  | Ok g => g
  | Raise _ => after_first_stroke
  end.

(** The editor after both strokes and one undo: one snapshot on either
    stack. *)
Definition after_undo : Editor.GUI pitch :=
  Eval vm_compute in
  match Editor.undo after_second_stroke with
  | Ok g => g
  | Raise _ => after_second_stroke
  end.

(** The current track of an editor state of the examples. *)
Definition track_of (g : Editor.GUI pitch) : Editor.Track pitch :=
  default lead (Editor.current_track g).

Definition after_first_stroke_track : Editor.Track pitch :=
  Eval vm_compute in track_of after_first_stroke.

Definition after_undo_track : Editor.Track pitch :=
  Eval vm_compute in track_of after_undo.

(** The curve that the first stroke drew; the second stroke, which resets
    frame 3 to its original pitch, leaves it as it is. *)
Definition drawn_curve : list pitch :=
  [Some 60%Q; Some 70%Q; Some 71%Q; Some 64%Q].

(** The first stroke step by step: the press on frame 1, then the move to
    frame 2 with the button held. *)
Definition pressed : Editor.GUI pitch :=
  Eval vm_compute in
  match
    Editor.on_scene_mouse_click linear_interp editor Editor.LeftButton 1 (Some 70%Q)
  with
  | Ok g => g
  | Raise _ => editor
  end.

Definition pressed_track : Editor.Track pitch :=
  Eval vm_compute in track_of pressed.

Definition pressed_curve : list pitch := [Some 60%Q; Some 70%Q; None; Some 64%Q].

Definition dragged : Editor.GUI pitch :=
  Eval vm_compute in
  match Editor.handle_draw linear_interp pressed 2 (Some 71%Q) true false with
  | Ok g => g
  | Raise _ => pressed
  end.

Definition dragged_track : Editor.Track pitch :=
  Eval vm_compute in track_of dragged.

(** The editor after the first stroke and a press of the right button on
    frame 1. *)
Definition erased : Editor.GUI pitch :=
  Eval vm_compute in
  match Editor.handle_draw linear_interp after_first_stroke 1 (Some 50%Q) false true with
  | Ok g => g
  | Raise _ => after_first_stroke
  end.

(** Two vocal tracks of four frames, the edited one first and the fresh one
    selected. *)
Definition duet : Editor.GUI pitch :=
  Editor.mkGUI [after_first_stroke_track; lead] 1 None "" false (Some 4).

(** Three tracks with integer samples: [track_A] plain, [track_B] soloed,
    [track_C] muted, in a session with hop size 2. *)
Definition mix_track (name : string) (audio : option (list Z))
    (muted solo : bool) (volume start_frame : Z) : Editor.Track Z :=
  Editor.mkTrack name "vocal" None None [] [] audio muted solo volume
    start_frame 0 [] [].

Definition track_A : Editor.Track Z := mix_track "A" (Some [1; 2]) false false 1 0.
Definition track_B : Editor.Track Z := mix_track "B" (Some [3; 4]) false true 2 1.
Definition track_C : Editor.Track Z := mix_track "C" (Some [5; 6; 7]) true false 1 0.

Definition session : Editor.GUI Z :=
  Editor.mkGUI [track_A; track_B; track_C] 0 None "" false (Some 2).

(** A session whose only track has not been synthesized yet. *)
Definition unsynthesized : Editor.GUI Z :=
  Editor.mkGUI [mix_track "A" None false false 1 0] 0 None "" false (Some 2).

(** A saved track record whose pitch curve has two frames. *)
Definition saved_lead : Editor.TrackData pitch :=
  Editor.mkTrackData "lead" (Some "vocal") None None None None None
    (Some [Some 70%Q; Some 71%Q]).

End Vectors.

(** * Properties *)

(** ** Segmenter *)

Module SegmenterFacts.

Import Segmenter.

Lemma chain_end_app lo a b :
  chain_end lo (a ++ b) = chain_end (chain_end lo a) b.
Proof.
  revert lo. induction a as [|sg a IH]; intros lo; simpl; [reflexivity|].
  apply IH.
Qed.

Lemma separated_app lo a b :
  separated lo (a ++ b) <-> separated lo a /\ separated (chain_end lo a) b.
Proof.
  revert lo. induction a as [|sg a IH]; intros lo; simpl.
  - tauto.
  - rewrite IH. tauto.
Qed.

Lemma separated_chain_end lo segs : separated lo segs -> lo <= chain_end lo segs.
Proof.
  revert lo. induction segs as [|sg segs IH]; intros lo; simpl; [lia|].
  intros (H1 & H2 & H3). apply IH in H3. lia.
Qed.

Lemma separated_bounds lo segs sg :
  separated lo segs -> In sg segs ->
  lo <= fst sg /\ fst sg < snd sg /\ snd sg + 1 <= chain_end lo segs.
Proof.
  revert lo. induction segs as [|sg' segs IH]; intros lo; simpl; [tauto|].
  intros (H1 & H2 & H3) [->|Hin].
  - apply separated_chain_end in H3. lia.
  - destruct (IH _ H3 Hin) as (? & ? & ?). lia.
Qed.

(** Segments of a separated list are ordered: an earlier one ends before a
    later one starts. *)
Lemma separated_ordered lo segs (a b : nat) sa sb :
  separated lo segs -> (a < b)%nat ->
  segs !! a = Some sa -> segs !! b = Some sb -> snd sa < fst sb.
Proof.
  revert lo a b. induction segs as [|sg segs IH]; intros lo a b Hsep Hab Ha Hb.
  - discriminate.
  - destruct Hsep as (H1 & H2 & H3). destruct b as [|b]; [lia|].
    simpl in Hb. destruct a as [|a].
    + simpl in Ha. injection Ha as <-.
      assert (In sb segs) as Hin.
      { apply list_elem_of_In. eapply list_elem_of_lookup_2. exact Hb. }
      destruct (separated_bounds _ _ _ H3 Hin). lia.
    + simpl in Ha. eapply (IH _ a b); eauto. lia.
Qed.

Lemma separated_no_overlap lo segs : separated lo segs -> no_overlap segs.
Proof.
  intros Hsep a b sa sb i Ha Hb Hne [Hia Hib]. unfold in_seg in *.
  destruct (Nat.lt_total a b) as [Hlt|[Heq|Hgt]]; [|congruence|].
  - pose proof (separated_ordered _ _ _ _ _ _ Hsep Hlt Ha Hb). lia.
  - pose proof (separated_ordered _ _ _ _ _ _ Hsep Hgt Hb Ha). lia.
Qed.

Lemma covered_app i a b : covered i (a ++ b) <-> covered i a \/ covered i b.
Proof.
  unfold covered. split.
  - intros (sg & Hin & Hi). apply in_app_or in Hin as [Hin|Hin]; eauto.
  - intros [(sg & Hin & Hi)|(sg & Hin & Hi)]; exists sg; split; auto;
      apply in_or_app; auto.
Qed.

Lemma covered_single i sg : covered i [sg] <-> in_seg i sg.
Proof.
  unfold covered. split.
  - intros (sg' & [->|[]] & Hi). exact Hi.
  - intros Hi. exists sg. split; [left; reflexivity|exact Hi].
Qed.

Lemma covered_nil i : ~ covered i [].
Proof. intros (sg & [] & _). Qed.

(** A frame at or beyond the end of a separated chain is in no segment. *)
Lemma covered_below_end lo segs i :
  separated lo segs -> covered i segs -> lo <= i /\ i + 2 <= chain_end lo segs.
Proof.
  intros Hsep (sg & Hin & Hi). unfold in_seg in Hi.
  destruct (separated_bounds _ _ _ Hsep Hin) as (? & ? & ?). lia.
Qed.

(** *** The run-finding loop *)

Lemma mask_at_app_l p a k :
  0 <= k < Py.len p -> mask_at (p ++ [a]) k = mask_at p k.
Proof.
  unfold mask_at, Py.len. intros Hk.
  destruct (Z.ltb_spec k 0); [reflexivity|].
  apply app_nth1. lia.
Qed.

Lemma mask_at_app_r p a : mask_at (p ++ [a]) (Py.len p) = a.
Proof.
  unfold mask_at, Py.len.
  destruct (Z.ltb_spec (Z.of_nat (length p)) 0); [lia|].
  rewrite Nat2Z.id, app_nth2, Nat.sub_diag; [reflexivity|lia].
Qed.

Lemma mask_at_true_range mask k :
  mask_at mask k = true -> 0 <= k < Py.len mask.
Proof.
  unfold mask_at, Py.len. destruct (Z.ltb_spec k 0); [discriminate|].
  intros Hm. destruct (Nat.lt_ge_cases (Z.to_nat k) (length mask)) as [Hlt|Hge].
  - lia.
  - rewrite nth_overflow in Hm by exact Hge. discriminate.
Qed.

Lemma run_inv_init : run_inv [] (0, None, []).
Proof.
  repeat split; simpl; try lia.
Qed.

Lemma run_inv_step p st a : run_inv p st -> run_inv (p ++ [a]) (run_step st a).
Proof.
  destruct st as [[i start] acc]. intros (Hi & Hsep & Hend & Hcov).
  assert (Hlen : Py.len (p ++ [a]) = i + 1).
  { unfold Py.len in *. rewrite length_app. simpl. lia. }
  assert (Hold : forall k, 0 <= k < i -> mask_at (p ++ [a]) k = mask_at p k).
  { intros k Hk. apply mask_at_app_l. lia. }
  assert (Hnew : mask_at (p ++ [a]) i = a).
  { rewrite Hi. apply mask_at_app_r. }
  assert (Hpast : forall k, i <= k -> ~ covered k acc).
  { intros k Hk Hc. apply (covered_below_end 0) in Hc; [|exact Hsep].
    destruct start as [s|]; lia. }
  destruct a, start as [s|]; simpl.
  - (* active, inside a run *)
    split; [lia|]. split; [exact Hsep|]. split; [lia|].
    intros k Hk. destruct (Z.eq_dec k i) as [->|Hne].
    + rewrite Hnew. split; [|reflexivity]. intros _. right. exists s. split; [reflexivity|lia].
    + rewrite Hold by lia. apply Hcov. lia.
  - (* active, a run starts *)
    split; [lia|]. split; [exact Hsep|]. split; [lia|].
    intros k Hk. destruct (Z.eq_dec k i) as [->|Hne].
    + rewrite Hnew. split; [|reflexivity]. intros _. right. exists i. split; [reflexivity|lia].
    + rewrite Hold by lia. rewrite (Hcov k) by lia. split.
      * intros [Hc|(s & Hs & _)]; [left; exact Hc|discriminate].
      * intros [Hc|(s & Hs & Hle)]; [left; exact Hc|]. injection Hs as <-. lia.
  - (* silent, the run ends *)
    split; [lia|]. split.
    { apply separated_app. split; [exact Hsep|]. simpl. lia. }
    split.
    { rewrite chain_end_app. simpl. lia. }
    intros k Hk. rewrite covered_app, covered_single. unfold in_seg. simpl.
    destruct (Z.eq_dec k i) as [->|Hne].
    + rewrite Hnew. split; [discriminate|].
      intros [[Hc|Hc]|(s' & Hs' & _)]; [|lia|discriminate].
      exfalso. apply (Hpast i); [lia|exact Hc].
    + rewrite Hold by lia. rewrite (Hcov k) by lia. split.
      * intros [Hc|(s' & Hs' & Hle)]; [left; left; exact Hc|].
        injection Hs' as <-. left. right. lia.
      * intros [[Hc|Hc]|(s' & Hs' & _)]; [left; exact Hc| |discriminate].
        right. exists s. split; [reflexivity|lia].
  - (* silent, outside a run *)
    split; [lia|]. split; [exact Hsep|]. split; [lia|].
    intros k Hk. destruct (Z.eq_dec k i) as [->|Hne].
    + rewrite Hnew. split; [discriminate|].
      intros [Hc|(s' & Hs' & _)]; [|discriminate].
      exfalso. apply (Hpast i); [lia|exact Hc].
    + rewrite Hold by lia. apply Hcov. lia.
Qed.

Lemma run_inv_loop mask : run_inv mask (fold_left run_step mask (0, None, [])).
Proof.
  induction mask as [|a p IH] using rev_ind.
  - apply run_inv_init.
  - rewrite fold_left_app. simpl. apply run_inv_step. exact IH.
Qed.

(** What [find_segments] returns: the maximal runs of the mask. *)
Lemma find_segments_spec mask :
  let segs := find_segments mask in
  separated 0 segs /\
  chain_end 0 segs <= Py.len mask + 1 /\
  forall k, 0 <= k < Py.len mask -> (mask_at mask k = true <-> covered k segs).
Proof.
  unfold find_segments. pose proof (run_inv_loop mask) as Hinv.
  destruct (fold_left run_step mask (0, None, [])) as [[i start] acc].
  destruct Hinv as (Hi & Hsep & Hend & Hcov). subst i.
  destruct start as [s|]; simpl.
  - split. { apply separated_app. split; [exact Hsep|]. simpl. lia. }
    split. { rewrite chain_end_app. simpl. lia. }
    intros k Hk. rewrite covered_app, covered_single. unfold in_seg. simpl.
    rewrite (Hcov k Hk). split.
    + intros [Hc|(s' & Hs' & Hle)]; [left; exact Hc|]. injection Hs' as <-. right. lia.
    + intros [Hc|Hc]; [left; exact Hc|]. right. exists s. split; [reflexivity|lia].
  - split; [exact Hsep|]. split; [lia|].
    intros k Hk. rewrite (Hcov k Hk). split.
    + intros [Hc|(s' & Hs' & _)]; [exact Hc|discriminate].
    + intros Hc. left. exact Hc.
Qed.

Lemma find_segments_range mask sg :
  In sg (find_segments mask) -> 0 <= fst sg < snd sg /\ snd sg <= Py.len mask.
Proof.
  intros Hin. destruct (find_segments_spec mask) as (Hsep & Hend & _).
  destruct (separated_bounds _ _ _ Hsep Hin) as (? & ? & ?). lia.
Qed.

Lemma clamp_segment_id sg : 0 <= fst sg <= snd sg -> clamp_segment sg = sg.
Proof.
  destruct sg as [s e]. unfold clamp_segment. simpl. intros H.
  f_equal; lia.
Qed.

Lemma map_clamp_id segs :
  (forall sg, In sg segs -> 0 <= fst sg <= snd sg) ->
  map clamp_segment segs = segs.
Proof.
  induction segs as [|sg segs IH]; intros H; simpl; [reflexivity|].
  rewrite clamp_segment_id by (apply H; left; reflexivity).
  f_equal. apply IH. intros sg' Hin. apply H. right. exact Hin.
Qed.

(** A mask with a set frame: the segments are its maximal runs. *)
Lemma segments_of_mask_active mask k :
  mask_at mask k = true -> segments_of_mask mask = find_segments mask.
Proof.
  intros Hk. unfold segments_of_mask.
  destruct (find_segments_spec mask) as (Hsep & Hend & Hcov).
  pose proof (mask_at_true_range _ _ Hk) as Hr.
  destruct (find_segments mask) as [|sg segs] eqn:E.
  - apply (Hcov k Hr) in Hk. destruct (covered_nil _ Hk).
  - apply map_clamp_id. intros sg' Hin. rewrite <- E in Hin.
    apply find_segments_range in Hin. lia.
Qed.

(** A mask without a set frame: one segment spanning everything. *)
Lemma segments_of_mask_silent mask :
  (forall k, mask_at mask k = false) ->
  segments_of_mask mask = [(0, Py.len mask)].
Proof.
  intros Hsil. unfold segments_of_mask.
  destruct (find_segments_spec mask) as (Hsep & Hend & Hcov).
  destruct (find_segments mask) as [|sg segs] eqn:E.
  - simpl. unfold clamp_segment. simpl. f_equal. f_equal. unfold Py.len. lia.
  - exfalso.
    assert (In sg (find_segments mask)) as Hin by (rewrite E; left; reflexivity).
    apply find_segments_range in Hin.
    assert (covered (fst sg) (sg :: segs)) as Hc.
    { exists sg. split; [left; reflexivity|]. unfold in_seg. lia. }
    apply Hcov in Hc; [|lia]. rewrite Hsil in Hc. discriminate.
Qed.

(** *** Dilation *)

Lemma length_binary_dilation mask m :
  length (binary_dilation mask m) = length mask.
Proof. unfold binary_dilation. rewrite length_map, length_seq. reflexivity. Qed.

Lemma mask_at_binary_dilation mask m i :
  0 <= i < Py.len mask ->
  mask_at (binary_dilation mask m) i =
  window_any mask (i + m / 2 - (m - 1)) (Z.to_nat m).
Proof.
  unfold Py.len. intros Hi. unfold mask_at.
  destruct (Z.ltb_spec i 0); [lia|].
  unfold binary_dilation.
  rewrite (nth_indep _ false (window_any mask (Z.of_nat 0 + m / 2 - (m - 1)) (Z.to_nat m)))
    by (rewrite length_map, length_seq; lia).
  rewrite (map_nth (fun i => window_any mask (Z.of_nat i + m / 2 - (m - 1)) (Z.to_nat m))).
  rewrite seq_nth by lia. simpl. rewrite Z2Nat.id by lia. reflexivity.
Qed.

Lemma window_any_true mask lo w :
  window_any mask lo w = true <->
  exists k, lo <= k < lo + Z.of_nat w /\ mask_at mask k = true.
Proof.
  unfold window_any. rewrite existsb_exists. split.
  - intros (j & Hj & Hm). apply in_seq in Hj. exists (lo + Z.of_nat j). split; [lia|exact Hm].
  - intros (k & Hk & Hm). exists (Z.to_nat (k - lo)). split.
    + apply in_seq. lia.
    + rewrite Z2Nat.id by lia. replace (lo + (k - lo)) with k by lia. exact Hm.
Qed.

(** Dilation only adds frames: a set frame stays set. *)
Lemma binary_dilation_extensive mask m i :
  0 < m -> mask_at mask i = true -> mask_at (binary_dilation mask m) i = true.
Proof.
  intros Hm Hi. pose proof (mask_at_true_range _ _ Hi) as Hr.
  rewrite mask_at_binary_dilation by exact Hr.
  apply window_any_true. exists i. split; [|exact Hi].
  pose proof (Z.div_le_upper_bound m 2 m ltac:(lia) ltac:(lia)).
  pose proof (Z.div_pos m 2 ltac:(lia) ltac:(lia)).
  assert (m / 2 <= m - 1) by (apply Z.lt_le_pred, Z.div_lt; lia).
  lia.
Qed.

(** A silent mask stays silent. *)
Lemma binary_dilation_silent mask m :
  (forall k, mask_at mask k = false) ->
  forall k, mask_at (binary_dilation mask m) k = false.
Proof.
  intros Hsil k.
  destruct (mask_at (binary_dilation mask m) k) eqn:E; [|reflexivity].
  pose proof (mask_at_true_range _ _ E) as Hr.
  unfold Py.len in Hr. rewrite length_binary_dilation in Hr.
  rewrite mask_at_binary_dilation in E by exact Hr.
  apply window_any_true in E as (j & _ & Hj). rewrite Hsil in Hj. discriminate.
Qed.

Lemma mask_at_In mask k : mask_at mask k = true -> In true mask.
Proof.
  intros H. pose proof (mask_at_true_range _ _ H) as Hr. unfold Py.len in Hr.
  unfold mask_at in H. destruct (Z.ltb_spec k 0); [discriminate|].
  rewrite <- H. apply nth_In. lia.
Qed.

Lemma In_mask_at mask : In true mask -> exists k, mask_at mask k = true.
Proof.
  intros H. apply (In_nth _ _ false) in H as (j & Hj & Hn).
  exists (Z.of_nat j). unfold mask_at.
  destruct (Z.ltb_spec (Z.of_nat j) 0); [lia|]. rewrite Nat2Z.id. exact Hn.
Qed.

Lemma length_is_speech energy_db mx thr :
  length (is_speech energy_db mx thr) = length energy_db.
Proof. apply length_map. Qed.

(** *** The normalized curve *)

Lemma Qmax_cases a b : Qmax a b = a \/ Qmax a b = b.
Proof.
  unfold Qmax, GenericMinMax.gmax. destruct (a ?= b)%Q; auto.
Qed.

Lemma fold_Qmax_In l : forall e, In (fold_left Qmax l e) (e :: l).
Proof.
  induction l as [|a l IH]; intros e; simpl; [auto|].
  destruct (IH (Qmax e a)) as [H|H]; [|auto].
  rewrite <- H. destruct (Qmax_cases e a) as [-> | ->]; auto.
Qed.

(** The loudest frame lies 0 dB below the maximum: under a negative
    threshold, as the default -60 dB, it always counts as speech, and the
    silent case does not arise. *)
Lemma loudest_frame_is_speech energy_db mx threshold_db :
  np_max energy_db = Some mx -> (threshold_db < 0)%Q ->
  In true (is_speech energy_db mx threshold_db).
Proof.
  intros Hmx Hthr. unfold is_speech. apply in_map_iff. exists mx. split.
  - unfold Qgtb. apply negb_true_iff.
    destruct (Qle_bool (mx - mx) threshold_db) eqn:E; [|reflexivity].
    apply Qle_bool_iff in E.
    assert (mx - mx == 0)%Q as H0 by ring.
    rewrite H0 in E. exfalso. exact (Qlt_not_le _ _ Hthr E).
  - destruct energy_db as [|e rest]; [discriminate|].
    injection Hmx as <-. apply fold_Qmax_In.
Qed.

(** *** Segmentation as a whole *)

(** C1 (as amended).  For an energy curve of two frames or more the
    segmenter returns a non-empty list of non-empty closed-open ranges inside
    [[0, total_frames)], in increasing order and pairwise disjoint.  When
    some frame is above the threshold their union is exactly the set of
    frames that are set in the dilated activity mask, so frames of a silent
    stretch belong to no segment; when no frame is above the threshold, one
    segment [(0, total_frames)] is returned. *)
Theorem segment_audio_active_runs energy_db threshold_db m mx :
  np_max energy_db = Some mx -> 1 < Py.len energy_db -> 0 < m ->
  let n := Py.len energy_db in
  let speech := is_speech energy_db mx threshold_db in
  let dilated := binary_dilation speech m in
  exists segs,
    _segment_audio energy_db threshold_db m = Some segs /\
    segs <> [] /\
    separated 0 segs /\
    (forall sg, In sg segs -> 0 <= fst sg < snd sg /\ snd sg <= n) /\
    no_overlap segs /\
    (In true speech ->
     forall i, covered i segs <-> mask_at dilated i = true) /\
    (all_silent energy_db mx threshold_db -> segs = [(0, n)]).
Proof.
  intros Hmx Hframes Hm n speech dilated.
  assert (Hn : 0 < n) by (unfold n; lia).
  assert (Hlen : Py.len dilated = n).
  { unfold dilated, speech, n, Py.len.
    rewrite length_binary_dilation, length_is_speech. reflexivity. }
  unfold _segment_audio. rewrite Hmx.
  destruct (Z.leb_spec m 0) as [?|_]; [lia|].
  destruct (Z.eqb_spec (Py.len energy_db) 1) as [?|_]; [lia|].
  cbn [orb]. fold speech. fold dilated.
  destruct (in_dec bool_dec true speech) as [Hin|Hnin].
  - (* some frame is active *)
    destruct (In_mask_at _ Hin) as (k & Hk).
    apply (binary_dilation_extensive _ m) in Hk; [|exact Hm]. fold dilated in Hk.
    rewrite (segments_of_mask_active _ _ Hk).
    destruct (find_segments_spec dilated) as (Hsep & Hend & Hcov).
    exists (find_segments dilated). split; [reflexivity|].
    split.
    { intros E. apply mask_at_true_range in Hk as Hr.
      apply (Hcov k Hr) in Hk. rewrite E in Hk. exact (covered_nil _ Hk). }
    split; [exact Hsep|].
    split.
    { intros sg Hsg. apply find_segments_range in Hsg. lia. }
    split; [exact (separated_no_overlap _ _ Hsep)|].
    split.
    + intros _ i. split.
      * intros Hc. apply Hcov; [|exact Hc].
        destruct Hc as (sg & Hsg & Hi). unfold in_seg in Hi.
        apply find_segments_range in Hsg. lia.
      * intros Hi. apply Hcov; [|exact Hi].
        apply mask_at_true_range in Hi. lia.
    + intros Hsil. specialize (Hsil true Hin). discriminate.
  - (* no frame is active *)
    assert (Hsil : forall k, mask_at speech k = false).
    { intros k. destruct (mask_at speech k) eqn:E; [|reflexivity].
      destruct (Hnin (mask_at_In _ _ E)). }
    rewrite (segments_of_mask_silent dilated)
      by (apply binary_dilation_silent; exact Hsil).
    rewrite Hlen. exists [(0, n)]. split; [reflexivity|].
    split; [discriminate|].
    assert (Hsep : separated 0 [(0, n)]) by (simpl; lia).
    split; [exact Hsep|].
    split.
    { intros sg [<-|[]]. simpl. lia. }
    split; [exact (separated_no_overlap _ _ Hsep)|].
    split; [intros Hin; destruct (Hnin Hin)|reflexivity].
Qed.

Lemma segment_audio_active_runs_witness :
  exists segs,
    _segment_audio Vectors.two_frames 0%Q 100 = Some segs /\
    segs <> [] /\
    separated 0 segs /\
    (forall sg, In sg segs -> 0 <= fst sg < snd sg /\ snd sg <= 2) /\
    no_overlap segs /\
    (In true (is_speech Vectors.two_frames 0%Q 0%Q) ->
     forall i, covered i segs <->
       mask_at (binary_dilation (is_speech Vectors.two_frames 0%Q 0%Q) 100) i
       = true) /\
    (all_silent Vectors.two_frames 0%Q 0%Q -> segs = [(0, 2)]).
Proof.
  apply (segment_audio_active_runs Vectors.two_frames 0%Q 100 0%Q).
  - reflexivity.
  - reflexivity.
  - lia.
Defined.

(** C1 (as stated) fails: a curve whose only loud frame is the first one is
    given the single segment [(0, 50)], which leaves frames 50 to 59 of its
    60 frames in no segment. *)
Lemma segment_audio_leaves_gaps :
  _segment_audio Vectors.one_loud_frame default_threshold_db
    default_min_silence_frames = Some [(0, 50)] /\
  Py.len Vectors.one_loud_frame = 60 /\
  ~ partitions [(0, 50)] 60.
Proof.
  split; [vm_compute; reflexivity|]. split; [reflexivity|].
  intros [Hcov _]. destruct (Hcov 55) as [_ H].
  destruct H as (sg & [<-|[]] & Hi); [lia|]. unfold in_seg in Hi. simpl in Hi. lia.
Qed.

End SegmenterFacts.

(** ** Python slices *)

Module PyFacts.

Lemma slice_index_inside n k : 0 <= k <= n -> Py.slice_index n k = k.
Proof.
  intros H. unfold Py.slice_index. destruct (Z.ltb_spec k 0); lia.
Qed.

Lemma slice_inside {A} (l : list A) a b :
  0 <= a <= b -> b <= Py.len l ->
  Py.slice l a b = take (Z.to_nat (b - a)) (drop (Z.to_nat a) l).
Proof.
  unfold Py.len. intros Ha Hb. unfold Py.slice.
  rewrite !slice_index_inside by lia. reflexivity.
Qed.

Lemma len_slice {A} (l : list A) a b :
  0 <= a <= b -> b <= Py.len l -> Py.len (Py.slice l a b) = b - a.
Proof.
  intros Ha Hb. rewrite slice_inside by assumption.
  unfold Py.len in *. rewrite length_take, length_drop. lia.
Qed.

Lemma slice_to_inside {A} (l : list A) b :
  0 <= b <= Py.len l -> Py.slice_to l b = take (Z.to_nat b) l.
Proof.
  intros Hb. unfold Py.slice_to. rewrite slice_inside by lia.
  simpl. rewrite Z.sub_0_r. reflexivity.
Qed.

Lemma slice_from_inside {A} (l : list A) a :
  0 <= a <= Py.len l -> Py.slice_from l a = drop (Z.to_nat a) l.
Proof.
  intros Ha. unfold Py.slice_from. fold (Py.len l).
  rewrite slice_inside by lia.
  apply take_ge. unfold Py.len in *. rewrite length_drop. lia.
Qed.

Lemma len_app {A} (l k : list A) : Py.len (l ++ k) = Py.len l + Py.len k.
Proof. unfold Py.len. rewrite length_app. lia. Qed.

Lemma len_replicate {A} n (x : A) : Py.len (replicate n x) = Z.of_nat n.
Proof. unfold Py.len. rewrite length_replicate. reflexivity. Qed.

Lemma len_nonneg {A} (l : list A) : 0 <= Py.len l.
Proof. unfold Py.len. lia. Qed.

(** [map] and list lookup. *)
Lemma lookup_map {A B} (f : A -> B) (l : list A) (i : nat) :
  map f l !! i = f <$> l !! i.
Proof.
  revert i. induction l as [|a l IH]; intros [|i]; simpl; try reflexivity.
  apply IH.
Qed.

End PyFacts.

(** ** PaddedSynthesizer *)

Module SynthFacts.

Import Synth.

Section WithSamples.
Context {F M : Type}.
Variables (nan zero : F) (isnan : F -> bool) (midi_to_hz : F -> F).

(** The unvoiced value through both conversions: a frame without a
    positive frequency becomes NaN, and NaN becomes 0 Hz. *)
Lemma unvoiced_round_trip (hz_to_midi : F -> F) (positive : F -> bool) f0_np :
  isnan nan = true ->
  (forall hz, In hz f0_np -> positive hz = false) ->
  f0_to_midi nan hz_to_midi positive f0_np = map (fun _ => nan) f0_np /\
  f0_to_hz zero isnan midi_to_hz (f0_to_midi nan hz_to_midi positive f0_np)
  = map (fun _ => zero) f0_np.
Proof.
  intros Hnan Hneg. unfold f0_to_hz, f0_to_midi. rewrite map_map. split.
  - apply map_ext_in. intros hz Hin. rewrite (Hneg hz Hin). reflexivity.
  - apply map_ext_in. intros hz Hin. rewrite (Hneg hz Hin), Hnan. reflexivity.
Qed.

Lemma len_f0_to_hz f0 : Py.len (f0_to_hz zero isnan midi_to_hz f0) = Py.len f0.
Proof. unfold f0_to_hz, Py.len. rewrite length_map. reflexivity. Qed.

(** The normalized slice in its three cases. *)
Lemma normalize_f0_cases (f0 : list F) expected_len :
  0 <= expected_len ->
  exists f0',
    normalize_f0 nan f0 expected_len = Ok f0' /\
    Py.len f0' = expected_len /\
    (expected_len < Py.len f0 -> f0' = take (Z.to_nat expected_len) f0) /\
    (Py.len f0 < expected_len ->
     f0' = f0 ++ replicate (Z.to_nat (expected_len - Py.len f0)) nan) /\
    (Py.len f0 = expected_len -> f0' = f0).
Proof.
  intros Hexp. unfold normalize_f0.
  destruct (Z.eqb_spec (Py.len f0) expected_len) as [Heq|Hne]; simpl.
  - exists f0. repeat split; try lia; try reflexivity.
  - destruct (Z.ltb_spec (Py.len f0) expected_len) as [Hlt|Hge].
    + unfold np_pad.
      destruct (Z.ltb_spec 0 0); [lia|].
      destruct (Z.ltb_spec (expected_len - Py.len f0) 0); [lia|]. simpl.
      eexists. split; [reflexivity|].
      split. { rewrite PyFacts.len_app, PyFacts.len_replicate. lia. }
      repeat split; intros; try lia; try reflexivity.
    + rewrite PyFacts.slice_to_inside by lia.
      eexists. split; [reflexivity|].
      split. { unfold Py.len in *. rewrite length_take. lia. }
      repeat split; intros; try lia; try reflexivity.
Qed.

(** The pitch curve given to the vocoder: the normalized slice between the
    two NaN pads, converted to Hz; it is aligned with the padded window. *)
Lemma vocoder_f0_ok total start end_ (f0 : list F) :
  0 <= start <= end_ -> end_ <= total ->
  exists f0',
    normalize_f0 nan f0 (end_ - start) = Ok f0' /\
    Py.len f0' = end_ - start /\
    vocoder_f0 nan zero isnan midi_to_hz total (start, end_) f0 =
      Ok (f0_to_hz zero isnan midi_to_hz
            (replicate (Z.to_nat (start - Z.max 0 (start - 64))) nan ++ f0' ++
             replicate (Z.to_nat (Z.min total (end_ + 64) - end_)) nan)) /\
    forall f0_hz,
      vocoder_f0 nan zero isnan midi_to_hz total (start, end_) f0 = Ok f0_hz ->
      Py.len f0_hz = Z.min total (end_ + 64) - Z.max 0 (start - 64).
Proof.
  intros H1 H2.
  destruct (normalize_f0_cases f0 (end_ - start)) as (f0' & Hn & Hlen & _); [lia|].
  exists f0'. split; [exact Hn|]. split; [exact Hlen|].
  assert (Hv : vocoder_f0 nan zero isnan midi_to_hz total (start, end_) f0 =
      Ok (f0_to_hz zero isnan midi_to_hz
            (replicate (Z.to_nat (start - Z.max 0 (start - 64))) nan ++ f0' ++
             replicate (Z.to_nat (Z.min total (end_ + 64) - end_)) nan))).
  { unfold vocoder_f0, padded_range, pad_frames. rewrite Hn. simpl.
    unfold np_pad.
    destruct (Z.ltb_spec (start - Z.max 0 (start - 64)) 0); [lia|].
    destruct (Z.ltb_spec (Z.min total (end_ + 64) - end_) 0); [lia|].
    reflexivity. }
  split; [exact Hv|].
  intros f0_hz Hf. rewrite Hv in Hf. injection Hf as <-.
  rewrite len_f0_to_hz, !PyFacts.len_app, !PyFacts.len_replicate. lia.
Qed.

Lemma synthesize_segment_unfold (self : AudioProcessor F M) Gforward mel
    start end_ f0 f0_hz :
  model self = Some Gforward ->
  vocoder_f0 nan zero isnan midi_to_hz (Py.len mel) (start, end_) f0 = Ok f0_hz ->
  synthesize_segment nan zero isnan midi_to_hz self mel (start, end_) f0 =
  match
    Gforward
      (Py.slice mel (Z.max 0 (start - 64)) (Z.min (Py.len mel) (end_ + 64)))
      f0_hz
  with
  | Ok audio_padded =>
      match config self with
      | None => Raise KeyError
      | Some hop_size =>
          Ok (trim_audio audio_padded
                (start - Z.max 0 (start - 64))
                (Z.min (Py.len mel) (end_ + 64) - end_) hop_size)
      end
  | Raise e => Raise e
  end.
Proof.
  intros Hm Hv. unfold synthesize_segment. rewrite Hm.
  unfold padded_range, pad_frames. simpl.
  unfold padded_range, pad_frames in Hv. simpl in Hv.
  unfold vocoder_f0, padded_range, pad_frames in Hv |- *. rewrite Hv.
  reflexivity.
Qed.

(** C2.  A segment [(start, end)] of a track of [total_frames] frames is
    synthesized on the window [max(0, start-64) .. min(total_frames, end+64)].
    When the vocoder returns [hop] samples per frame of that window, the
    result is the part of its waveform that belongs to the segment: the
    [(end - start) * hop] samples that follow the [(start - p_start) * hop]
    samples of the leading context.  And whatever waveform the vocoder
    returns, if [trim_end <= trim_start] that waveform is returned
    untrimmed. *)
Theorem synthesize_segment_trimmed (self : AudioProcessor F M) Gforward hop
    mel start end_ (f0 : list F) :
  model self = Some Gforward -> config self = Some hop ->
  0 <= start <= end_ -> end_ <= Py.len mel ->
  let p_start := Z.max 0 (start - 64) in
  let p_end := Z.min (Py.len mel) (end_ + 64) in
  let trim_start := (start - p_start) * hop in
  padded_range (Py.len mel) (start, end_) = (p_start, p_end) /\
  exists f0_hz,
    vocoder_f0 nan zero isnan midi_to_hz (Py.len mel) (start, end_) f0
    = Ok f0_hz /\
    Py.len f0_hz = Py.len (Py.slice mel p_start p_end) /\
    (0 < hop -> start < end_ ->
     vocoder_covers Gforward hop (Py.slice mel p_start p_end) ->
     exists audio_padded out,
       Gforward (Py.slice mel p_start p_end) f0_hz = Ok audio_padded /\
       synthesize_segment nan zero isnan midi_to_hz self mel (start, end_) f0
       = Ok out /\
       out = take (Z.to_nat ((end_ - start) * hop))
               (drop (Z.to_nat trim_start) audio_padded) /\
       Py.len out = (end_ - start) * hop) /\
    (forall audio_padded,
       Gforward (Py.slice mel p_start p_end) f0_hz = Ok audio_padded ->
       Py.len audio_padded - (p_end - end_) * hop <= trim_start ->
       synthesize_segment nan zero isnan midi_to_hz self mel (start, end_) f0
       = Ok audio_padded).
Proof.
  intros Hm Hc Hseg Hend p_start p_end trim_start.
  split; [reflexivity|].
  destruct (vocoder_f0_ok (Py.len mel) start end_ f0) as (f0' & _ & _ & Hv & Hlen);
    [lia|lia|].
  specialize (Hlen _ Hv).
  assert (Hslice : Py.len (Py.slice mel p_start p_end) = p_end - p_start).
  { apply PyFacts.len_slice; unfold p_start, p_end; lia. }
  eexists. split; [exact Hv|]. split; [rewrite Hslice; exact Hlen|].
  rewrite (synthesize_segment_unfold _ _ _ _ _ _ _ Hm Hv), Hc.
  assert (Hts : 0 <= start - p_start) by (unfold p_start; lia).
  assert (Hpe : 0 <= p_end - end_) by (unfold p_end; lia).
  unfold trim_start in *. clear trim_start.
  change (Z.max 0 (start - 64)) with p_start in Hv, Hlen |- *.
  change (Z.min (Py.len mel) (end_ + 64)) with p_end in Hv, Hlen |- *.
  clearbody p_start p_end.
  split.
  - intros Hhop Hlt Hcontract.
    destruct (Hcontract _ ltac:(rewrite Hlen, Hslice; reflexivity))
      as (audio & HG & Hal).
    exists audio. rewrite HG. eexists. split; [reflexivity|].
    split; [reflexivity|].
    unfold trim_audio.
    assert (Hte : Py.len audio - (p_end - end_) * hop
                  = (start - p_start) * hop + (end_ - start) * hop)
      by (rewrite Hal, Hslice; nia).
    assert (Hpos : 0 < (end_ - start) * hop) by nia.
    assert (Hts' : 0 <= (start - p_start) * hop) by nia.
    assert (Hpe' : 0 <= (p_end - end_) * hop) by nia.
    rewrite Hte.
    destruct (Z.leb_spec ((start - p_start) * hop + (end_ - start) * hop)
                ((start - p_start) * hop)); [lia|].
    rewrite PyFacts.slice_inside by lia.
    replace ((start - p_start) * hop + (end_ - start) * hop
             - (start - p_start) * hop)
      with ((end_ - start) * hop) by lia.
    split; [reflexivity|].
    unfold Py.len in *. rewrite length_take, length_drop. lia.
  - intros audio_padded HG Hpath.
    rewrite HG. unfold trim_audio.
    destruct (Z.leb_spec (Py.len audio_padded - (p_end - end_) * hop)
                ((start - p_start) * hop)); [reflexivity|lia].
Qed.

(** C7 (as amended).  The pitch slice of a segment is normalized before
    use: cut to its first [end - start] values when too long, extended with
    NaN, the unvoiced value, when too short, so that the slice placed
    between the two context pads has exactly [end - start] values. *)
Theorem f0_segment_normalized total start end_ (f0 : list F) :
  0 <= start <= end_ -> end_ <= total ->
  exists f0',
    normalize_f0 nan f0 (end_ - start) = Ok f0' /\
    Py.len f0' = end_ - start /\
    (end_ - start < Py.len f0 -> f0' = take (Z.to_nat (end_ - start)) f0) /\
    (Py.len f0 < end_ - start ->
     f0' = f0 ++ replicate (Z.to_nat (end_ - start - Py.len f0)) nan) /\
    vocoder_f0 nan zero isnan midi_to_hz total (start, end_) f0 =
      Ok (f0_to_hz zero isnan midi_to_hz
            (replicate (Z.to_nat (start - Z.max 0 (start - 64))) nan ++ f0' ++
             replicate (Z.to_nat (Z.min total (end_ + 64) - end_)) nan)).
Proof.
  intros H1 H2.
  destruct (normalize_f0_cases f0 (end_ - start)) as (f0' & Hn & Hlen & Hlong & Hshort & _);
    [lia|].
  destruct (vocoder_f0_ok total start end_ f0 H1 H2) as (f0'' & Hn' & _ & Hv & _).
  rewrite Hn in Hn'. injection Hn' as <-.
  exists f0'. repeat split; assumption.
Qed.

End WithSamples.

(** The example of the design: segment [(10, 20)] of a 1000-frame track
    is synthesized on the window [(0, 84)]. *)
Example padded_range_10_20 : padded_range 1000 (10, 20) = (0, 84).
Proof. reflexivity. Qed.

Lemma silent_vocoder_covers hop mel :
  0 <= hop -> vocoder_covers (Vectors.silent_vocoder hop) hop mel.
Proof.
  intros Hhop f0 _. eexists. split; [reflexivity|].
  rewrite PyFacts.len_replicate.
  pose proof (PyFacts.len_nonneg mel). rewrite Z2Nat.id by nia. reflexivity.
Defined.

Lemma synthesize_segment_trimmed_witness :
  padded_range (Py.len Vectors.mel_1000) (10, 20) = (0, 84) /\
  (exists out,
     synthesize_segment None (Some 0%Q) Vectors.pitch_isnan id
       Vectors.loaded_processor Vectors.mel_1000 (10, 20) [] = Ok out /\
     Py.len out = (20 - 10) * 4) /\
  synthesize_segment None (Some 0%Q) Vectors.pitch_isnan id
    Vectors.short_processor Vectors.mel_1000 (10, 20) []
  = Ok [Some 1%Q; Some 2%Q; Some 3%Q].
Proof.
  assert (Hlen : 20 <= Py.len Vectors.mel_1000).
  { unfold Vectors.mel_1000. rewrite PyFacts.len_replicate. lia. }
  split; [reflexivity|]. split.
  - destruct (synthesize_segment_trimmed None (Some 0%Q) Vectors.pitch_isnan id
                Vectors.loaded_processor (Vectors.silent_vocoder 4) 4
                Vectors.mel_1000 10 20 [] eq_refl eq_refl ltac:(lia) Hlen)
      as (_ & f0_hz & _ & _ & Htrim & _).
    destruct Htrim as (audio_padded & out & _ & Hout & _ & Hl);
      [lia|lia|apply silent_vocoder_covers; lia|].
    exists out. split; [exact Hout|exact Hl].
  - destruct (synthesize_segment_trimmed None (Some 0%Q) Vectors.pitch_isnan id
                Vectors.short_processor Vectors.short_vocoder 4
                Vectors.mel_1000 10 20 [] eq_refl eq_refl ltac:(lia) Hlen)
      as (_ & f0_hz & _ & _ & _ & Hfallback).
    apply Hfallback; [reflexivity|].
    unfold Py.len. simpl. lia.
Defined.

Lemma f0_segment_normalized_witness :
  exists f0' : list Vectors.pitch,
    normalize_f0 None [Some 60%Q] (20 - 10) = Ok f0' /\
    Py.len f0' = 20 - 10.
Proof.
  destruct (f0_segment_normalized None (Some 0%Q) Vectors.pitch_isnan id
              1000 10 20 [Some 60%Q])
    as (f0' & Hn & Hlen & _); [lia|lia|].
  exists f0'. split; [exact Hn|exact Hlen].
Defined.

(** C7 (as stated) fails: a one-value slice for a two-frame segment is
    extended with NaN, not with zero. *)
Lemma normalize_f0_pads_nan :
  normalize_f0 (None : Vectors.pitch) [Some 60%Q] 2 = Ok [Some 60%Q; None] /\
  zero_padded (Some 0%Q : Vectors.pitch) [Some 60%Q] 2 = [Some 60%Q; Some 0%Q] /\
  normalize_f0 (None : Vectors.pitch) [Some 60%Q] 2
    <> Ok (zero_padded (Some 0%Q) [Some 60%Q] 2).
Proof.
  split; [reflexivity|]. split; [reflexivity|]. discriminate.
Qed.

End SynthFacts.

(** ** Tracks, edit history and the editor *)

Module EditorFacts.

Import Segmenter Editor.

Section WithSamples.
Context {F : Type}.
Variable interp : Z -> F -> Z -> F -> Z -> F.

Implicit Types (g : GUI F) (track : Track F).

(** *** The current track *)

(** The status line, the dirty flag and the pointer position do not
    matter to [current_track]. *)
Ltac current_track_frame :=
  repeat first
    [ change (current_track (with_status ?g _)) with (current_track g)
    | change (current_track (with_is_dirty ?g _)) with (current_track g)
    | change (current_track (with_last_mouse_pos ?g _)) with (current_track g) ].

Lemma current_track_lookup g track :
  current_track g = Some track ->
  tracks g !! Z.to_nat (current_track_idx g) = Some track.
Proof.
  unfold current_track.
  destruct ((0 <=? current_track_idx g)
            && (current_track_idx g <? Py.len (tracks g))); [tauto|discriminate].
Qed.

Lemma current_track_put_current g track track' :
  current_track g = Some track ->
  current_track (put_current g track') = Some track'.
Proof.
  intros H. pose proof (current_track_lookup _ _ H) as Hl.
  apply lookup_lt_Some in Hl.
  unfold current_track in *. unfold put_current. simpl.
  unfold Py.len in *. rewrite length_insert.
  destruct ((0 <=? current_track_idx g)
            && (current_track_idx g <? Z.of_nat (length (tracks g))));
    [|discriminate].
  apply list_lookup_insert_eq. exact Hl.
Qed.

Lemma put_current_put_current g track track' :
  put_current (put_current g track) track' = put_current g track'.
Proof.
  unfold put_current, with_tracks. simpl. f_equal. apply list_insert_insert_eq.
Qed.

(** *** The history stacks *)

Lemma pop_snoc (stack : list (list F)) top : pop (stack ++ [top]) = Some (stack, top).
Proof.
  unfold pop. rewrite last_snoc. f_equal. f_equal.
  rewrite length_app. simpl.
  replace (length stack + 1 - 1)%nat with (length stack) by lia.
  apply take_app_length.
Qed.

Lemma nonempty_snoc {A} (l : list A) :
  (1 <= length l)%nat -> exists l' x, l = l' ++ [x].
Proof.
  destruct l as [|a l] using rev_ind; simpl; [lia|]. intros _. eauto.
Qed.

(** What [undo] does on a vocal track with a snapshot on the stack. *)
Lemma undo_step g track (f0 : list F) rest top :
  current_track g = Some track -> is_vocal track = true ->
  f0_edited track = Some f0 -> undo_stack track = rest ++ [top] ->
  undo g =
  Ok (with_status
        (put_current g
           (mark_all_dirty
              (with_history track (Some top) rest (redo_stack track ++ [f0]))))
        "撤销").
Proof.
  intros Hc Hv Hf Hu. unfold undo. rewrite Hc, Hv, Hu, pop_snoc, Hf. reflexivity.
Qed.

(** What [redo] does on a vocal track with a snapshot on the redo stack. *)
Lemma redo_step g track (f0 : list F) rest top :
  current_track g = Some track -> is_vocal track = true ->
  f0_edited track = Some f0 -> redo_stack track = rest ++ [top] ->
  redo g =
  Ok (with_status
        (put_current g
           (mark_all_dirty
              (with_history track (Some top) (undo_stack track ++ [f0]) rest)))
        "重做").
Proof.
  intros Hc Hv Hf Hu. unfold redo. rewrite Hc, Hv, Hu, pop_snoc, Hf. reflexivity.
Qed.

Lemma undo_ok g track (f0 : list F) rest top :
  current_track g = Some track -> is_vocal track = true ->
  f0_edited track = Some f0 -> undo_stack track = rest ++ [top] ->
  exists g',
    undo g = Ok g' /\
    current_track g' =
      Some (mark_all_dirty
              (with_history track (Some top) rest (redo_stack track ++ [f0]))).
Proof.
  intros Hc Hv Hf Hu. eexists. split; [eapply undo_step; eassumption|].
  current_track_frame. eapply current_track_put_current. exact Hc.
Qed.

Lemma redo_ok g track (f0 : list F) rest top :
  current_track g = Some track -> is_vocal track = true ->
  f0_edited track = Some f0 -> redo_stack track = rest ++ [top] ->
  exists g',
    redo g = Ok g' /\
    current_track g' =
      Some (mark_all_dirty
              (with_history track (Some top) (undo_stack track ++ [f0]) rest)).
Proof.
  intros Hc Hv Hf Hu. eexists. split; [eapply redo_step; eassumption|].
  current_track_frame. eapply current_track_put_current. exact Hc.
Qed.

Lemma track_eq track track' :
  name track = name track' -> track_type track = track_type track' ->
  f0_original track = f0_original track' -> f0_edited track = f0_edited track' ->
  segments track = segments track' ->
  segment_states track = segment_states track' ->
  synthesized_audio track = synthesized_audio track' ->
  muted track = muted track' -> solo track = solo track' ->
  volume track = volume track' -> start_frame track = start_frame track' ->
  shift_value track = shift_value track' ->
  undo_stack track = undo_stack track' -> redo_stack track = redo_stack track' ->
  track = track'.
Proof. destruct track, track'; simpl; intros; subst; reflexivity. Qed.

(** Two undos followed by two redos give the track back, with every
    segment marked dirty. *)
Lemma undo_undo_redo_redo g track (c a b : list F) us :
  current_track g = Some track -> is_vocal track = true ->
  f0_edited track = Some c -> undo_stack track = us ++ [a; b] ->
  exists g3 g4 g5 g6,
    undo g = Ok g3 /\ undo g3 = Ok g4 /\ redo g4 = Ok g5 /\ redo g5 = Ok g6 /\
    current_track g6 = Some (mark_all_dirty track).
Proof.
  intros Hc Hv Hf Hu.
  destruct (undo_ok g track c (us ++ [a]) b Hc Hv Hf) as (g3 & H3 & Hc3).
  { rewrite Hu, <- app_assoc. reflexivity. }
  destruct (undo_ok g3 _ b us a Hc3 Hv eq_refl eq_refl) as (g4 & H4 & Hc4).
  destruct (redo_ok g4 _ a (redo_stack track ++ [c]) b Hc4 Hv eq_refl eq_refl)
    as (g5 & H5 & Hc5).
  destruct (redo_ok g5 _ b (redo_stack track) c Hc5 Hv eq_refl eq_refl)
    as (g6 & H6 & Hc6).
  exists g3, g4, g5, g6. repeat (split; [assumption|]).
  rewrite Hc6. f_equal.
  apply track_eq; try reflexivity.
  - cbn. rewrite Hf. reflexivity.
  - cbn. rewrite !map_map. reflexivity.
  - cbn. rewrite Hu, <- app_assoc. reflexivity.
Qed.

(** C8.  [undo] with an empty undo stack, and [redo] with an empty redo
    stack, return normally and change no state: the tracks, with their
    curves, history stacks and segment states, stay as they are.  On a
    vocal track the status line reports that there is nothing to undo, or
    to redo. *)
Theorem undo_redo_empty_stack g track :
  current_track g = Some track ->
  (undo_stack track = [] ->
   exists g',
     undo g = Ok g' /\
     tracks g' = tracks g /\ current_track g' = Some track /\
     last_mouse_pos g' = last_mouse_pos g /\ is_dirty g' = is_dirty g /\
     (is_vocal track = true -> status_label g' = "没有可撤销的操作")) /\
  (redo_stack track = [] ->
   exists g',
     redo g = Ok g' /\
     tracks g' = tracks g /\ current_track g' = Some track /\
     last_mouse_pos g' = last_mouse_pos g /\ is_dirty g' = is_dirty g /\
     (is_vocal track = true -> status_label g' = "没有可重做的操作")).
Proof.
  intros Hc. split; intros Hs.
  - unfold undo. rewrite Hc, Hs. destruct (is_vocal track); cbn [negb pop last].
    + eexists. split; [reflexivity|]. repeat split. exact Hc.
    + exists g. split; [reflexivity|]. repeat split; [exact Hc|discriminate].
  - unfold redo. rewrite Hc, Hs. destruct (is_vocal track); cbn [negb pop last].
    + eexists. split; [reflexivity|]. repeat split. exact Hc.
    + exists g. split; [reflexivity|]. repeat split; [exact Hc|discriminate].
Qed.

(** *** Drawing *)

Lemma push_undo_guarded g track (f0 : list F) :
  current_track g = Some track -> is_vocal track = true ->
  f0_edited track = Some f0 ->
  push_undo g = put_current g (snapshot track f0).
Proof. intros Hc Hv Hf. unfold push_undo. rewrite Hc, Hv, Hf. reflexivity. Qed.

(** [handle_draw] past its guards. *)
Lemma handle_draw_unfold g track (f0 : list F) point_x y is_left is_right :
  current_track g = Some track -> is_vocal track = true ->
  f0_edited track = Some f0 ->
  let x := point_x - start_frame track in
  let track1 :=
    match last_mouse_pos g with None => snapshot track f0 | Some _ => track end in
  let g1 :=
    match last_mouse_pos g with None => push_undo g | Some _ => g end in
  current_track g1 = Some track1 /\
  handle_draw interp g point_x y is_left is_right =
  if (0 <=? x) && (x <? Py.len f0) then
    r ← draw_edit interp (last_mouse_pos g) is_left is_right
          (f0_original track) x y f0;
    finish_draw g1 track1 x y r
  else Ok g1.
Proof.
  intros Hc Hv Hf x track1 g1.
  assert (Hc1 : current_track g1 = Some track1).
  { unfold g1, track1. destruct (last_mouse_pos g); [exact Hc|].
    rewrite (push_undo_guarded _ _ _ Hc Hv Hf).
    eapply current_track_put_current. exact Hc. }
  split; [exact Hc1|].
  unfold handle_draw. rewrite Hc, Hv, Hf. simpl.
  fold x. fold g1. rewrite Hc1.
  assert (Hf1 : f0_edited track1 = Some f0).
  { unfold track1. destruct (last_mouse_pos g); [exact Hf|reflexivity]. }
  assert (Ho : f0_original track1 = f0_original track).
  { unfold track1. destruct (last_mouse_pos g); reflexivity. }
  rewrite Hf1, Ho. reflexivity.
Qed.

(** What [finish_draw] leaves as the current track. *)
Lemma finish_draw_ok g track (f0 : list F) changed range x y g' :
  current_track g = Some track ->
  finish_draw g track x y (f0, changed, range) = Ok g' ->
  exists states,
    (if changed
     then mark_dirty (segments track) 0 (fst range) (snd range)
            (segment_states track)
     else Ok (segment_states track)) = Ok states /\
    current_track g' =
      Some (with_segment_states (with_f0_edited track (Some f0)) states).
Proof.
  intros Hc Hfin. unfold finish_draw in Hfin.
  destruct (if changed
            then mark_dirty (segments track) 0 range.1 range.2 (segment_states track)
            else Ok (segment_states track)) as [states|e]; [|discriminate].
  simpl in Hfin. injection Hfin as <-. exists states. split; [reflexivity|].
  destruct changed; current_track_frame;
    eapply current_track_put_current; exact Hc.
Qed.

Lemma snapshot_stack_length track (f0 : list F) :
  (length (undo_stack track) <= length (undo_stack (snapshot track f0)))%nat /\
  ((length (undo_stack track) < 16)%nat ->
   length (undo_stack (snapshot track f0)) = S (length (undo_stack track))).
Proof.
  unfold snapshot. simpl. unfold Py.len. rewrite length_app. simpl.
  destruct (Z.ltb_spec 16 (Z.of_nat (length (undo_stack track) + 1))).
  - rewrite length_drop, length_app. simpl. lia.
  - rewrite length_app. simpl. lia.
Qed.

(** [handle_draw] keeps the current track vocal, with a curve and with its
    snapshots; at the start of a stroke it adds one. *)
Lemma handle_draw_ready g g' n point_x y is_left is_right :
  vocal_ready g n ->
  handle_draw interp g point_x y is_left is_right = Ok g' ->
  vocal_ready g' n /\
  (last_mouse_pos g = None -> (n < 16)%nat -> vocal_ready g' (S n)).
Proof.
  intros (track & Hc & Hv & [f0 Hf] & Hn) Hd.
  destruct (handle_draw_unfold g track f0 point_x y is_left is_right Hc Hv Hf)
    as (Hc1 & Heq).
  rewrite Heq in Hd. clear Heq.
  destruct (snapshot_stack_length track f0) as (Hge & Hlt).
  set (track1 := match last_mouse_pos g with
                 | None => snapshot track f0 | Some _ => track end) in *.
  set (g1 := match last_mouse_pos g with
             | None => push_undo g | Some _ => g end) in *.
  assert (Hv1 : is_vocal track1 = true).
  { unfold track1. destruct (last_mouse_pos g); exact Hv. }
  assert (Hf1 : is_Some (f0_edited track1)).
  { unfold track1. destruct (last_mouse_pos g); simpl; eauto. }
  assert (Hn1 : (n <= length (undo_stack track1))%nat).
  { unfold track1. destruct (last_mouse_pos g); lia. }
  assert (Hn2 : last_mouse_pos g = None -> (n < 16)%nat ->
                (S n <= length (undo_stack track1))%nat).
  { unfold track1. intros -> Hlt16.
    destruct (Nat.lt_ge_cases (length (undo_stack track)) 16); lia. }
  assert (Hready : forall g2 track2,
            current_track g2 = Some track2 ->
            is_vocal track2 = true -> is_Some (f0_edited track2) ->
            undo_stack track2 = undo_stack track1 ->
            vocal_ready g2 n /\
            (last_mouse_pos g = None -> (n < 16)%nat -> vocal_ready g2 (S n))).
  { intros g2 track2 Hc2 Hv2 Hf2 Hu2. split.
    - exists track2. rewrite Hu2. auto.
    - intros Hl H16. exists track2. rewrite Hu2. auto. }
  destruct ((0 <=? point_x - start_frame track)
            && (point_x - start_frame track <? Py.len f0)).
  - destruct (draw_edit interp (last_mouse_pos g) is_left is_right
                (f0_original track) (point_x - start_frame track) y f0)
      as [[[f0' changed] range]|e]; [|discriminate].
    simpl in Hd.
    destruct (finish_draw_ok _ _ _ _ _ _ _ _ Hc1 Hd) as (states & _ & Hc2).
    apply (Hready _ _ Hc2); [exact Hv1|simpl; eauto|reflexivity].
  - injection Hd as <-. apply (Hready _ track1); auto.
Qed.

(** *** Strokes *)

Lemma vocal_ready_drawable g n :
  vocal_ready g n ->
  exists track, current_track g = Some track /\ drawable track = true.
Proof.
  intros (track & Hc & Hv & Hf & _). exists track. split; [exact Hc|].
  unfold drawable. rewrite Hv. simpl. apply bool_decide_eq_true. exact Hf.
Qed.

Lemma vocal_ready_last_mouse_pos g n p :
  vocal_ready g n -> vocal_ready (with_last_mouse_pos g p) n.
Proof. intros (track & H). exists track. exact H. Qed.

Lemma click_ready g g' n button point_x y :
  vocal_ready g n -> (n < 16)%nat -> button <> OtherButton ->
  on_scene_mouse_click interp g button point_x y = Ok g' ->
  vocal_ready g' (S n).
Proof.
  intros Hr Hn Hb Hclick. destruct (vocal_ready_drawable _ _ Hr) as (track & Hc & Hd).
  unfold on_scene_mouse_click in Hclick. rewrite Hc, Hd in Hclick.
  destruct button; [| |congruence];
    (eapply handle_draw_ready in Hclick;
     [|apply vocal_ready_last_mouse_pos; exact Hr]);
    destruct Hclick as [_ H]; apply H; [reflexivity|exact Hn|reflexivity|exact Hn].
Qed.

Lemma move_ready g g' n is_left is_right point_x y :
  vocal_ready g n ->
  on_scene_mouse_move interp g is_left is_right point_x y = Ok g' ->
  vocal_ready g' n.
Proof.
  intros Hr Hmove. destruct (vocal_ready_drawable _ _ Hr) as (track & Hc & Hd).
  unfold on_scene_mouse_move in Hmove. rewrite Hc, Hd in Hmove.
  destruct (negb (is_left || is_right)).
  - injection Hmove as <-. apply vocal_ready_last_mouse_pos. exact Hr.
  - eapply handle_draw_ready in Hmove; [|exact Hr]. tauto.
Qed.

Lemma drag_ready moves : forall g g' n is_left is_right,
  vocal_ready g n ->
  drag interp g is_left is_right moves = Ok g' ->
  vocal_ready g' n.
Proof.
  induction moves as [|[point_x y] moves IH]; intros g g' n is_left is_right Hr Hd.
  - injection Hd as <-. exact Hr.
  - simpl in Hd.
    destruct (on_scene_mouse_move interp g is_left is_right point_x y)
      as [g1|e] eqn:Hm; [|discriminate].
    simpl in Hd. eapply IH; [|exact Hd]. eapply move_ready; eassumption.
Qed.

(** A stroke made with the left or the right button leaves one more undo
    snapshot (while there is room for one). *)
Lemma stroke_ready g g' n button point_x y moves :
  vocal_ready g n -> (n < 16)%nat -> button <> OtherButton ->
  stroke interp g button point_x y moves = Ok g' ->
  vocal_ready g' (S n).
Proof.
  intros Hr Hn Hb Hs. unfold stroke in Hs.
  destruct (on_scene_mouse_click interp g button point_x y) as [g1|e] eqn:Hc;
    [|discriminate].
  simpl in Hs.
  destruct (drag interp g1 (is_left_button button) (is_right_button button) moves)
    as [g2|e] eqn:Hd; [|discriminate].
  simpl in Hs. injection Hs as <-.
  apply vocal_ready_last_mouse_pos.
  eapply drag_ready; [|exact Hd]. eapply click_ready; eassumption.
Qed.

(** C4.  After two edit strokes on a vocal track, two undos followed by two
    redos all succeed and leave the track as it was after the second
    stroke, up to the dirty flags: the same edited curve and the same
    history stacks. *)
Theorem undo_twice_redo_twice g g1 g2 b1 x1 y1 moves1 b2 x2 y2 moves2 :
  vocal_ready g 0 ->
  b1 <> OtherButton -> b2 <> OtherButton ->
  stroke interp g b1 x1 y1 moves1 = Ok g1 ->
  stroke interp g1 b2 x2 y2 moves2 = Ok g2 ->
  exists g3 g4 g5 g6 track track6 (f0 : list F),
    undo g2 = Ok g3 /\ undo g3 = Ok g4 /\ redo g4 = Ok g5 /\ redo g5 = Ok g6 /\
    current_track g2 = Some track /\ f0_edited track = Some f0 /\
    current_track g6 = Some track6 /\ f0_edited track6 = Some f0 /\
    track6 = mark_all_dirty track.
Proof.
  intros Hr Hb1 Hb2 Hs1 Hs2.
  pose proof (stroke_ready _ _ _ _ _ _ _ Hr ltac:(lia) Hb1 Hs1) as Hr1.
  pose proof (stroke_ready _ _ _ _ _ _ _ Hr1 ltac:(lia) Hb2 Hs2) as Hr2.
  destruct Hr2 as (track & Hc & Hv & [f0 Hf] & Hn).
  destruct (nonempty_snoc (undo_stack track)) as (us1 & b & Hu1); [lia|].
  destruct (nonempty_snoc us1) as (us & a & Hu).
  { rewrite Hu1, length_app in Hn. simpl in Hn. lia. }
  assert (Hstack : undo_stack track = us ++ [a; b]).
  { rewrite Hu1, Hu, <- app_assoc. reflexivity. }
  destruct (undo_undo_redo_redo g2 track f0 a b us Hc Hv Hf Hstack)
    as (g3 & g4 & g5 & g6 & H3 & H4 & H5 & H6 & Hc6).
  exists g3, g4, g5, g6, track, (mark_all_dirty track), f0.
  repeat split; first [assumption | exact Hf].
Qed.

(** *** Dirty marking *)

(** The marking loop succeeds when every segment has a state, and sets the
    flag of exactly the overlapping segments. *)
Lemma mark_dirty_spec min_x max_x segs : forall i (states : list (SegmentState F)),
  (i + length segs <= length states)%nat ->
  exists states',
    mark_dirty segs i min_x max_x states = Ok states' /\
    length states' = length states /\
    (forall k, (k < i)%nat -> states' !! k = states !! k) /\
    (forall j sg, segs !! j = Some sg ->
       states' !! (i + j)%nat =
       (if overlaps min_x max_x sg then set_dirty else id) <$> states !! (i + j)%nat).
Proof.
  induction segs as [|sg segs IH]; intros i states Hlen; simpl in *.
  - exists states. repeat split; try reflexivity. intros j sg Hj. discriminate.
  - destruct (overlaps min_x max_x sg) eqn:Ho.
    + destruct (lookup_lt_is_Some_2 states i ltac:(lia)) as [st Hst].
      rewrite Hst.
      destruct (IH (S i) (<[i:=set_dirty st]> states)) as (states' & Hm & Hl & Hlow & Hseg).
      { rewrite length_insert. lia. }
      exists states'. split; [exact Hm|]. rewrite length_insert in Hl.
      split; [exact Hl|]. split.
      * intros k Hk. rewrite Hlow by lia. apply list_lookup_insert_ne. lia.
      * intros [|j] sg' Hj; simpl in Hj.
        -- injection Hj as <-. rewrite Ho, Nat.add_0_r, Hlow by lia.
           rewrite list_lookup_insert_eq by lia. rewrite Hst. reflexivity.
        -- replace (i + S j)%nat with (S i + j)%nat by lia.
           rewrite (Hseg j sg' Hj). rewrite list_lookup_insert_ne by lia.
           reflexivity.
    + destruct (IH (S i) states) as (states' & Hm & Hl & Hlow & Hseg); [lia|].
      exists states'. split; [exact Hm|]. split; [exact Hl|]. split.
      * intros k Hk. apply Hlow. lia.
      * intros [|j] sg' Hj; simpl in Hj.
        -- injection Hj as <-. rewrite Ho, Nat.add_0_r, Hlow by lia.
           destruct (states !! i); reflexivity.
        -- replace (i + S j)%nat with (S i + j)%nat by lia.
           exact (Hseg j sg' Hj).
Qed.

Lemma overlaps_single x sg :
  overlaps x x sg = bool_decide (fst sg <= x < snd sg).
Proof.
  unfold overlaps.
  destruct (Z.ltb_spec x (fst sg)), (Z.leb_spec (snd sg) x); simpl;
    symmetry; (apply bool_decide_eq_true + apply bool_decide_eq_false); lia.
Qed.

(** A single-frame edit writes frame [x], reports a change and gives
    [(x, x)] as the affected range. *)
Lemma draw_edit_single last is_left is_right f0_orig x y (f0 : list F) :
  0 <= x < Py.len f0 ->
  single_frame last x (Py.len f0) ->
  is_left = true \/
  (is_right = true /\
   exists orig v, f0_orig = Some orig /\ orig !! Z.to_nat x = Some v) ->
  exists v,
    draw_edit interp last is_left is_right f0_orig x y f0
    = Ok (<[Z.to_nat x := v]> f0, true, (x, x)).
Proof.
  intros Hx Hsingle Hbutton.
  assert (Hpoint : exists v,
             draw_point is_left is_right f0_orig x y f0
             = Ok (<[Z.to_nat x := v]> f0, true)).
  { unfold draw_point. destruct is_left; [eauto|].
    destruct Hbutton as [?|(-> & orig & v & -> & Hv)]; [discriminate|].
    rewrite Hv. eauto. }
  destruct Hpoint as (v & Hpoint). exists v.
  unfold draw_edit. destruct last as [[last_x last_y]|].
  - simpl in Hsingle.
    destruct (Z.ltb_spec (Z.max 0 (Z.min last_x x))
                (Z.min (Py.len f0 - 1) (Z.max last_x x))) as [?|_]; [lia|].
    rewrite Hpoint. simpl.
    replace (Z.max 0 (Z.min last_x x)) with x by lia.
    replace (Z.min (Py.len f0 - 1) (Z.max last_x x)) with x by lia.
    reflexivity.
  - rewrite Hpoint. reflexivity.
Qed.

(** C3.  An edit of the single frame [x] of the current vocal track marks
    dirty the segments whose closed-open range contains [x] and leaves the
    state of every other segment as it was. *)
Theorem single_frame_edit_marks_containing g track (f0 : list F)
    point_x y is_left is_right :
  current_track g = Some track -> is_vocal track = true ->
  f0_edited track = Some f0 ->
  length (segments track) = length (segment_states track) ->
  let x := point_x - start_frame track in
  0 <= x < Py.len f0 ->
  single_frame (last_mouse_pos g) x (Py.len f0) ->
  is_left = true \/
  (is_right = true /\
   exists orig v, f0_original track = Some orig /\ orig !! Z.to_nat x = Some v) ->
  exists g' track' v,
    handle_draw interp g point_x y is_left is_right = Ok g' /\
    current_track g' = Some track' /\
    f0_edited track' = Some (<[Z.to_nat x := v]> f0) /\
    segments track' = segments track /\
    length (segment_states track') = length (segment_states track) /\
    forall (k : nat) sg st,
      segments track !! k = Some sg -> segment_states track !! k = Some st ->
      segment_states track' !! k = Some (dirty_after x sg st).
Proof.
  intros Hc Hv Hf Hlen x Hx Hsingle Hbutton.
  destruct (draw_edit_single (last_mouse_pos g) is_left is_right
              (f0_original track) x y f0 Hx Hsingle Hbutton) as (v & Hedit).
  destruct (mark_dirty_spec x x (segments track) 0 (segment_states track))
    as (states' & Hmark & Hl & _ & Hseg); [simpl; lia|].
  destruct (handle_draw_unfold g track f0 point_x y is_left is_right Hc Hv Hf)
    as (Hc1 & Heq).
  rewrite Heq. clear Heq. fold x.
  set (track1 := match last_mouse_pos g with
                 | None => snapshot track f0 | Some _ => track end) in *.
  set (g1 := match last_mouse_pos g with
             | None => push_undo g | Some _ => g end) in *.
  assert (Hs1 : segments track1 = segments track
                /\ segment_states track1 = segment_states track).
  { unfold track1. destruct (last_mouse_pos g); split; reflexivity. }
  destruct Hs1 as (Hs1 & Hst1).
  destruct (Z.leb_spec 0 x); [|lia]. destruct (Z.ltb_spec x (Py.len f0)); [|lia].
  cbn [andb]. rewrite Hedit. unfold mbind, res_bind. cbv beta iota.
  destruct (finish_draw g1 track1 x y (<[Z.to_nat x:=v]> f0, true, (x, x)))
    as [g'|e] eqn:Hfin.
  2:{ unfold finish_draw in Hfin. simpl in Hfin.
      rewrite Hs1, Hst1, Hmark in Hfin. discriminate. }
  destruct (finish_draw_ok _ _ _ _ _ _ _ _ Hc1 Hfin) as (states & Hm & Hc2).
  simpl in Hm. rewrite Hs1, Hst1, Hmark in Hm. injection Hm as <-.
  eexists. eexists. exists v. split; [reflexivity|].
  split; [exact Hc2|].
  split; [reflexivity|].
  split; [exact Hs1|].
  split; [exact Hl|].
  intros k sg st Hk Hst. cbn.
  specialize (Hseg k sg Hk). simpl in Hseg. rewrite Hseg, Hst. simpl.
  rewrite overlaps_single. unfold dirty_after.
  destruct (decide (fst sg <= x < snd sg)) as [Hin|Hout].
  - rewrite bool_decide_eq_true_2 by exact Hin. reflexivity.
  - rewrite bool_decide_eq_false_2 by exact Hout. reflexivity.
Qed.

End WithSamples.

Lemma single_frame_edit_marks_containing_witness :
  exists g' track' v,
    handle_draw Vectors.linear_interp Vectors.editor 1 (Some 70%Q) true false = Ok g' /\
    current_track g' = Some track' /\
    f0_edited track' = Some (<[1%nat := v]> Vectors.curve) /\
    segment_states track' !! 0%nat = Some (mkSegmentState true None) /\
    segment_states track' !! 1%nat = Some Vectors.clean.
Proof.
  destruct (single_frame_edit_marks_containing Vectors.linear_interp
              Vectors.editor Vectors.lead Vectors.curve 1 (Some 70%Q) true false)
    as (g' & track' & v & Hd & Hc & Hf & _ & _ & Hst).
  - reflexivity.
  - reflexivity.
  - reflexivity.
  - reflexivity.
  - simpl. unfold Py.len. simpl. lia.
  - exact I.
  - left. reflexivity.
  - exists g', track', v. split; [exact Hd|]. split; [exact Hc|].
    split; [exact Hf|]. split.
    + exact (Hst 0%nat (0, 2) Vectors.clean eq_refl eq_refl).
    + exact (Hst 1%nat (2, 4) Vectors.clean eq_refl eq_refl).
Defined.

Lemma undo_twice_redo_twice_witness :
  exists g3 g4 g5 g6 track track6 (f0 : list Vectors.pitch),
    undo Vectors.after_second_stroke = Ok g3 /\ undo g3 = Ok g4 /\
    redo g4 = Ok g5 /\ redo g5 = Ok g6 /\
    current_track Vectors.after_second_stroke = Some track /\
    f0_edited track = Some f0 /\
    current_track g6 = Some track6 /\ f0_edited track6 = Some f0 /\
    track6 = mark_all_dirty track.
Proof.
  apply (undo_twice_redo_twice Vectors.linear_interp Vectors.editor
           Vectors.after_first_stroke Vectors.after_second_stroke
           LeftButton 1 (Some 70%Q) [(2, Some 71%Q)] RightButton 3 (Some 50%Q) []).
  - exists Vectors.lead. repeat split; [eexists; reflexivity|simpl; lia].
  - discriminate.
  - discriminate.
  - vm_compute. reflexivity.
  - vm_compute. reflexivity.
Defined.

Lemma undo_redo_empty_stack_witness :
  (exists g',
     undo Vectors.editor = Ok g' /\ status_label g' = "没有可撤销的操作" /\
     tracks g' = tracks Vectors.editor) /\
  (exists g',
     redo Vectors.editor = Ok g' /\ status_label g' = "没有可重做的操作" /\
     tracks g' = tracks Vectors.editor).
Proof.
  destruct (undo_redo_empty_stack Vectors.editor Vectors.lead eq_refl)
    as (Hundo & Hredo).
  split.
  - destruct (Hundo eq_refl) as (g' & H1 & H2 & _ & _ & _ & H3).
    exists g'. split; [exact H1|]. split; [exact (H3 eq_refl)|exact H2].
  - destruct (Hredo eq_refl) as (g' & H1 & H2 & _ & _ & _ & H3).
    exists g'. split; [exact H1|]. split; [exact (H3 eq_refl)|exact H2].
Defined.

End EditorFacts.

(** ** Mixer *)

Module MixerFacts.

Import Segmenter Editor.

Section WithSamples.
Context {F : Type}.
Variables (zero : F) (add mul : F -> F -> F).

Implicit Types (g : GUI F) (track : Track F).

(** *** Who takes part *)








(** *** The length of the mix *)

Lemma mix_max_len_from hop (active : list (Track F)) acc :
  acc <=
  fold_left
    (fun max_len track =>
       match synthesized_audio track with
       | Some audio =>
           let start_sample := start_frame track * hop in
           let end_sample := start_sample + Py.len audio in
           Z.max max_len end_sample
       | None => max_len
       end)
    active acc.
Proof.
  revert acc. induction active as [|t active IH]; intros acc; simpl; [lia|].
  destruct (synthesized_audio t); [|apply IH].
  etransitivity; [|apply IH]. lia.
Qed.

Lemma mix_max_len_nonneg hop (active : list (Track F)) :
  0 <= mix_max_len hop active.
Proof. apply mix_max_len_from. Qed.

Lemma mix_max_len_silent hop (active : list (Track F)) :
  (forall t, In t active -> synthesized_audio t = None) ->
  mix_max_len hop active = 0.
Proof.
  unfold mix_max_len. generalize 0.
  induction active as [|t active IH]; intros acc H; simpl; [reflexivity|].
  rewrite (H t) by (left; reflexivity).
  apply IH. intros t' Hin. apply H. right. exact Hin.
Qed.

Lemma slice_index_range n k : 0 <= n -> 0 <= Py.slice_index n k <= n.
Proof. intros Hn. unfold Py.slice_index. destruct (Z.ltb_spec k 0); lia. Qed.

(** An in-place addition on a slice keeps the length of the buffer. *)
Lemma length_slice_iadd (mixed : list F) a b rhs mixed' :
  slice_iadd add mixed a b rhs = Ok mixed' -> length mixed' = length mixed.
Proof.
  unfold slice_iadd.
  pose proof (slice_index_range (Py.len mixed) a (PyFacts.len_nonneg _)) as Ha.
  pose proof (slice_index_range (Py.len mixed) b (PyFacts.len_nonneg _)) as Hb.
  set (a' := Z.to_nat (Py.slice_index (Py.len mixed) a)) in *.
  set (w := Z.to_nat (Py.slice_index (Py.len mixed) b
                      - Py.slice_index (Py.len mixed) a)) in *.
  assert (Hw : (a' + w <= length mixed)%nat).
  { unfold a', w, Py.len in *. lia. }
  assert (Hview : length (take w (drop a' mixed)) = w).
  { rewrite length_take, length_drop. lia. }
  destruct (Z.eqb_spec (Py.len rhs) (Z.of_nat w)) as [Hr|Hr].
  - simpl. intros [= <-]. rewrite !length_app, length_zip_with, Hview.
    rewrite length_take, length_drop. unfold Py.len in Hr. lia.
  - destruct rhs as [|v [|? ?]]; simpl; try discriminate.
    intros [= <-]. rewrite !length_app, length_map, Hview.
    rewrite length_take, length_drop. lia.
Qed.

Lemma length_mix_into hop (active : list (Track F)) : forall mixed mixed',
  mix_into add mul hop active mixed = Ok mixed' -> length mixed' = length mixed.
Proof.
  induction active as [|t active IH]; intros mixed mixed' H; simpl in H.
  - injection H as <-. reflexivity.
  - destruct (synthesized_audio t) as [audio|]; [|apply IH; exact H].
    destruct (slice_iadd add mixed (start_frame t * hop)
                (start_frame t * hop + Py.len audio)
                (map (fun s => mul s (volume t)) audio)) as [m1|e] eqn:E;
      [|discriminate].
    simpl in H. rewrite (IH _ _ H). eapply length_slice_iadd. exact E.
Qed.

(** *** The mix of a single participant *)




(** C10.  [mix_tracks] gives "no output" when no track takes part, and
    also when none of the participants has synthesized audio; a buffer it
    returns is never empty. *)
Theorem mix_no_output g :
  (active_tracks (tracks g) = [] -> mix_tracks zero add mul g = Ok None) /\
  ((forall t, In t (active_tracks (tracks g)) -> synthesized_audio t = None) ->
   mix_tracks zero add mul g = Ok None) /\
  (forall mixed_audio,
     mix_tracks zero add mul g = Ok (Some mixed_audio) -> 0 < Py.len mixed_audio).
Proof.
  split; [|split].
  - intros H. unfold mix_tracks. rewrite H. reflexivity.
  - intros H. unfold mix_tracks.
    destruct (active_tracks (tracks g)) as [|t ts] eqn:E; [reflexivity|].
    rewrite (mix_max_len_silent _ _ H). reflexivity.
  - intros mixed_audio. unfold mix_tracks.
    destruct (active_tracks (tracks g)) as [|t ts] eqn:E; [discriminate|].
    pose proof (mix_max_len_nonneg (hop_size g) (t :: ts)) as Hn.
    destruct (Z.eqb_spec (mix_max_len (hop_size g) (t :: ts)) 0) as [?|Hne];
      [discriminate|].
    destruct (mix_into add mul (hop_size g) (t :: ts)
                (replicate (Z.to_nat (mix_max_len (hop_size g) (t :: ts))) zero))
      as [m|e] eqn:Hm; [|discriminate].
    simpl. intros [= <-]. apply length_mix_into in Hm.
    unfold Py.len. rewrite Hm, length_replicate. lia.
Qed.

End WithSamples.


Lemma mix_no_output_witness :
  mix_tracks 0 Z.add Z.mul Vectors.unsynthesized = Ok None.
Proof.
  destruct (mix_no_output 0 Z.add Z.mul Vectors.unsynthesized) as (_ & H & _).
  apply H. intros t [<-|[]]. reflexivity.
Defined.

End MixerFacts.

(** ** Opening a project *)

Module ProjectFacts.

Import Segmenter Editor Arrangement.

Section WithSamples.
Context {F : Type}.
Variables (zero one : F).

(** A freshly loaded track: the edited curve is a copy of the extracted
    one, and every segment is dirty with no cached audio. *)
Lemma load_seeds (track : Track F) f0_midi segs :
  f0_original (load track f0_midi segs) = Some f0_midi /\
  f0_edited (load track f0_midi segs) = Some f0_midi /\
  segments (load track f0_midi segs) = segs /\
  length (segment_states (load track f0_midi segs)) = length segs.
Proof. repeat split. simpl. apply length_map. Qed.

(** In a record of the current format, a saved curve shorter than the
    loaded one replaces the first frames of [f0_edited] only. *)
Lemma restore_track_prefix t_data (track : Track F) saved_f0 f0 :
  td_f0 t_data = Some saved_f0 ->
  f0_original track = Some f0 -> f0_edited track = Some f0 ->
  Py.len saved_f0 < Py.len f0 ->
  f0_edited (restore_track zero one t_data track)
  = Some (saved_f0 ++ drop (length saved_f0) f0) /\
  f0_original (restore_track zero one t_data track) = Some f0.
Proof.
  intros Hsaved Horig Hedit Hshort.
  assert (Hlen : (length saved_f0 < length f0)%nat) by (unfold Py.len in *; lia).
  split.
  - unfold restore_track. cbn [f0_edited]. rewrite Hsaved, Hedit.
    cbn [f0_edited mark_all_dirty with_segment_states with_f0_edited with_history].
    f_equal.
    replace (Z.min (Py.len saved_f0) (Py.len f0)) with (Py.len saved_f0) by lia.
    pose proof (PyFacts.len_nonneg saved_f0) as Hnn.
    rewrite PyFacts.slice_to_inside by lia.
    rewrite PyFacts.slice_from_inside by lia.
    unfold Py.len. rewrite Nat2Z.id, firstn_all. reflexivity.
  - unfold restore_track. cbn [f0_edited]. rewrite Hsaved, Hedit. exact Horig.
Qed.

(** In a v1.0 project, a saved curve is all or nothing. *)
Lemma restore_legacy_curve saved_f0 shift (track : Track F) f0 :
  f0_edited track = Some f0 ->
  exists track',
    restore_legacy (Some saved_f0) shift track = Ok track' /\
    f0_original track' = f0_original track /\
    segment_states track' = segment_states track /\
    f0_edited track' =
      Some (if Py.len saved_f0 =? Py.len f0 then saved_f0 else f0).
Proof.
  intros Hedit. unfold restore_legacy. rewrite Hedit. cbn [mbind res_bind].
  eexists. split; [reflexivity|].
  destruct (Py.len saved_f0 =? Py.len f0), shift; cbn; auto.
Qed.

(** C9 (as amended).  When a project in the current format (a list of
    track records) is opened, a saved pitch curve shorter than the curve
    of the loaded track replaces the first frames of [f0_edited] only, and
    every later frame keeps the value just extracted from the audio.  When
    a v1.0 project (one recording) is opened, a saved curve of another
    length than the extracted one is not applied at all. *)
Theorem open_project_shorter_curve (track : Track F) saved_f0 f0 :
  f0_original track = Some f0 -> f0_edited track = Some f0 ->
  Py.len saved_f0 < Py.len f0 ->
  (forall records (i : nat) t_data,
     records !! i = Some (t_data, track) -> td_f0 t_data = Some saved_f0 ->
     exists tracks track' f0',
       open_project zero one (CurrentFormat records) = Ok tracks /\
       tracks !! i = Some track' /\
       f0_edited track' = Some f0' /\ f0_original track' = Some f0 /\
       f0' = saved_f0 ++ drop (length saved_f0) f0 /\
       length f0' = length f0 /\
       (forall k : nat, (k < length saved_f0)%nat -> f0' !! k = saved_f0 !! k) /\
       (forall k : nat, (length saved_f0 <= k)%nat -> f0' !! k = f0 !! k)) /\
  (forall shift,
     exists track',
       open_project zero one (LegacyFormat (Some saved_f0) shift track)
       = Ok [track'] /\
       f0_edited track' = Some f0 /\ f0_original track' = Some f0 /\
       segment_states track' = segment_states track).
Proof.
  intros Horig Hedit Hshort.
  assert (Hlen : (length saved_f0 < length f0)%nat) by (unfold Py.len in *; lia).
  split.
  - intros records i t_data Hi Hsaved.
    destruct (restore_track_prefix t_data track saved_f0 f0 Hsaved Horig Hedit
                Hshort) as (Hf & Ho).
    eexists. exists (restore_track zero one t_data track).
    exists (saved_f0 ++ drop (length saved_f0) f0).
    split; [reflexivity|]. split.
    { rewrite PyFacts.lookup_map, Hi. reflexivity. }
    split; [exact Hf|]. split; [exact Ho|]. split; [reflexivity|]. split.
    { rewrite length_app, length_drop. lia. }
    split.
    + intros k Hk. apply lookup_app_l. exact Hk.
    + intros k Hk. rewrite lookup_app_r by exact Hk. rewrite lookup_drop.
      f_equal. lia.
  - intros shift.
    destruct (restore_legacy_curve saved_f0 shift track f0 Hedit)
      as (track' & Hr & Ho & Hs & Hf).
    exists track'. unfold open_project. rewrite Hr. cbn [mbind res_bind].
    split; [reflexivity|].
    destruct (Z.eqb_spec (Py.len saved_f0) (Py.len f0)) as [He|_]; [lia|].
    split; [exact Hf|]. split; [congruence|exact Hs].
Qed.

End WithSamples.

Lemma open_project_shorter_curve_witness :
  (exists tracks track',
     open_project (Some 0%Q) (Some 1%Q)
       (CurrentFormat
          [(Vectors.saved_lead, load Vectors.lead Vectors.curve [(0, 4)])])
     = Ok tracks /\
     tracks !! 0%nat = Some track' /\
     f0_edited track' = Some [Some 70%Q; Some 71%Q; None; Some 64%Q]) /\
  (exists track',
     open_project (Some 0%Q) (Some 1%Q)
       (LegacyFormat (Some [Some 70%Q; Some 71%Q]) None
          (load Vectors.lead Vectors.curve [(0, 4)]))
     = Ok [track'] /\
     f0_edited track' = Some Vectors.curve).
Proof.
  destruct (open_project_shorter_curve (Some 0%Q) (Some 1%Q)
              (load Vectors.lead Vectors.curve [(0, 4)])
              [Some 70%Q; Some 71%Q] Vectors.curve eq_refl eq_refl)
    as (Hcurrent & Hlegacy).
  - unfold Py.len. simpl. lia.
  - split.
    + destruct (Hcurrent
                  [(Vectors.saved_lead, load Vectors.lead Vectors.curve [(0, 4)])]
                  0%nat Vectors.saved_lead eq_refl eq_refl)
        as (tracks & track' & f0' & Ho & Hi & Hf & _ & Heq & _).
      exists tracks, track'. split; [exact Ho|]. split; [exact Hi|].
      rewrite Hf, Heq. reflexivity.
    + destruct (Hlegacy None) as (track' & Ho & Hf & _).
      exists track'. split; [exact Ho|exact Hf].
Defined.

(** C9 (as stated) fails: opening a v1.0 project whose saved curve has two
    frames, for a recording of four, leaves the extracted curve as it is;
    the two saved values are not applied to the first two frames. *)
Lemma legacy_project_drops_shorter_curve :
  exists track',
    open_project (Some 0%Q) (Some 1%Q)
      (LegacyFormat (Some [Some 70%Q; Some 71%Q]) None
         (load Vectors.lead Vectors.curve [(0, 4)]))
    = Ok [track'] /\
    f0_edited track' = Some Vectors.curve /\
    f0_edited track'
    <> Some ([Some 70%Q; Some 71%Q] ++ drop 2 Vectors.curve).
Proof.
  eexists. split; [reflexivity|]. split; [reflexivity|]. discriminate.
Qed.

End ProjectFacts.

(** ** Segmenter: what the segments reach *)

Module SegmenterReach.

Import Segmenter SegmenterFacts.

(** With a frame above the threshold, the segments are the maximal runs of
    the dilated mask. *)
Lemma segment_audio_runs energy_db threshold_db m mx :
  np_max energy_db = Some mx -> 1 < Py.len energy_db -> 0 < m ->
  In true (is_speech energy_db mx threshold_db) ->
  let dilated := binary_dilation (is_speech energy_db mx threshold_db) m in
  _segment_audio energy_db threshold_db m = Some (find_segments dilated) /\
  separated 0 (find_segments dilated) /\
  forall i, covered i (find_segments dilated) <-> mask_at dilated i = true.
Proof.
  intros Hmx Hlen Hm Hin dilated.
  destruct (In_mask_at _ Hin) as (k & Hk).
  apply (binary_dilation_extensive _ m) in Hk; [|exact Hm]. fold dilated in Hk.
  destruct (find_segments_spec dilated) as (Hsep & Hend & Hcov).
  split; [|split; [exact Hsep|]].
  - unfold _segment_audio. rewrite Hmx.
    destruct (Z.leb_spec m 0) as [?|_]; [lia|].
    destruct (Z.eqb_spec (Py.len energy_db) 1) as [?|_]; [lia|].
    cbn [orb]. fold dilated. rewrite (segments_of_mask_active _ _ Hk). reflexivity.
  - intros i. split.
    + intros Hc. apply Hcov; [|exact Hc].
      destruct Hc as (sg & Hsg & Hi). unfold in_seg in Hi.
      apply find_segments_range in Hsg. lia.
    + intros Hi. apply Hcov; [|exact Hi]. apply mask_at_true_range in Hi. lia.
Qed.

(** X1.  When some frame is above the threshold, a frame belongs to a
    segment exactly when a frame above the threshold lies in the dilation
    window around it, from [m - 1 - m // 2] frames before it to [m // 2]
    frames after it. *)
Theorem segments_reach_speech energy_db threshold_db m mx :
  np_max energy_db = Some mx -> 1 < Py.len energy_db -> 0 < m ->
  In true (is_speech energy_db mx threshold_db) ->
  exists segs,
    _segment_audio energy_db threshold_db m = Some segs /\
    forall i,
      covered i segs <->
      0 <= i < Py.len energy_db /\
      exists k, i - (m - 1 - m / 2) <= k <= i + m / 2 /\
                mask_at (is_speech energy_db mx threshold_db) k = true.
Proof.
  intros Hmx Hlen Hm Hin.
  destruct (segment_audio_runs _ _ _ _ Hmx Hlen Hm Hin) as (Hseg & _ & Hcov).
  eexists. split; [exact Hseg|]. intros i. rewrite Hcov.
  set (speech := is_speech energy_db mx threshold_db).
  assert (Hn : Py.len (binary_dilation speech m) = Py.len energy_db).
  { unfold Py.len, speech. rewrite length_binary_dilation, length_is_speech.
    reflexivity. }
  assert (Hsl : Py.len speech = Py.len energy_db).
  { unfold Py.len, speech. rewrite length_is_speech. reflexivity. }
  split.
  - intros Hi. pose proof (mask_at_true_range _ _ Hi) as Hr. rewrite Hn in Hr.
    split; [exact Hr|].
    rewrite mask_at_binary_dilation in Hi by (rewrite Hsl; exact Hr).
    apply window_any_true in Hi as (k & Hk & Hs). exists k. split; [lia|exact Hs].
  - intros (Hr & k & Hk & Hs).
    rewrite mask_at_binary_dilation by (rewrite Hsl; exact Hr).
    apply window_any_true. exists k. split; [lia|exact Hs].
Qed.

Lemma segments_reach_speech_witness :
  exists segs,
    _segment_audio Vectors.one_loud_frame (-60)%Q 100 = Some segs /\
    forall i,
      covered i segs <->
      0 <= i < Py.len Vectors.one_loud_frame /\
      exists k, i - (100 - 1 - 100 / 2) <= k <= i + 100 / 2 /\
                mask_at (is_speech Vectors.one_loud_frame 0%Q (-60)%Q) k = true.
Proof.
  apply (segments_reach_speech Vectors.one_loud_frame (-60)%Q 100 0%Q).
  - reflexivity.
  - reflexivity.
  - lia.
  - left. reflexivity.
Defined.

(** Two neighbouring covered frames lie in the same segment. *)
Lemma separated_next lo segs sg i :
  separated lo segs -> In sg segs -> in_seg i sg ->
  covered (i + 1) segs -> in_seg (i + 1) sg.
Proof.
  intros Hsep Hin Hi (sg' & Hin' & Hi').
  apply list_elem_of_In, list_elem_of_lookup in Hin as (a & Ha).
  apply list_elem_of_In, list_elem_of_lookup in Hin' as (b & Hb).
  unfold in_seg in *.
  destruct (Nat.lt_total a b) as [Hlt|[Heq|Hgt]].
  - pose proof (separated_ordered _ _ _ _ _ _ Hsep Hlt Ha Hb). lia.
  - subst b. rewrite Ha in Hb. injection Hb as <-. exact Hi'.
  - pose proof (separated_ordered _ _ _ _ _ _ Hsep Hgt Hb Ha). lia.
Qed.

Lemma separated_stretch lo segs sg a (d : nat) :
  separated lo segs -> In sg segs -> in_seg a sg ->
  (forall i, a <= i <= a + Z.of_nat d -> covered i segs) ->
  in_seg (a + Z.of_nat d) sg.
Proof.
  intros Hsep Hin Ha. induction d as [|d IH]; intros Hcov.
  - replace (a + Z.of_nat 0) with a by lia. exact Ha.
  - replace (a + Z.of_nat (S d)) with (a + Z.of_nat d + 1) by lia.
    eapply separated_next; [exact Hsep|exact Hin| |].
    + apply IH. intros i Hi. apply Hcov. lia.
    + apply Hcov. lia.
Qed.

(** X2.  Two frames above the threshold that are at most
    [min_silence_frames] apart lie in one and the same segment: the
    silence between them is filled. *)
Theorem close_speech_frames_merge energy_db threshold_db m mx a b :
  np_max energy_db = Some mx -> 0 < m ->
  mask_at (is_speech energy_db mx threshold_db) a = true ->
  mask_at (is_speech energy_db mx threshold_db) b = true ->
  a < b <= a + m ->
  exists segs sg,
    _segment_audio energy_db threshold_db m = Some segs /\
    In sg segs /\ in_seg a sg /\ in_seg b sg.
Proof.
  intros Hmx Hm Ha Hb Hab.
  set (speech := is_speech energy_db mx threshold_db) in *.
  pose proof (mask_at_true_range _ _ Ha) as Hra.
  pose proof (mask_at_true_range _ _ Hb) as Hrb.
  assert (Hsl : Py.len speech = Py.len energy_db).
  { unfold Py.len, speech. rewrite length_is_speech. reflexivity. }
  assert (Hlen : 1 < Py.len energy_db) by lia.
  destruct (segment_audio_runs _ _ _ _ Hmx Hlen Hm (mask_at_In _ _ Ha))
    as (Hseg & Hsep & Hcov).
  fold speech in Hseg, Hsep, Hcov.
  assert (Hhalf : 0 <= m / 2 <= m - 1).
  { split; [apply Z.div_pos; lia|]. apply Z.lt_le_pred, Z.div_lt; lia. }
  assert (Hall : forall i, a <= i <= b ->
            covered i (find_segments (binary_dilation speech m))).
  { intros i Hi. apply Hcov.
    rewrite mask_at_binary_dilation by lia. apply window_any_true.
    destruct (Z.le_gt_cases (i - a) (m - 1 - m / 2)).
    - exists a. split; [lia|exact Ha].
    - exists b. split; [lia|exact Hb]. }
  destruct (Hall a ltac:(lia)) as (sg & Hin & Hia).
  exists (find_segments (binary_dilation speech m)), sg.
  split; [exact Hseg|]. split; [exact Hin|]. split; [exact Hia|].
  replace b with (a + Z.of_nat (Z.to_nat (b - a))) by lia.
  eapply separated_stretch; [exact Hsep|exact Hin|exact Hia|].
  intros i Hi. apply Hall. lia.
Qed.

Lemma close_speech_frames_merge_witness :
  exists segs sg,
    _segment_audio Vectors.two_bursts (-60)%Q 4 = Some segs /\
    In sg segs /\ in_seg 0 sg /\ in_seg 4 sg.
Proof.
  apply (close_speech_frames_merge Vectors.two_bursts (-60)%Q 4 0%Q 0 4).
  - reflexivity.
  - lia.
  - reflexivity.
  - reflexivity.
  - lia.
Defined.

(** X3.  Under a negative threshold, as the default of -60 dB, the loudest
    frame always counts as speech: the segments are the runs of the dilated
    mask, the whole-track fallback is never taken, and the loudest frame
    lies in a segment. *)
Theorem negative_threshold_covers_loudest energy_db threshold_db m mx :
  np_max energy_db = Some mx -> 1 < Py.len energy_db -> 0 < m ->
  (threshold_db < 0)%Q ->
  exists segs (i : nat),
    _segment_audio energy_db threshold_db m = Some segs /\
    energy_db !! i = Some mx /\
    covered (Z.of_nat i) segs /\
    forall j,
      covered j segs <->
      mask_at (binary_dilation (is_speech energy_db mx threshold_db) m) j = true.
Proof.
  intros Hmx Hlen Hm Hthr.
  pose proof (loudest_frame_is_speech _ _ _ Hmx Hthr) as Hin.
  destruct (segment_audio_runs _ _ _ _ Hmx Hlen Hm Hin) as (Hseg & _ & Hcov).
  assert (Hloud : In mx energy_db).
  { destruct energy_db as [|e rest]; [discriminate|].
    injection Hmx as <-. apply fold_Qmax_In. }
  apply list_elem_of_In, list_elem_of_lookup in Hloud as (i & Hi).
  eexists. exists i. split; [exact Hseg|]. split; [exact Hi|].
  split; [|exact Hcov].
  apply Hcov. apply binary_dilation_extensive; [exact Hm|].
  unfold mask_at. destruct (Z.ltb_spec (Z.of_nat i) 0); [lia|].
  rewrite Nat2Z.id. unfold is_speech.
  rewrite (nth_indep _ false (Qgtb (mx - mx) threshold_db))
    by (rewrite length_map; eapply lookup_lt_Some; exact Hi).
  rewrite (map_nth (fun e => Qgtb (e - mx) threshold_db)).
  rewrite (nth_lookup_Some _ _ _ _ Hi).
  unfold Qgtb. apply negb_true_iff.
  destruct (Qle_bool (mx - mx) threshold_db) eqn:E; [|reflexivity].
  apply Qle_bool_iff in E.
  assert (mx - mx == 0)%Q as H0 by ring.
  rewrite H0 in E. exfalso. exact (Qlt_not_le _ _ Hthr E).
Qed.

Lemma negative_threshold_covers_loudest_witness :
  exists segs (i : nat),
    _segment_audio Vectors.one_loud_frame (-60)%Q 100 = Some segs /\
    Vectors.one_loud_frame !! i = Some 0%Q /\
    covered (Z.of_nat i) segs.
Proof.
  destruct (negative_threshold_covers_loudest Vectors.one_loud_frame
              (-60)%Q 100 0%Q)
    as (segs & i & H1 & H2 & H3 & _).
  - reflexivity.
  - reflexivity.
  - lia.
  - reflexivity.
  - exists segs, i. auto.
Defined.

End SegmenterReach.

(** ** PaddedSynthesizer: alignment, errors and the whole track *)

Module SynthEdge.

Import Synth SynthFacts.

Section WithSamples.
Context {F M : Type}.
Variables (nan zero : F) (isnan : F -> bool) (midi_to_hz : F -> F).

(** X4.  For a segment inside the track the vocoder is called on a mel
    window and a pitch curve of the same number of frames, whatever the
    length of the pitch slice given. *)
Theorem vocoder_inputs_aligned (self : AudioProcessor F M) Gforward mel
    start end_ (f0 : list F) :
  model self = Some Gforward ->
  0 <= start <= end_ -> end_ <= Py.len mel ->
  let mel_slice :=
    Py.slice mel (Z.max 0 (start - 64)) (Z.min (Py.len mel) (end_ + 64)) in
  exists f0_hz,
    Py.len f0_hz = Py.len mel_slice /\
    synthesize_segment nan zero isnan midi_to_hz self mel (start, end_) f0 =
    match Gforward mel_slice f0_hz with
    | Ok audio_padded =>
        match config self with
        | None => Raise KeyError
        | Some hop_size =>
            Ok (trim_audio audio_padded (start - Z.max 0 (start - 64))
                  (Z.min (Py.len mel) (end_ + 64) - end_) hop_size)
        end
    | Raise e => Raise e
    end.
Proof.
  intros Hm Hseg Hend mel_slice.
  destruct (vocoder_f0_ok nan zero isnan midi_to_hz (Py.len mel) start end_ f0
              Hseg Hend) as (f0' & _ & _ & Hv & Hlen).
  eexists. split.
  - rewrite (Hlen _ Hv). unfold mel_slice.
    rewrite PyFacts.len_slice by lia. reflexivity.
  - apply synthesize_segment_unfold; assumption.
Qed.

(** X5.  A segment that starts before the track or ends after it is
    refused with [ValueError] by [np.pad], before the vocoder is called. *)
Theorem segment_outside_track_raises (self : AudioProcessor F M) Gforward mel
    start end_ (f0 : list F) :
  model self = Some Gforward ->
  start < 0 \/ Py.len mel < end_ ->
  synthesize_segment nan zero isnan midi_to_hz self mel (start, end_) f0
  = Raise ValueError.
Proof.
  intros Hm Hout. unfold synthesize_segment. rewrite Hm.
  unfold vocoder_f0, padded_range, pad_frames.
  assert (Hnorm : exists f0', normalize_f0 nan f0 (end_ - start) = Ok f0').
  { unfold normalize_f0.
    destruct (negb (Py.len f0 =? end_ - start)); [|eauto].
    destruct (Z.ltb_spec (Py.len f0) (end_ - start)); [|eauto].
    unfold np_pad. destruct (Z.ltb_spec 0 0); [lia|].
    destruct (Z.ltb_spec (end_ - start - Py.len f0) 0); [lia|]. eauto. }
  destruct Hnorm as (f0' & ->). cbn [mbind res_bind].
  unfold np_pad.
  pose proof (PyFacts.len_nonneg mel).
  destruct (Z.ltb_spec (start - Z.max 0 (start - 64)) 0);
    destruct (Z.ltb_spec (Z.min (Py.len mel) (end_ + 64) - end_) 0);
    try reflexivity; lia.
Qed.

(** X6.  The pitch curve that reaches the vocoder, frame by frame: it has
    one value per frame of the padded window; the frames of the segment
    carry the pitches of the slice, converted to Hz (a NaN pitch as 0 Hz);
    the frames of context before and after the segment, and the frames
    that a too short slice leaves open, are unvoiced, at 0 Hz. *)
Theorem context_frames_unvoiced total start end_ (f0 : list F) :
  isnan nan = true ->
  0 <= start <= end_ -> end_ <= total ->
  let pre_pad := start - Z.max 0 (start - 64) in
  exists f0_hz,
    vocoder_f0 nan zero isnan midi_to_hz total (start, end_) f0 = Ok f0_hz /\
    Py.len f0_hz = Z.min total (end_ + 64) - Z.max 0 (start - 64) /\
    (forall (j : nat) p,
       f0 !! j = Some p -> Z.of_nat j < end_ - start ->
       f0_hz !! (Z.to_nat pre_pad + j)%nat
       = Some (if isnan p then zero else midi_to_hz p)) /\
    (forall i : nat,
       (i < length f0_hz)%nat ->
       Z.of_nat i < pre_pad \/
       pre_pad + Z.min (Py.len f0) (end_ - start) <= Z.of_nat i ->
       f0_hz !! i = Some zero).
Proof.
  intros Hnan Hseg Hend pre_pad.
  destruct (normalize_f0_cases nan f0 (end_ - start))
    as (f0' & Hn & Hlen & Hlong & Hshort & Hsame); [lia|].
  destruct (vocoder_f0_ok nan zero isnan midi_to_hz total start end_ f0 Hseg Hend)
    as (f0'' & Hn' & _ & Hv & Hlenv).
  rewrite Hn in Hn'. injection Hn' as <-.
  eexists. split; [exact Hv|]. split; [exact (Hlenv _ Hv)|].
  unfold pre_pad. clear pre_pad.
  set (pre := Z.to_nat (start - Z.max 0 (start - 64))).
  set (post := Z.to_nat (Z.min total (end_ + 64) - end_)).
  assert (Hpre : Z.of_nat pre = start - Z.max 0 (start - 64))
    by (unfold pre; lia).
  rewrite <- Hpre.
  split.
  - intros j p Hj Hin. unfold f0_to_hz.
    rewrite PyFacts.lookup_map.
    rewrite lookup_app_r by (rewrite length_replicate; lia).
    rewrite length_replicate.
    replace (pre + j - pre)%nat with j by lia.
    assert (Hj' : f0' !! j = Some p).
    { pose proof (lookup_lt_Some _ _ _ Hj) as Hjl.
      destruct (Z.lt_trichotomy (Py.len f0) (end_ - start)) as [Hs|[He|Hl]].
      - rewrite (Hshort Hs). rewrite lookup_app_l by exact Hjl. exact Hj.
      - rewrite (Hsame He). exact Hj.
      - rewrite (Hlong Hl). rewrite lookup_take_lt by lia. exact Hj. }
    rewrite lookup_app_l by (eapply lookup_lt_Some; exact Hj').
    rewrite Hj'. reflexivity.
  - intros i Hi Hwhere. unfold f0_to_hz in *.
    rewrite length_map in Hi.
    assert (Hnanat :
      (replicate pre nan ++ f0' ++ replicate post nan) !! i = Some nan).
    { destruct (Nat.lt_ge_cases i pre) as [Hlt|Hge].
      - rewrite lookup_app_l by (rewrite length_replicate; exact Hlt).
        apply lookup_replicate_2. exact Hlt.
      - rewrite lookup_app_r by (rewrite length_replicate; exact Hge).
        rewrite length_replicate.
        destruct Hwhere as [Hw|Hw]; [lia|].
        destruct (Z.lt_ge_cases (Py.len f0) (end_ - start)) as [Hs|Hl].
        + rewrite (Hshort Hs).
          rewrite !length_app, !length_replicate in Hi.
          rewrite (Hshort Hs), length_app, length_replicate in Hi.
          unfold Py.len in *.
          rewrite <- app_assoc.
          rewrite lookup_app_r by lia.
          rewrite <- replicate_add. apply lookup_replicate_2.
          unfold post in *. lia.
        + rewrite !length_app, !length_replicate in Hi.
          unfold Py.len in *.
          rewrite lookup_app_r by lia.
          apply lookup_replicate_2. unfold post in *. lia. }
    rewrite PyFacts.lookup_map, Hnanat. simpl. rewrite Hnan. reflexivity.
Qed.

(** X7.  Synthesizing the segment that spans the whole track, with a pitch
    curve of the track's length, is the whole-track [synthesize]: nothing
    is padded and nothing is trimmed. *)
Theorem whole_track_segment (self : AudioProcessor F M) hop mel (f0 : list F) :
  config self = Some hop ->
  Py.len f0 = Py.len mel ->
  synthesize_segment nan zero isnan midi_to_hz self mel (0, Py.len mel) f0
  = synthesize zero isnan midi_to_hz self mel f0.
Proof.
  intros Hc Hlen. unfold synthesize.
  destruct (model self) as [Gforward|] eqn:Hm.
  2:{ unfold synthesize_segment. rewrite Hm. reflexivity. }
  pose proof (PyFacts.len_nonneg mel) as Hnn.
  destruct (normalize_f0_cases nan f0 (Py.len mel - 0))
    as (f0' & Hn & _ & _ & _ & Hsame); [lia|].
  rewrite (Hsame ltac:(lia)) in Hn.
  destruct (vocoder_f0_ok nan zero isnan midi_to_hz (Py.len mel) 0 (Py.len mel) f0)
    as (f0'' & Hn' & _ & Hv & _); [lia|lia|].
  rewrite Hn in Hn'. injection Hn' as <-.
  rewrite (synthesize_segment_unfold nan zero isnan midi_to_hz
             self Gforward mel 0 (Py.len mel) f0 _ Hm Hv).
  replace (Z.max 0 (0 - 64)) with 0 by lia.
  replace (Z.min (Py.len mel) (Py.len mel + 64)) with (Py.len mel) by lia.
  replace (Py.len mel - Py.len mel) with 0 by lia.
  replace (Z.to_nat (0 - 0)) with 0%nat by lia.
  cbn [replicate app]. rewrite app_nil_r.
  assert (Hmel : Py.slice mel 0 (Py.len mel) = mel).
  { rewrite PyFacts.slice_inside by lia. rewrite Z.sub_0_r. cbn [Z.to_nat drop].
    apply take_ge. unfold Py.len. lia. }
  rewrite Hmel.
  destruct (Gforward mel (f0_to_hz zero isnan midi_to_hz f0)) as [audio|e];
    [|reflexivity].
  rewrite Hc. f_equal. unfold trim_audio.
  pose proof (PyFacts.len_nonneg audio) as Hna.
  match goal with
  | |- (if ?te <=? ?ts then _ else _) = _ =>
      replace te with (Py.len audio) by lia; replace ts with 0 by lia
  end.
  destruct (Z.leb_spec (Py.len audio) 0); [reflexivity|].
  rewrite PyFacts.slice_inside by lia. rewrite Z.sub_0_r. cbn [Z.to_nat drop].
  apply take_ge. unfold Py.len. lia.
Qed.

(** X8.  Converting a frequency curve to pitch and back works frame by
    frame and keeps the length of the curve: a voiced frame goes through
    both formulas, a frame without a positive frequency comes out as
    0 Hz. *)
Theorem pitch_conversions_compose (hz_to_midi : F -> F) (positive : F -> bool)
    (f0_np : list F) :
  isnan nan = true ->
  (forall hz, In hz f0_np -> positive hz = true -> isnan (hz_to_midi hz) = false) ->
  f0_to_hz zero isnan midi_to_hz (f0_to_midi nan hz_to_midi positive f0_np)
  = map (fun hz => if positive hz then midi_to_hz (hz_to_midi hz) else zero)
      f0_np.
Proof.
  intros Hnan Hfinite. unfold f0_to_hz, f0_to_midi. rewrite map_map.
  apply map_ext_in. intros hz Hin.
  destruct (positive hz) eqn:Hp.
  - rewrite (Hfinite hz Hin Hp). reflexivity.
  - rewrite Hnan. reflexivity.
Qed.

End WithSamples.

Lemma vocoder_inputs_aligned_witness :
  exists f0_hz : list Vectors.pitch,
    Py.len f0_hz
    = Py.len (Py.slice Vectors.mel_1000 (Z.max 0 (10 - 64))
                (Z.min (Py.len Vectors.mel_1000) (20 + 64))).
Proof.
  destruct (vocoder_inputs_aligned None (Some 0%Q) Vectors.pitch_isnan id
              Vectors.loaded_processor (Vectors.silent_vocoder 4)
              Vectors.mel_1000 10 20 [Some 60%Q])
    as (f0_hz & Hlen & _).
  - reflexivity.
  - lia.
  - unfold Vectors.mel_1000. rewrite PyFacts.len_replicate. lia.
  - exists f0_hz. exact Hlen.
Defined.

Lemma segment_outside_track_raises_witness :
  synthesize_segment None (Some 0%Q) Vectors.pitch_isnan id
    Vectors.loaded_processor Vectors.mel_1000 (990, 1001) []
  = Raise ValueError.
Proof.
  apply (segment_outside_track_raises None (Some 0%Q) Vectors.pitch_isnan id
           Vectors.loaded_processor (Vectors.silent_vocoder 4)).
  - reflexivity.
  - right. unfold Vectors.mel_1000. rewrite PyFacts.len_replicate. lia.
Defined.

Lemma context_frames_unvoiced_witness :
  exists f0_hz : list Vectors.pitch,
    vocoder_f0 None (Some 0%Q) Vectors.pitch_isnan id 1000 (10, 20) [Some 60%Q]
    = Ok f0_hz /\
    Py.len f0_hz = 84 /\
    f0_hz !! 3%nat = Some (Some 0%Q) /\ f0_hz !! 10%nat = Some (Some 60%Q) /\
    f0_hz !! 11%nat = Some (Some 0%Q).
Proof.
  destruct (context_frames_unvoiced None (Some 0%Q) Vectors.pitch_isnan id
              1000 10 20 [Some 60%Q])
    as (f0_hz & Hv & Hlen & Hseg & Hpad).
  - reflexivity.
  - lia.
  - lia.
  - exists f0_hz. split; [exact Hv|]. split; [exact Hlen|].
    assert (Hl : length f0_hz = 84%nat) by (unfold Py.len in Hlen; lia).
    split; [|split].
    + apply Hpad; [rewrite Hl; lia|]. left. lia.
    + apply (Hseg 0%nat (Some 60%Q)); [reflexivity|lia].
    + apply Hpad; [rewrite Hl; lia|]. right. unfold Py.len. simpl. lia.
Defined.

Lemma whole_track_segment_witness :
  synthesize_segment None (Some 0%Q) Vectors.pitch_isnan id
    Vectors.loaded_processor [tt; tt] (0, Py.len [tt; tt]) [Some 60%Q; None]
  = synthesize (Some 0%Q) Vectors.pitch_isnan id Vectors.loaded_processor
      [tt; tt] [Some 60%Q; None].
Proof.
  apply (whole_track_segment None (Some 0%Q) Vectors.pitch_isnan id
           Vectors.loaded_processor 4 [tt; tt] [Some 60%Q; None]).
  - reflexivity.
  - reflexivity.
Defined.

Lemma pitch_conversions_compose_witness :
  f0_to_hz (Some 0%Q) Vectors.pitch_isnan id
    (f0_to_midi None id Vectors.pitch_voiced [Some 440%Q; Some 0%Q])
  = [Some 440%Q; Some 0%Q].
Proof.
  apply (pitch_conversions_compose None (Some 0%Q) Vectors.pitch_isnan id
           id Vectors.pitch_voiced [Some 440%Q; Some 0%Q]).
  - reflexivity.
  - intros hz [<-|[<-|[]]]; [reflexivity|discriminate].
Defined.

End SynthEdge.

(** ** Model configuration *)

Module ConfigFacts.

Import Config.

Section WithValues.
Context {V : Type}.
Variables (float_one : V) (int : Z -> V) (dict : gmap string V -> V).

Implicit Types (config : gmap string V) (k : string).

Lemma setdefault_lookup key v config k :
  setdefault key v config !! k =
  match config !! k with
  | Some w => Some w
  | None => if decide (k = key) then Some v else None
  end.
Proof.
  unfold setdefault. destruct (config !! key) eqn:E.
  - destruct (config !! k) eqn:Ek; [reflexivity|].
    destruct (decide (k = key)); [congruence|reflexivity].
  - rewrite lookup_insert. destruct (decide (key = k)) as [->|Hne].
    + rewrite E. destruct (decide (k = k)); [reflexivity|congruence].
    + destruct (config !! k); [reflexivity|].
      destruct (decide (k = key)); [congruence|reflexivity].
Qed.

Lemma rename_step_lookup config old_key new_key k :
  rename_step config (old_key, new_key) !! k =
  match config !! k with
  | Some w => Some w
  | None => if decide (k = new_key) then config !! old_key else None
  end.
Proof.
  unfold rename_step. destruct (config !! old_key) eqn:Eo.
  - destruct (config !! new_key) eqn:En.
    + destruct (config !! k) eqn:Ek; [reflexivity|].
      destruct (decide (k = new_key)); [congruence|reflexivity].
    + rewrite lookup_insert. destruct (decide (new_key = k)) as [->|Hne].
      * rewrite En. destruct (decide (k = k)); [reflexivity|congruence].
      * destruct (config !! k); [reflexivity|].
        destruct (decide (k = new_key)); [congruence|reflexivity].
  - destruct (config !! k); [reflexivity|].
    destruct (decide (k = new_key)); reflexivity.
Qed.

Lemma rename_all_lookup config k :
  fold_left rename_step key_mapping config !! k =
  match config !! k with
  | Some w => Some w
  | None =>
      if decide (k = "audio_sample_rate") then config !! "sampling_rate"
      else if decide (k = "audio_num_mel_bins") then config !! "num_mels"
      else if decide (k = "fft_size") then config !! "n_fft"
      else None
  end.
Proof.
  unfold key_mapping. cbn [fold_left]. rewrite !rename_step_lookup.
  destruct (config !! k) eqn:Ek; [reflexivity|].
  repeat case_decide; subst; try discriminate; try reflexivity.
  all: repeat (try destruct (config !! _); try reflexivity).
Qed.

(** The collected vocoder arguments are the entries of the configuration
    under the listed keys. *)
Lemma collect_model_args_lookup config k :
  collect_model_args config !! k =
  if decide (k ∈ model_arg_keys) then config !! k else None.
Proof.
  unfold collect_model_args.
  assert (H : forall keys (acc : gmap string V),
    fold_left (fun model_args key =>
       match config !! key with
       | Some v => <[key := v]> model_args
       | None => model_args
       end) keys acc !! k =
    if decide (k ∈ keys)
    then match config !! k with Some v => Some v | None => acc !! k end
    else acc !! k).
  { induction keys as [|key keys IH]; intros acc; simpl.
    - destruct (decide (k ∈ [])) as [H|_]; [inversion H|reflexivity].
    - rewrite IH. destruct (decide (k = key)) as [->|Hne].
      + rewrite (decide_True (P := key ∈ key :: keys)) by left.
        destruct (config !! key) eqn:E.
        * rewrite lookup_insert_eq. destruct (decide (key ∈ keys)); reflexivity.
        * destruct (decide (key ∈ keys)); reflexivity.
      + assert (Hacc : match config !! key with
                       | Some v => <[key:=v]> acc
                       | None => acc
                       end !! k = acc !! k).
        { destruct (config !! key); [|reflexivity].
          apply lookup_insert_ne. congruence. }
        rewrite Hacc.
        destruct (decide (k ∈ keys)) as [Hin|Hnin].
        * rewrite decide_True by (right; exact Hin). reflexivity.
        * rewrite decide_False; [reflexivity|].
          intros Hc. apply elem_of_cons in Hc as [?|?]; tauto. }
  rewrite H, lookup_empty.
  destruct (decide (k ∈ model_arg_keys)); [|reflexivity].
  destruct (config !! k); reflexivity.
Qed.

Lemma model_arg_keys_cases k :
  k ∈ model_arg_keys ->
  k <> "clip_grad_norm" /\ k <> "audio_sample_rate" /\
  k <> "audio_num_mel_bins" /\ k <> "fft_size" /\ k <> "f0_min" /\
  k <> "f0_max" /\ k <> "model_args".
Proof.
  unfold model_arg_keys. intros H.
  repeat (apply elem_of_cons in H as [->|H]; [repeat split; discriminate|]).
  inversion H.
Qed.

(** The configuration just before [model_args] is looked at. *)
Lemma before_model_args_lookup config k :
  setdefault "f0_max" (int 1600)
    (setdefault "f0_min" (int 40)
       (fold_left rename_step key_mapping
          (setdefault "clip_grad_norm" float_one config))) !! k =
  match config !! k with
  | Some w => Some w
  | None =>
      if decide (k = "model_args") then None
      else patch_default float_one int dict config k
  end.
Proof.
  rewrite !setdefault_lookup, rename_all_lookup, !setdefault_lookup.
  unfold patch_default.
  destruct (config !! k) eqn:Ek; [reflexivity|].
  repeat case_decide; subst; try discriminate; try reflexivity.
  all: repeat (first [ rewrite Ek | destruct (config !! _) ]; try reflexivity).
Qed.

Lemma collect_model_args_before config :
  collect_model_args
    (setdefault "f0_max" (int 1600)
       (setdefault "f0_min" (int 40)
          (fold_left rename_step key_mapping
             (setdefault "clip_grad_norm" float_one config))))
  = collect_model_args config.
Proof.
  apply map_eq. intros k. rewrite !collect_model_args_lookup.
  destruct (decide (k ∈ model_arg_keys)) as [Hin|]; [|reflexivity].
  rewrite before_model_args_lookup.
  destruct (model_arg_keys_cases k Hin) as (? & ? & ? & ? & ? & ? & ?).
  destruct (config !! k); [reflexivity|].
  unfold patch_default. repeat case_decide; congruence.
Qed.

(** Every entry of the patched configuration: the entry the configuration
    had, or else the default of the key. *)
Lemma patch_config_lookup config k :
  _patch_config float_one int dict config !! k =
  match config !! k with
  | Some w => Some w
  | None => patch_default float_one int dict config k
  end.
Proof.
  unfold _patch_config.
  set (before := setdefault "f0_max" (int 1600) _).
  assert (Hb : forall k, before !! k =
            match config !! k with
            | Some w => Some w
            | None => if decide (k = "model_args") then None
                      else patch_default float_one int dict config k
            end) by (intros; apply before_model_args_lookup).
  assert (Hc : collect_model_args before = collect_model_args config)
    by apply collect_model_args_before.
  destruct (before !! "model_args") eqn:Em.
  - rewrite Hb. rewrite Hb in Em.
    destruct (config !! k) eqn:Ek; [reflexivity|].
    destruct (decide (k = "model_args")) as [->|]; [|reflexivity].
    rewrite Ek in Em. discriminate.
  - rewrite lookup_insert, Hc. rewrite Hb in Em.
    destruct (decide ("model_args" = k)) as [<-|Hne].
    + destruct (config !! "model_args"); [discriminate|]. reflexivity.
    + rewrite Hb. destruct (config !! k); [reflexivity|].
      rewrite decide_False by congruence. reflexivity.
Qed.

(** X9.  Patching never overwrites or removes an entry of the
    configuration, and adds entries under seven keys only. *)
Theorem patch_config_keeps config :
  (forall k v, config !! k = Some v ->
     _patch_config float_one int dict config !! k = Some v) /\
  (forall k, config !! k = None ->
     is_Some (_patch_config float_one int dict config !! k) ->
     k ∈ ["clip_grad_norm"; "audio_sample_rate"; "audio_num_mel_bins";
          "fft_size"; "f0_min"; "f0_max"; "model_args"]).
Proof.
  split.
  - intros k v Hk. rewrite patch_config_lookup, Hk. reflexivity.
  - intros k Hk [v Hv]. rewrite patch_config_lookup, Hk in Hv.
    unfold patch_default in Hv.
    repeat (case_decide; [subst; set_solver|]). discriminate.
Qed.

(** X10.  After patching, [clip_grad_norm], [f0_min], [f0_max] and
    [model_args] are always present; where the configuration did not have
    them they are [1.0], [40], [1600] and the collected vocoder
    arguments. *)
Theorem patch_config_required config :
  let patched := _patch_config float_one int dict config in
  is_Some (patched !! "clip_grad_norm") /\ is_Some (patched !! "f0_min") /\
  is_Some (patched !! "f0_max") /\ is_Some (patched !! "model_args") /\
  (config !! "clip_grad_norm" = None ->
   patched !! "clip_grad_norm" = Some float_one) /\
  (config !! "f0_min" = None -> patched !! "f0_min" = Some (int 40)) /\
  (config !! "f0_max" = None -> patched !! "f0_max" = Some (int 1600)) /\
  (config !! "model_args" = None ->
   exists model_args,
     patched !! "model_args" = Some (dict model_args) /\
     forall k, model_args !! k =
               if decide (k ∈ model_arg_keys) then config !! k else None).
Proof.
  intros patched. unfold patched. rewrite !patch_config_lookup.
  repeat split.
  - destruct (config !! "clip_grad_norm"); eauto.
  - destruct (config !! "f0_min"); eauto.
  - destruct (config !! "f0_max"); eauto.
  - destruct (config !! "model_args"); eauto.
  - intros ->. reflexivity.
  - intros ->. reflexivity.
  - intros ->. reflexivity.
  - intros ->. eexists. split; [reflexivity|]. apply collect_model_args_lookup.
Qed.

(** X11.  Patching an already patched configuration changes nothing. *)
Theorem patch_config_idempotent config :
  _patch_config float_one int dict (_patch_config float_one int dict config)
  = _patch_config float_one int dict config.
Proof.
  apply map_eq. intros k.
  rewrite (patch_config_lookup (_patch_config float_one int dict config)).
  destruct (_patch_config float_one int dict config !! k) eqn:Ek; [reflexivity|].
  rewrite patch_config_lookup in Ek.
  destruct (config !! k) eqn:Eck; [discriminate|].
  unfold patch_default in *.
  repeat (case_decide; [subst; try discriminate|]); try reflexivity.
  all: rewrite patch_config_lookup; rewrite Ek; reflexivity.
Qed.

(** X12.  A legacy key gives its value to the current key only when the
    current key is absent: an [audio_sample_rate] already there wins over
    [sampling_rate], and the legacy key itself stays (likewise for
    [num_mels] and [n_fft]). *)
Theorem patch_config_legacy_keys config old_key new_key :
  In (old_key, new_key) key_mapping ->
  let patched := _patch_config float_one int dict config in
  patched !! old_key = config !! old_key /\
  patched !! new_key =
    match config !! new_key with
    | Some v => Some v
    | None => config !! old_key
    end.
Proof.
  intros Hin patched. unfold patched. rewrite !patch_config_lookup.
  unfold key_mapping in Hin.
  destruct Hin as [[= <- <-]|[[= <- <-]|[[= <- <-]|[]]]];
    (split; [destruct (config !! _); reflexivity|reflexivity]).
Qed.

End WithValues.

Lemma patch_config_keeps_witness :
  _patch_config (Vectors.CNum 1) Vectors.CNum Vectors.CDict
    Vectors.legacy_config !! "sampling_rate"
  = Some (Vectors.CNum 44100).
Proof.
  destruct (patch_config_keeps (Vectors.CNum 1) Vectors.CNum Vectors.CDict
              Vectors.legacy_config) as (Hkeep & _).
  apply Hkeep. reflexivity.
Defined.

Lemma patch_config_required_witness :
  exists model_args,
    _patch_config (Vectors.CNum 1) Vectors.CNum Vectors.CDict
      Vectors.legacy_config !! "model_args"
    = Some (Vectors.CDict model_args) /\
    model_args !! "resblock" = Some (Vectors.CNum 1) /\
    model_args !! "sampling_rate" = None.
Proof.
  destruct (patch_config_required (Vectors.CNum 1) Vectors.CNum Vectors.CDict
              Vectors.legacy_config) as (_ & _ & _ & _ & _ & _ & _ & Hargs).
  destruct (Hargs eq_refl) as (model_args & Hm & Hl).
  exists model_args. split; [exact Hm|]. rewrite !Hl. split; reflexivity.
Defined.

Lemma patch_config_legacy_keys_witness :
  _patch_config (Vectors.CNum 1) Vectors.CNum Vectors.CDict
    Vectors.legacy_config !! "audio_sample_rate"
  = Some (Vectors.CNum 44100).
Proof.
  destruct (patch_config_legacy_keys (Vectors.CNum 1) Vectors.CNum
              Vectors.CDict Vectors.legacy_config
              "sampling_rate" "audio_sample_rate") as (_ & Hnew).
  - left. reflexivity.
  - exact Hnew.
Defined.

End ConfigFacts.

(** ** Edit history: bounds, undo of a stroke, dirty tracking *)

Module HistoryFacts.

Import Segmenter Editor Arrangement EditorFacts.

Section WithSamples.
Context {F : Type}.
Variable interp : Z -> F -> Z -> F -> Z -> F.

Implicit Types (g : GUI F) (track : Track F).

(** [current_track] does not look at the status line, the dirty flag or
    the pointer position. *)
Ltac current_track_frame :=
  repeat first
    [ change (current_track (with_status ?g _)) with (current_track g)
    | change (current_track (with_is_dirty ?g _)) with (current_track g)
    | change (current_track (with_last_mouse_pos ?g _)) with (current_track g) ].

(** *** What [handle_draw] leaves as the current track *)

(** Past its guards, [handle_draw] either only takes the snapshot of a
    starting stroke (the pointer is off the curve), or draws frames on the
    track that [push_undo] left. *)
Lemma handle_draw_guarded g g' track (f0 : list F) point_x y is_left is_right :
  current_track g = Some track -> is_vocal track = true ->
  f0_edited track = Some f0 ->
  handle_draw interp g point_x y is_left is_right = Ok g' ->
  let track1 :=
    match last_mouse_pos g with
    | None => snapshot track f0
    | Some _ => track
    end in
  (current_track g' = Some track1 /\
   last_mouse_pos g' = last_mouse_pos g /\
   ~ (0 <= point_x - start_frame track < Py.len f0)) \/
  (exists f0' changed range states,
     0 <= point_x - start_frame track < Py.len f0 /\
     draw_edit interp (last_mouse_pos g) is_left is_right
       (f0_original track) (point_x - start_frame track) y f0
     = Ok (f0', changed, range) /\
     (if changed
      then mark_dirty (segments track1) 0 (fst range) (snd range)
             (segment_states track1)
      else Ok (segment_states track1)) = Ok states /\
     current_track g' =
       Some (with_segment_states (with_f0_edited track1 (Some f0')) states) /\
     is_Some (last_mouse_pos g')).
Proof.
  intros Hc Hv Hf Hd.
  destruct (handle_draw_unfold interp g track f0 point_x y is_left is_right
              Hc Hv Hf) as (Hc1 & Heq).
  rewrite Heq in Hd. clear Heq. cbv zeta.
  set (track1 := match last_mouse_pos g with
                 | None => snapshot track f0 | Some _ => track end) in *.
  set (g1 := match last_mouse_pos g with
             | None => push_undo g | Some _ => g end) in *.
  assert (Hlast : last_mouse_pos g1 = last_mouse_pos g).
  { unfold g1. destruct (last_mouse_pos g) eqn:El; [exact El|].
    rewrite (push_undo_guarded _ _ _ Hc Hv Hf). exact El. }
  destruct (Z.leb_spec 0 (point_x - start_frame track));
    destruct (Z.ltb_spec (point_x - start_frame track) (Py.len f0));
    cbn [andb] in Hd;
    try (left; injection Hd as <-; split; [exact Hc1|]; split; [exact Hlast|lia]).
  right.
  destruct (draw_edit interp (last_mouse_pos g) is_left is_right
              (f0_original track) (point_x - start_frame track) y f0)
    as [[[f0' changed] range]|e] eqn:He; [|discriminate].
  cbn [mbind res_bind] in Hd.
  destruct (finish_draw_ok _ _ _ _ _ _ _ _ Hc1 Hd) as (states & Hm & Hc2).
  exists f0', changed, range, states.
  split; [lia|]. split; [reflexivity|]. split; [exact Hm|].
  split; [exact Hc2|].
  unfold finish_draw in Hd. rewrite Hm in Hd. cbn [mbind res_bind] in Hd.
  injection Hd as <-. destruct changed; simpl; eauto.
Qed.

(** Where a guard stops it, [handle_draw] changes nothing. *)
Lemma handle_draw_cases g g' point_x y is_left is_right :
  handle_draw interp g point_x y is_left is_right = Ok g' ->
  g' = g \/
  exists track (f0 : list F),
    current_track g = Some track /\ is_vocal track = true /\
    f0_edited track = Some f0.
Proof.
  intros Hd.
  destruct (current_track g) as [track|] eqn:Hc.
  2:{ unfold handle_draw in Hd. rewrite Hc in Hd. injection Hd as <-. auto. }
  destruct (is_vocal track) eqn:Hv.
  2:{ unfold handle_draw in Hd. rewrite Hc, Hv in Hd. injection Hd as <-. auto. }
  destruct (f0_edited track) as [f0|] eqn:Hf.
  2:{ unfold handle_draw in Hd. rewrite Hc, Hv, Hf in Hd. injection Hd as <-. auto. }
  right. eauto.
Qed.

(** *** The size of the history *)

Lemma pop_Some (stack rest : list (list F)) top :
  pop stack = Some (rest, top) -> stack = rest ++ [top].
Proof.
  destruct stack as [|a stack _] using rev_ind; [discriminate|].
  rewrite pop_snoc. intros [= <- <-]. reflexivity.
Qed.

Lemma snapshot_history track (f0 : list F) :
  redo_stack (snapshot track f0) = [] /\
  last (undo_stack (snapshot track f0)) = Some f0 /\
  ((length (undo_stack track) <= 16)%nat ->
   (length (undo_stack (snapshot track f0)) <= 16)%nat).
Proof.
  unfold snapshot. cbn [redo_stack undo_stack with_history].
  split; [reflexivity|]. unfold Py.len. rewrite length_app. simpl.
  destruct (Z.ltb_spec 16 (Z.of_nat (length (undo_stack track) + 1))).
  - destruct (undo_stack track) as [|a us]; [simpl in *; lia|].
    simpl. rewrite drop_0. split; [apply last_snoc|].
    rewrite length_app. simpl. lia.
  - split; [apply last_snoc|]. rewrite length_app. simpl. lia.
Qed.

(** What [undo] and [redo] leave as the current track. *)
Lemma undo_cases g g' :
  undo g = Ok g' ->
  current_track g' = current_track g \/
  exists track (f0 : list F) rest top,
    current_track g = Some track /\ undo_stack track = rest ++ [top] /\
    current_track g' =
      Some (mark_all_dirty
              (with_history track (Some top) rest (redo_stack track ++ [f0]))).
Proof.
  unfold undo. destruct (current_track g) as [track|] eqn:Hc.
  2:{ intros [= <-]. left. exact Hc. }
  destruct (is_vocal track); cbn [negb].
  2:{ intros [= <-]. left. exact Hc. }
  destruct (pop (undo_stack track)) as [[rest top]|] eqn:Hp.
  2:{ intros [= <-]. left. exact Hc. }
  destruct (f0_edited track) as [f0|]; [|discriminate].
  intros [= <-]. right. exists track, f0, rest, top.
  split; [reflexivity|]. split; [apply pop_Some; exact Hp|].
  current_track_frame. eapply current_track_put_current. exact Hc.
Qed.

Lemma redo_cases g g' :
  redo g = Ok g' ->
  current_track g' = current_track g \/
  exists track (f0 : list F) rest top,
    current_track g = Some track /\ redo_stack track = rest ++ [top] /\
    current_track g' =
      Some (mark_all_dirty
              (with_history track (Some top) (undo_stack track ++ [f0]) rest)).
Proof.
  unfold redo. destruct (current_track g) as [track|] eqn:Hc.
  2:{ intros [= <-]. left. exact Hc. }
  destruct (is_vocal track); cbn [negb].
  2:{ intros [= <-]. left. exact Hc. }
  destruct (pop (redo_stack track)) as [[rest top]|] eqn:Hp.
  2:{ intros [= <-]. left. exact Hc. }
  destruct (f0_edited track) as [f0|]; [|discriminate].
  intros [= <-]. right. exists track, f0, rest, top.
  split; [reflexivity|]. split; [apply pop_Some; exact Hp|].
  current_track_frame. eapply current_track_put_current. exact Hc.
Qed.

Lemma history_bounded_same g g' :
  current_track g' = current_track g -> history_bounded g -> history_bounded g'.
Proof. intros Heq Hb track Hc. apply Hb. rewrite <- Heq. exact Hc. Qed.

Lemma handle_draw_bounded g g' point_x y is_left is_right :
  history_bounded g ->
  handle_draw interp g point_x y is_left is_right = Ok g' ->
  history_bounded g'.
Proof.
  intros Hb Hd.
  destruct (handle_draw_cases g g' _ _ _ _ Hd)
    as [->|(track & f0 & Hc & Hv & Hf)]; [exact Hb|].
  pose proof (handle_draw_guarded g g' track f0 _ _ _ _ Hc Hv Hf Hd) as Hcases.
  specialize (Hb track Hc).
  destruct (snapshot_history track f0) as (Hredo & _ & Hundo).
  assert (Hb1 : (length (undo_stack
                   (match last_mouse_pos g with
                    | None => snapshot track f0 | Some _ => track end))
                 + length (redo_stack
                     (match last_mouse_pos g with
                      | None => snapshot track f0 | Some _ => track end))
                 <= 16)%nat).
  { destruct (last_mouse_pos g); [exact Hb|].
    rewrite Hredo. specialize (Hundo ltac:(lia)). cbn [length]. lia. }
  cbv zeta in Hcases.
  destruct Hcases as [(Hc' & _)|(f0' & changed & range & states & _ & _ & _ & Hc' & _)];
    intros track' Hct; rewrite Hc' in Hct; injection Hct as <-; exact Hb1.
Qed.

Lemma drag_bounded moves : forall g g' is_left is_right,
  history_bounded g ->
  drag interp g is_left is_right moves = Ok g' ->
  history_bounded g'.
Proof.
  induction moves as [|[point_x y] moves IH]; intros g g' is_left is_right Hb Hd.
  - injection Hd as <-. exact Hb.
  - simpl in Hd.
    destruct (on_scene_mouse_move interp g is_left is_right point_x y)
      as [g1|e] eqn:Hm; [|discriminate].
    cbn [mbind res_bind] in Hd. eapply IH; [|exact Hd].
    unfold on_scene_mouse_move in Hm.
    destruct (current_track g) as [track|] eqn:Hc;
      [|injection Hm as <-; exact Hb].
    destruct (negb (is_left || is_right)).
    { injection Hm as <-. exact Hb. }
    destruct (drawable track); [|injection Hm as <-; exact Hb].
    eapply handle_draw_bounded; eassumption.
Qed.

(** X13.  The two history stacks of a track together never hold more than
    16 curves: strokes, undo and redo all keep that bound. *)
Theorem history_stays_bounded g :
  history_bounded g ->
  (forall button point_x y moves g',
     stroke interp g button point_x y moves = Ok g' -> history_bounded g') /\
  (forall g', undo g = Ok g' -> history_bounded g') /\
  (forall g', redo g = Ok g' -> history_bounded g').
Proof.
  intros Hb. split; [|split].
  - intros button point_x y moves g' Hs. unfold stroke in Hs.
    destruct (on_scene_mouse_click interp g button point_x y) as [g1|e] eqn:Hc;
      [|discriminate].
    cbn [mbind res_bind] in Hs.
    destruct (drag interp g1 (is_left_button button) (is_right_button button) moves)
      as [g2|e] eqn:Hd; [|discriminate].
    cbn [mbind res_bind] in Hs. injection Hs as <-.
    apply (history_bounded_same g2); [reflexivity|].
    eapply drag_bounded; [|exact Hd].
    unfold on_scene_mouse_click in Hc.
    destruct (current_track g) as [track|] eqn:Hct;
      [|injection Hc as <-; exact Hb].
    destruct button; try (injection Hc as <-; exact Hb);
      (destruct (drawable track); [|injection Hc as <-; exact Hb]);
      (eapply handle_draw_bounded; [|exact Hc]);
      apply (history_bounded_same g); [reflexivity|exact Hb|reflexivity|exact Hb].
  - intros g' Hu. destruct (undo_cases g g' Hu)
      as [Heq|(track & f0 & rest & top & Hc & Hst & Hc')].
    + eapply history_bounded_same; eassumption.
    + specialize (Hb track Hc). rewrite Hst, length_app in Hb. simpl in Hb.
      intros track' Hct. rewrite Hc' in Hct. injection Hct as <-.
      cbn [undo_stack redo_stack mark_all_dirty with_segment_states with_history].
      rewrite length_app. simpl. lia.
  - intros g' Hr. destruct (redo_cases g g' Hr)
      as [Heq|(track & f0 & rest & top & Hc & Hst & Hc')].
    + eapply history_bounded_same; eassumption.
    + specialize (Hb track Hc). rewrite Hst, length_app in Hb. simpl in Hb.
      intros track' Hct. rewrite Hc' in Hct. injection Hct as <-.
      cbn [undo_stack redo_stack mark_all_dirty with_segment_states with_history].
      rewrite length_app. simpl. lia.
Qed.

(** *** A stroke and the history *)

(** A call of [handle_draw] during a stroke that started on [f0_before]
    keeps the stroke's history: the snapshot is taken at most once, before
    any frame is drawn. *)
Lemma in_stroke_handle_draw (f0_before : list F) g g' point_x y is_left is_right
    track :
  current_track g = Some track -> is_vocal track = true ->
  is_Some (f0_edited track) ->
  (last_mouse_pos g = None -> f0_edited track = Some f0_before) ->
  (is_Some (last_mouse_pos g) ->
   last (undo_stack track) = Some f0_before /\ redo_stack track = []) ->
  handle_draw interp g point_x y is_left is_right = Ok g' ->
  in_stroke f0_before g'.
Proof.
  intros Hc Hv [f0 Hf] Hnone Hsome Hd.
  pose proof (handle_draw_guarded g g' track f0 _ _ _ _ Hc Hv Hf Hd) as Hcases.
  cbv zeta in Hcases.
  destruct (snapshot_history track f0) as (Hredo & Hlast & _).
  set (track1 := match last_mouse_pos g with
                 | None => snapshot track f0 | Some _ => track end) in *.
  assert (H1 : is_vocal track1 = true /\
               last (undo_stack track1) = Some f0_before /\
               redo_stack track1 = [] /\
               is_Some (f0_edited track1) /\
               (last_mouse_pos g = None -> f0_edited track1 = Some f0_before)).
  { unfold track1. destruct (last_mouse_pos g) as [p|] eqn:El.
    - destruct (Hsome ltac:(eauto)) as [Hl Hr].
      split; [exact Hv|]. split; [exact Hl|]. split; [exact Hr|].
      split; [rewrite Hf; eauto|]. discriminate.
    - specialize (Hnone eq_refl). rewrite Hf in Hnone. injection Hnone as ->.
      split; [exact Hv|]. split; [exact Hlast|]. split; [exact Hredo|].
      split; [eexists; reflexivity|]. intros _. reflexivity. }
  clearbody track1.
  destruct H1 as (Hv1 & Hl1 & Hr1 & Hs1 & Hn1).
  destruct Hcases
    as [(Hc' & Hl' & _)|(f0' & changed & range & states & _ & _ & _ & Hc' & Hl')].
  - exists track1. split; [exact Hc'|]. split; [exact Hv1|]. split; [exact Hs1|].
    split; [exact Hl1|]. split; [exact Hr1|].
    rewrite Hl'. exact Hn1.
  - eexists. split; [exact Hc'|]. split; [exact Hv1|].
    split; [eexists; reflexivity|]. split; [exact Hl1|]. split; [exact Hr1|].
    intros Hn. rewrite Hn in Hl'. destruct Hl' as [? ?]. discriminate.
Qed.

Lemma drawable_true track (f0 : list F) :
  is_vocal track = true -> f0_edited track = Some f0 -> drawable track = true.
Proof.
  intros Hv Hf. unfold drawable. rewrite Hv. cbn [andb].
  apply bool_decide_eq_true. rewrite Hf. eauto.
Qed.

Lemma click_in_stroke g g' button point_x y track (f0 : list F) :
  current_track g = Some track -> is_vocal track = true ->
  f0_edited track = Some f0 -> button <> OtherButton ->
  on_scene_mouse_click interp g button point_x y = Ok g' ->
  in_stroke f0 g'.
Proof.
  intros Hc Hv Hf Hb Hk. unfold on_scene_mouse_click in Hk.
  rewrite Hc, (drawable_true track f0 Hv Hf) in Hk.
  assert (Hd : handle_draw interp (with_last_mouse_pos g None) point_x y
                 (is_left_button button) (is_right_button button) = Ok g')
    by (destruct button; [exact Hk|exact Hk|congruence]).
  apply (in_stroke_handle_draw f0 (with_last_mouse_pos g None) g' point_x y
           (is_left_button button) (is_right_button button) track);
    [exact Hc|exact Hv|rewrite Hf; eauto| | |exact Hd].
  - intros _. exact Hf.
  - intros [? Hn]. discriminate Hn.
Qed.

Lemma move_in_stroke (f0_before : list F) g g' is_left is_right point_x y :
  is_left || is_right = true -> in_stroke f0_before g ->
  on_scene_mouse_move interp g is_left is_right point_x y = Ok g' ->
  in_stroke f0_before g'.
Proof.
  intros Hb (track & Hc & Hv & Hs & Hl & Hr & Hn) Hm.
  unfold on_scene_mouse_move in Hm. rewrite Hc, Hb in Hm. cbn [negb] in Hm.
  destruct (drawable track).
  - eapply in_stroke_handle_draw;
      [exact Hc|exact Hv|exact Hs|exact Hn| |exact Hm].
    intros _. split; assumption.
  - injection Hm as <-. exists track.
    split; [exact Hc|]. split; [exact Hv|]. split; [exact Hs|].
    split; [exact Hl|]. split; [exact Hr|exact Hn].
Qed.

Lemma drag_in_stroke (f0_before : list F) is_left is_right moves : forall g g',
  is_left || is_right = true -> in_stroke f0_before g ->
  drag interp g is_left is_right moves = Ok g' ->
  in_stroke f0_before g'.
Proof.
  induction moves as [|[point_x y] moves IH]; intros g g' Hb Hin Hd.
  - injection Hd as <-. exact Hin.
  - simpl in Hd.
    destruct (on_scene_mouse_move interp g is_left is_right point_x y)
      as [g1|e] eqn:Hm; [|discriminate].
    cbn [mbind res_bind] in Hd. eapply IH; [exact Hb| |exact Hd].
    eapply move_in_stroke; eassumption.
Qed.

(** After a whole stroke the curve it started from is the newest undo
    snapshot, and the redo stack is empty. *)
Lemma stroke_history g g' button point_x y moves track (f0 : list F) :
  current_track g = Some track -> is_vocal track = true ->
  f0_edited track = Some f0 -> button <> OtherButton ->
  stroke interp g button point_x y moves = Ok g' ->
  exists track' f0' rest,
    current_track g' = Some track' /\ is_vocal track' = true /\
    f0_edited track' = Some f0' /\ undo_stack track' = rest ++ [f0] /\
    redo_stack track' = [].
Proof.
  intros Hc Hv Hf Hb Hs. unfold stroke in Hs.
  destruct (on_scene_mouse_click interp g button point_x y) as [g1|e] eqn:Hk;
    [|discriminate].
  cbn [mbind res_bind] in Hs.
  destruct (drag interp g1 (is_left_button button) (is_right_button button) moves)
    as [g2|e] eqn:Hd; [|discriminate].
  cbn [mbind res_bind] in Hs. injection Hs as <-.
  assert (Hin : in_stroke f0 g2).
  { eapply drag_in_stroke; [|eapply click_in_stroke; eassumption|exact Hd].
    destruct button; [reflexivity|reflexivity|congruence]. }
  destruct Hin as (track' & Hc' & Hv' & [f0' Hf'] & Hl & Hr & _).
  apply last_Some in Hl. destruct Hl as [rest Hl].
  exists track', f0', rest. split; [exact Hc'|]. auto.
Qed.

Lemma all_dirty_mark_all_dirty track : all_dirty (mark_all_dirty track).
Proof.
  unfold all_dirty, mark_all_dirty. cbn [segment_states with_segment_states].
  induction (segment_states track) as [|st states IH]; simpl;
    constructor; [reflexivity|exact IH].
Qed.

(** X14.  An undo right after a stroke gives back the curve the stroke
    started from, whatever the stroke drew; the drawn curve is then the one
    entry of the redo stack, and every segment is marked dirty. *)
Theorem undo_restores_stroke g g' button point_x y moves track (f0 : list F) :
  current_track g = Some track -> is_vocal track = true ->
  f0_edited track = Some f0 -> button <> OtherButton ->
  stroke interp g button point_x y moves = Ok g' ->
  exists g'' track' f0' track'',
    current_track g' = Some track' /\ f0_edited track' = Some f0' /\
    undo g' = Ok g'' /\ current_track g'' = Some track'' /\
    f0_edited track'' = Some f0 /\ redo_stack track'' = [f0'] /\
    all_dirty track''.
Proof.
  intros Hc Hv Hf Hb Hs.
  destruct (stroke_history g g' button point_x y moves track f0 Hc Hv Hf Hb Hs)
    as (track' & f0' & rest & Hc' & Hv' & Hf' & Hu & Hr).
  destruct (undo_ok g' track' f0' rest f0 Hc' Hv' Hf' Hu) as (g'' & Hundo & Hc'').
  exists g'', track', f0'. eexists. split; [exact Hc'|]. split; [exact Hf'|].
  split; [exact Hundo|]. split; [exact Hc''|]. split; [reflexivity|].
  split; [|apply all_dirty_mark_all_dirty].
  cbn [redo_stack mark_all_dirty with_segment_states with_history].
  rewrite Hr. reflexivity.
Qed.

(** X15.  A stroke discards what could be redone: after it, [redo] only
    reports that there is nothing to redo and leaves every track as it is. *)
Theorem stroke_discards_redo g g' button point_x y moves track (f0 : list F) :
  current_track g = Some track -> is_vocal track = true ->
  f0_edited track = Some f0 -> button <> OtherButton ->
  stroke interp g button point_x y moves = Ok g' ->
  exists g'',
    redo g' = Ok g'' /\ status_label g'' = "没有可重做的操作" /\
    tracks g'' = tracks g'.
Proof.
  intros Hc Hv Hf Hb Hs.
  destruct (stroke_history g g' button point_x y moves track f0 Hc Hv Hf Hb Hs)
    as (track' & f0' & rest & Hc' & Hv' & Hf' & Hu & Hr).
  exists (with_status g' "没有可重做的操作").
  split; [|split; reflexivity].
  unfold redo. rewrite Hc', Hv', Hr. reflexivity.
Qed.

(** X16.  A press beside the curve (to the left of the track's first frame
    or past its last one) draws nothing, yet it counts as the start of a
    stroke: a snapshot of the unchanged curve goes on the undo stack and
    the redo stack is emptied. *)
Theorem press_beside_curve g button point_x y track (f0 : list F) :
  current_track g = Some track -> is_vocal track = true ->
  f0_edited track = Some f0 -> button <> OtherButton ->
  ~ (0 <= point_x - start_frame track < Py.len f0) ->
  exists g' track',
    on_scene_mouse_click interp g button point_x y = Ok g' /\
    current_track g' = Some track' /\
    f0_edited track' = Some f0 /\
    segment_states track' = segment_states track /\
    last (undo_stack track') = Some f0 /\
    redo_stack track' = [].
Proof.
  intros Hc Hv Hf Hb Hx.
  destruct (handle_draw_unfold interp (with_last_mouse_pos g None) track f0
              point_x y (is_left_button button) (is_right_button button)
              Hc Hv Hf) as (Hc1 & Heq).
  cbn [last_mouse_pos with_last_mouse_pos] in Hc1, Heq.
  assert (Hout : (0 <=? point_x - start_frame track)
                 && (point_x - start_frame track <? Py.len f0) = false).
  { destruct (Z.leb_spec 0 (point_x - start_frame track));
      destruct (Z.ltb_spec (point_x - start_frame track) (Py.len f0));
      cbn [andb]; try reflexivity. lia. }
  rewrite Hout in Heq.
  exists (push_undo (with_last_mouse_pos g None)), (snapshot track f0).
  split.
  { unfold on_scene_mouse_click.
    rewrite Hc, (drawable_true track f0 Hv Hf).
    destruct button; [exact Heq|exact Heq|congruence]. }
  split; [exact Hc1|].
  destruct (snapshot_history track f0) as (Hredo & Hlast & _).
  split; [reflexivity|]. split; [reflexivity|]. split; assumption.
Qed.

(** *** Dirty tracking *)

Lemma only_marks_refl (states : list (SegmentState F)) : only_marks states states.
Proof. split; [reflexivity|]. intros k st H. exists st. auto. Qed.

Lemma only_marks_trans (s1 s2 s3 : list (SegmentState F)) :
  only_marks s1 s2 -> only_marks s2 s3 -> only_marks s1 s3.
Proof.
  intros [Hl1 H1] [Hl2 H2]. split; [congruence|].
  intros k st Hk. destruct (H1 k st Hk) as (st2 & Hk2 & Hd2 & Ha2).
  destruct (H2 k st2 Hk2) as (st3 & Hk3 & Hd3 & Ha3).
  exists st3. split; [exact Hk3|]. split; [auto|congruence].
Qed.

Lemma only_marks_set_dirty (states : list (SegmentState F)) i st :
  states !! i = Some st -> only_marks states (<[i := set_dirty st]> states).
Proof.
  intros Hi. split; [apply length_insert|].
  intros k st0 Hk. destruct (decide (k = i)) as [->|Hne].
  - exists (set_dirty st). split.
    + apply list_lookup_insert_eq. eapply lookup_lt_Some. exact Hi.
    + rewrite Hi in Hk. injection Hk as <-. split; reflexivity.
  - exists st0. rewrite list_lookup_insert_ne by congruence. auto.
Qed.

(** The marking loop sets the flag of every segment that overlaps the
    affected range, and clears none. *)
Lemma mark_dirty_marks min_x max_x segs : forall i (states states' : list (SegmentState F)),
  mark_dirty segs i min_x max_x states = Ok states' ->
  only_marks states states' /\
  forall j sg, segs !! j = Some sg -> overlaps min_x max_x sg = true ->
    exists st, states' !! (i + j)%nat = Some st /\ dirty st = true.
Proof.
  induction segs as [|sg0 segs IH]; intros i states states' Hm.
  - injection Hm as <-. split; [apply only_marks_refl|].
    intros j sg Hj. discriminate Hj.
  - cbn [mark_dirty] in Hm. destruct (overlaps min_x max_x sg0) eqn:Ho.
    + destruct (states !! i) as [st|] eqn:Hi; [|discriminate].
      destruct (IH _ _ _ Hm) as (Hmono & Hrest).
      pose proof (only_marks_set_dirty states i st Hi) as Hset.
      split; [eapply only_marks_trans; eassumption|].
      intros [|j] sg Hj Hov.
      * destruct Hmono as [_ Hmono].
        destruct (Hmono i (set_dirty st)) as (st' & Hk & Hd & _).
        { apply list_lookup_insert_eq. eapply lookup_lt_Some. exact Hi. }
        exists st'. rewrite Nat.add_0_r. split; [exact Hk|]. apply Hd. reflexivity.
      * replace (i + S j)%nat with (S i + j)%nat by lia.
        eapply Hrest; eassumption.
    + destruct (IH _ _ _ Hm) as (Hmono & Hrest).
      split; [exact Hmono|].
      intros [|j] sg Hj Hov.
      * injection Hj as <-. congruence.
      * replace (i + S j)%nat with (S i + j)%nat by lia.
        eapply Hrest; eassumption.
Qed.

(** The drawing loop writes only frames of its range, keeps the length of
    the curve, and reports a change whenever it wrote a frame. *)
Lemma draw_range_frames is_left is_right f0_orig last_x last_y x y count :
  forall i (f0 : list F) changed f0' changed',
  0 <= i ->
  draw_range interp is_left is_right f0_orig last_x last_y x y i count f0 changed
  = Ok (f0', changed') ->
  length f0' = length f0 /\
  (forall k, (k < Z.to_nat i \/ Z.to_nat i + count <= k)%nat ->
     f0' !! k = f0 !! k) /\
  (changed' = false -> f0' = f0).
Proof.
  induction count as [|count IH]; intros i f0 changed f0' changed' Hi Hd.
  - injection Hd as <- <-. auto.
  - cbn [draw_range] in Hd.
    assert (Hw : forall v,
      draw_range interp is_left is_right f0_orig last_x last_y x y (i + 1) count
        (<[Z.to_nat i := v]> f0) true = Ok (f0', changed') ->
      length f0' = length f0 /\
      (forall k, (k < Z.to_nat i \/ Z.to_nat i + S count <= k)%nat ->
         f0' !! k = f0 !! k) /\
      (changed' = false -> f0' = f0)).
    { intros v Hr. destruct (IH (i + 1) _ _ _ _ ltac:(lia) Hr) as (Hl & Hk & Hch).
      rewrite length_insert in Hl. split; [exact Hl|]. split.
      - intros k Hk'. rewrite Hk by lia.
        apply list_lookup_insert_ne. lia.
      - intros ->. exfalso. clear -IH Hr Hi.
        assert (Hfalse : forall n j (l l' : list F),
          draw_range interp is_left is_right f0_orig last_x last_y x y j n l true
          <> Ok (l', false)).
        { clear. induction n as [|n IHn]; intros j l l'; cbn [draw_range].
          - discriminate.
          - destruct is_left; [apply IHn|]. destruct is_right; [|apply IHn].
            destruct f0_orig as [orig|]; [|apply IHn].
            destruct (orig !! Z.to_nat j); [apply IHn|discriminate]. }
        exact (Hfalse _ _ _ _ Hr). }
    assert (Hs : draw_range interp is_left is_right f0_orig last_x last_y x y
                   (i + 1) count f0 changed = Ok (f0', changed') ->
                 length f0' = length f0 /\
                 (forall k, (k < Z.to_nat i \/ Z.to_nat i + S count <= k)%nat ->
                    f0' !! k = f0 !! k) /\
                 (changed' = false -> f0' = f0)).
    { intros Hr. destruct (IH (i + 1) _ _ _ _ ltac:(lia) Hr) as (Hl & Hk & Hch).
      split; [exact Hl|]. split; [|exact Hch].
      intros k Hk'. apply Hk. lia. }
    destruct is_left; [eapply Hw; exact Hd|].
    destruct is_right; [|apply Hs; exact Hd].
    destruct f0_orig as [orig|]; [|apply Hs; exact Hd].
    destruct (orig !! Z.to_nat i) as [v|]; [|discriminate].
    eapply Hw; exact Hd.
Qed.

Lemma draw_point_frames is_left is_right f0_orig x y (f0 f0' : list F) changed :
  draw_point is_left is_right f0_orig x y f0 = Ok (f0', changed) ->
  length f0' = length f0 /\
  (forall k, k <> Z.to_nat x -> f0' !! k = f0 !! k) /\
  (changed = false -> f0' = f0).
Proof.
  unfold draw_point. intros Hd.
  assert (Hw : forall v,
    length (<[Z.to_nat x := v]> f0) = length f0 /\
    (forall k, k <> Z.to_nat x -> <[Z.to_nat x := v]> f0 !! k = f0 !! k) /\
    (true = false -> <[Z.to_nat x := v]> f0 = f0)).
  { intros v. split; [apply length_insert|]. split; [|discriminate].
    intros k Hk. apply list_lookup_insert_ne. congruence. }
  destruct is_left; [injection Hd as <- <-; apply Hw|].
  destruct is_right; [|injection Hd as <- <-; auto].
  destruct f0_orig as [orig|]; [|injection Hd as <- <-; auto].
  destruct (orig !! Z.to_nat x) as [v|]; [|discriminate].
  injection Hd as <- <-. apply Hw.
Qed.

(** The edit of [handle_draw] changes frames of [affected_range] only. *)
Lemma draw_edit_frames last is_left is_right f0_orig x y (f0 f0' : list F)
    changed range :
  0 <= x < Py.len f0 ->
  draw_edit interp last is_left is_right f0_orig x y f0 = Ok (f0', changed, range) ->
  length f0' = length f0 /\
  (forall k, ~ (fst range <= Z.of_nat k <= snd range) -> f0' !! k = f0 !! k) /\
  (changed = false -> f0' = f0).
Proof.
  intros Hx Hd. unfold draw_edit in Hd.
  assert (Hpoint : forall a b r,
    a <= x <= b ->
    draw_point is_left is_right f0_orig x y f0 = Ok r ->
    r = (f0', changed) ->
    length f0' = length f0 /\
    (forall k, ~ (a <= Z.of_nat k <= b) -> f0' !! k = f0 !! k) /\
    (changed = false -> f0' = f0)).
  { intros a b r Hab Hr ->. destruct (draw_point_frames _ _ _ _ _ _ _ _ Hr)
      as (Hl & Hk & Hch).
    split; [exact Hl|]. split; [|exact Hch].
    intros k Hout. apply Hk. lia. }
  destruct last as [[last_x last_y]|].
  - set (start_x := Z.max 0 (Z.min last_x x)) in *.
    set (end_x := Z.min (Py.len f0 - 1) (Z.max last_x x)) in *.
    destruct (Z.ltb_spec start_x end_x) as [Hlt|Hge].
    + destruct (draw_range interp is_left is_right f0_orig last_x last_y x y
                  start_x (Z.to_nat (end_x + 1 - start_x)) f0 false)
        as [[f1 c1]|e] eqn:Hr; [|discriminate].
      cbn [mbind res_bind] in Hd. injection Hd as <- <- <-.
      destruct (draw_range_frames _ _ _ _ _ _ _ _ start_x _ _ _ _ ltac:(lia) Hr)
        as (Hl & Hk & Hch).
      split; [exact Hl|]. split; [|exact Hch].
      intros k Hout. cbn [fst snd] in Hout. apply Hk. lia.
    + destruct (draw_point is_left is_right f0_orig x y f0) as [r|e] eqn:Hr;
        [|discriminate].
      cbn [mbind res_bind] in Hd. injection Hd as -> <-.
      cbn [fst snd]. eapply (Hpoint start_x end_x); [|reflexivity|reflexivity].
      unfold start_x, end_x. lia.
  - destruct (draw_point is_left is_right f0_orig x y f0) as [r|e] eqn:Hr;
      [|discriminate].
    cbn [mbind res_bind] in Hd. injection Hd as -> <-.
    cbn [fst snd]. eapply (Hpoint x x); [lia|reflexivity|reflexivity].
Qed.

(** X17.  Dirty tracking of [handle_draw] is sound: whatever one call
    draws, the curve keeps its length, every segment that contains a frame
    whose pitch changed is marked dirty afterwards, and no dirty flag is
    cleared nor any cached audio dropped. *)
Theorem drawn_frames_marked_dirty g g' point_x y is_left is_right track track'
    (f0 f0' : list F) :
  handle_draw interp g point_x y is_left is_right = Ok g' ->
  current_track g = Some track -> f0_edited track = Some f0 ->
  current_track g' = Some track' -> f0_edited track' = Some f0' ->
  length f0' = length f0 /\
  only_marks (segment_states track) (segment_states track') /\
  forall k j sg,
    f0' !! k <> f0 !! k -> segments track !! j = Some sg ->
    fst sg <= Z.of_nat k < snd sg ->
    exists st, segment_states track' !! j = Some st /\ dirty st = true.
Proof.
  intros Hd Hc Hf Hc' Hf'.
  assert (Hsame : track' = track -> f0' = f0 ->
    length f0' = length f0 /\
    only_marks (segment_states track) (segment_states track') /\
    forall k j sg,
      f0' !! k <> f0 !! k -> segments track !! j = Some sg ->
      fst sg <= Z.of_nat k < snd sg ->
      exists st, segment_states track' !! j = Some st /\ dirty st = true).
  { intros -> ->. split; [reflexivity|]. split; [apply only_marks_refl|].
    intros k j sg Hne. congruence. }
  destruct (handle_draw_cases g g' _ _ _ _ Hd)
    as [->|(track0 & f00 & Hc0 & Hv & Hf0)].
  { apply Hsame; congruence. }
  assert (track0 = track) as -> by congruence.
  assert (f00 = f0) as -> by congruence.
  pose proof (handle_draw_guarded g g' track f0 _ _ _ _ Hc Hv Hf Hd) as Hcases.
  cbv zeta in Hcases.
  set (track1 := match last_mouse_pos g with
                 | None => snapshot track f0 | Some _ => track end) in *.
  assert (H1 : f0_edited track1 = Some f0 /\
               segments track1 = segments track /\
               segment_states track1 = segment_states track).
  { unfold track1. destruct (last_mouse_pos g); [auto|].
    split; [reflexivity|]. split; reflexivity. }
  clearbody track1. destruct H1 as (Hf1 & Hsg1 & Hst1).
  destruct Hcases
    as [(Hc1 & _)|(f1 & changed & range & states & Hx & He & Hm & Hc1 & _)].
  - rewrite Hc1 in Hc'. injection Hc' as <-.
    rewrite Hf1 in Hf'. injection Hf' as <-.
    split; [reflexivity|]. rewrite Hst1. split; [apply only_marks_refl|].
    intros k j sg Hne. congruence.
  - rewrite Hc1 in Hc'. injection Hc' as <-.
    cbn [f0_edited with_segment_states with_f0_edited with_history] in Hf'.
    injection Hf' as <-.
    cbn [segment_states with_segment_states].
    destruct (draw_edit_frames _ _ _ _ _ _ _ _ _ _ Hx He) as (Hl & Hk & Hch).
    split; [exact Hl|].
    rewrite Hsg1, Hst1 in Hm.
    destruct changed.
    + destruct (mark_dirty_marks _ _ _ _ _ _ Hm) as (Hmono & Hmarks).
      split; [exact Hmono|].
      intros k j sg Hne Hj Hin.
      apply (Hmarks j sg Hj).
      assert (Hrange : fst range <= Z.of_nat k <= snd range).
      { destruct (decide (fst range <= Z.of_nat k <= snd range)) as [?|Hout];
          [assumption|].
        exfalso. apply Hne. apply Hk. exact Hout. }
      unfold overlaps.
      destruct (Z.ltb_spec (snd range) (fst sg)); [lia|].
      destruct (Z.leb_spec (snd sg) (fst range)); [lia|]. reflexivity.
    + injection Hm as <-. split; [apply only_marks_refl|].
      intros k j sg Hne. rewrite (Hch eq_refl) in Hne. congruence.
Qed.

(** *** What the two buttons write *)

(** Inside its range the drawing loop writes the interpolated pitch with
    the left button, and the original pitch with the right one. *)
Lemma draw_range_written is_left is_right f0_orig last_x last_y x y count :
  forall i (f0 : list F) changed f0' changed',
  0 <= i -> (Z.to_nat i + count <= length f0)%nat ->
  draw_range interp is_left is_right f0_orig last_x last_y x y i count f0 changed
  = Ok (f0', changed') ->
  forall k, (Z.to_nat i <= k < Z.to_nat i + count)%nat ->
    (is_left = true ->
     f0' !! k = Some (interp last_x last_y x y (Z.of_nat k))) /\
    (is_left = false -> is_right = true ->
     forall orig, f0_orig = Some orig -> f0' !! k = orig !! k).
Proof.
  induction count as [|count IH]; intros i f0 changed f0' changed' Hi Hlen Hd k Hk;
    [lia|].
  cbn [draw_range] in Hd.
  assert (Hw : forall v,
    draw_range interp is_left is_right f0_orig last_x last_y x y (i + 1) count
      (<[Z.to_nat i := v]> f0) true = Ok (f0', changed') ->
    (k = Z.to_nat i /\ f0' !! k = Some v) \/
    ((is_left = true ->
      f0' !! k = Some (interp last_x last_y x y (Z.of_nat k))) /\
     (is_left = false -> is_right = true ->
      forall orig, f0_orig = Some orig -> f0' !! k = orig !! k))).
  { intros v Hr. destruct (decide (k = Z.to_nat i)) as [->|Hne].
    - left. split; [reflexivity|].
      destruct (draw_range_frames _ _ _ _ _ _ _ _ (i + 1) _ _ _ _ ltac:(lia) Hr)
        as (_ & Hout & _).
      rewrite Hout by lia. apply list_lookup_insert_eq. lia.
    - right. apply (IH (i + 1) _ _ _ _ ltac:(lia)) with (k := k) in Hr;
        [exact Hr|rewrite length_insert; lia|lia]. }
  destruct is_left.
  - destruct (Hw _ Hd) as [[-> Hv]|Hrest]; [|exact Hrest].
    split; [|discriminate]. intros _. rewrite Hv, Z2Nat.id by lia. reflexivity.
  - destruct is_right.
    + destruct f0_orig as [orig|].
      * destruct (orig !! Z.to_nat i) as [v|] eqn:Ho; [|discriminate].
        destruct (Hw _ Hd) as [[-> Hv]|Hrest]; [|exact Hrest].
        split; [discriminate|]. intros _ _ orig' [= <-]. congruence.
      * split; [discriminate|]. intros _ _ orig' Hq. discriminate Hq.
    + split; discriminate.
Qed.

Lemma draw_point_written is_left is_right f0_orig x y (f0 f0' : list F) changed :
  0 <= x < Py.len f0 ->
  draw_point is_left is_right f0_orig x y f0 = Ok (f0', changed) ->
  (is_left = true -> f0' !! Z.to_nat x = Some y) /\
  (is_left = false -> is_right = true ->
   forall orig, f0_orig = Some orig -> f0' !! Z.to_nat x = orig !! Z.to_nat x).
Proof.
  unfold Py.len, draw_point. intros Hx Hd. destruct is_left.
  - injection Hd as <- <-. split; [|discriminate].
    intros _. apply list_lookup_insert_eq. lia.
  - split; [discriminate|]. intros _ -> orig ->.
    destruct (orig !! Z.to_nat x) as [v|]; [|discriminate].
    injection Hd as <- <-. apply list_lookup_insert_eq. lia.
Qed.

(** The edit of [handle_draw] on the frames of its range. *)
Lemma draw_edit_written last is_left is_right f0_orig x y (f0 f0' : list F)
    changed range :
  0 <= x < Py.len f0 ->
  draw_edit interp last is_left is_right f0_orig x y f0 = Ok (f0', changed, range) ->
  range = stroke_range last x (Py.len f0) /\
  forall k, in_range range (Z.of_nat k) = true ->
    (is_left = true ->
     f0' !! k = Some (stroke_pitch interp last x y (Py.len f0) (Z.of_nat k))) /\
    (is_left = false -> is_right = true ->
     forall orig, f0_orig = Some orig -> f0' !! k = orig !! k).
Proof.
  intros Hx Hd. unfold draw_edit in Hd. unfold in_range.
  assert (Hpoint : forall r,
    draw_point is_left is_right f0_orig x y f0 = Ok r ->
    r = (f0', changed) ->
    forall k, Z.of_nat k = x ->
      (is_left = true -> f0' !! k = Some y) /\
      (is_left = false -> is_right = true ->
       forall orig, f0_orig = Some orig -> f0' !! k = orig !! k)).
  { intros r Hr -> k Hk.
    replace k with (Z.to_nat x) by lia.
    eapply draw_point_written; eassumption. }
  destruct last as [[last_x last_y]|]; unfold stroke_pitch, stroke_range;
    cbn [fst snd].
  - set (start_x := Z.max 0 (Z.min last_x x)) in *.
    set (end_x := Z.min (Py.len f0 - 1) (Z.max last_x x)) in *.
    destruct (Z.ltb_spec start_x end_x) as [Hlt|Hge].
    + destruct (draw_range interp is_left is_right f0_orig last_x last_y x y
                  start_x (Z.to_nat (end_x + 1 - start_x)) f0 false)
        as [[f1 c1]|e] eqn:Hr; [|discriminate].
      cbn [mbind res_bind] in Hd. injection Hd as <- <- <-.
      split; [reflexivity|]. cbn [fst snd]. intros k Hk.
      apply andb_true_iff in Hk. destruct Hk as [Hk1 Hk2].
      apply Z.leb_le in Hk1, Hk2.
      eapply (draw_range_written _ _ _ _ _ _ _ _ start_x); [| |exact Hr|].
      * unfold start_x. lia.
      * unfold start_x, end_x, Py.len in *. lia.
      * lia.
    + destruct (draw_point is_left is_right f0_orig x y f0) as [r|e] eqn:Hr;
        [|discriminate].
      cbn [mbind res_bind] in Hd. injection Hd as -> <-.
      split; [reflexivity|]. cbn [fst snd]. intros k Hk.
      apply andb_true_iff in Hk. destruct Hk as [Hk1 Hk2].
      apply Z.leb_le in Hk1, Hk2.
      eapply Hpoint; [reflexivity|reflexivity|].
      unfold start_x, end_x in *. lia.
  - destruct (draw_point is_left is_right f0_orig x y f0) as [r|e] eqn:Hr;
      [|discriminate].
    cbn [mbind res_bind] in Hd. injection Hd as -> <-.
    split; [reflexivity|]. cbn [fst snd]. intros k Hk.
    apply andb_true_iff in Hk. destruct Hk as [Hk1 Hk2].
    apply Z.leb_le in Hk1, Hk2.
    eapply Hpoint; [reflexivity|reflexivity|lia].
Qed.

(** What a call of [handle_draw] on a frame of the curve leaves as the
    curve. *)
Lemma handle_draw_curve g g' point_x y is_left is_right track (f0 : list F) :
  current_track g = Some track -> is_vocal track = true ->
  f0_edited track = Some f0 ->
  0 <= point_x - start_frame track < Py.len f0 ->
  handle_draw interp g point_x y is_left is_right = Ok g' ->
  let x := point_x - start_frame track in
  let range := stroke_range (last_mouse_pos g) x (Py.len f0) in
  exists track' f0',
    current_track g' = Some track' /\ f0_edited track' = Some f0' /\
    length f0' = length f0 /\
    (forall k, in_range range (Z.of_nat k) = false -> f0' !! k = f0 !! k) /\
    (forall k, in_range range (Z.of_nat k) = true ->
       (is_left = true ->
        f0' !! k = Some (stroke_pitch interp (last_mouse_pos g) x y (Py.len f0)
                           (Z.of_nat k))) /\
       (is_left = false -> is_right = true ->
        forall orig, f0_original track = Some orig -> f0' !! k = orig !! k)).
Proof.
  intros Hc Hv Hf Hx Hd. cbv zeta.
  pose proof (handle_draw_guarded g g' track f0 _ _ _ _ Hc Hv Hf Hd) as Hcases.
  cbv zeta in Hcases.
  destruct Hcases
    as [(_ & _ & Hout)|(f0' & changed & range & states & _ & He & _ & Hc' & _)];
    [contradiction|].
  destruct (draw_edit_frames _ _ _ _ _ _ _ _ _ _ Hx He) as (Hl & Hk & _).
  destruct (draw_edit_written _ _ _ _ _ _ _ _ _ _ Hx He) as (Hr & Hin).
  eexists. exists f0'. split; [exact Hc'|]. split; [reflexivity|].
  split; [exact Hl|]. rewrite <- Hr. split; [|exact Hin].
  intros k Hout. apply Hk. unfold in_range in Hout.
  destruct (Z.leb_spec (fst range) (Z.of_nat k)); [|lia].
  destruct (Z.leb_spec (Z.of_nat k) (snd range)); [discriminate|lia].
Qed.

(** X19.  The right button erases edits: on a frame of the curve,
    [handle_draw] gives every frame between the previous pointer position
    and the pointer its original pitch back and leaves every other frame
    as it was. *)
Theorem right_button_restores_original g g' point_x y track (f0 orig : list F) :
  current_track g = Some track -> is_vocal track = true ->
  f0_edited track = Some f0 -> f0_original track = Some orig ->
  0 <= point_x - start_frame track < Py.len f0 ->
  handle_draw interp g point_x y false true = Ok g' ->
  let x := point_x - start_frame track in
  let range := stroke_range (last_mouse_pos g) x (Py.len f0) in
  exists track' f0',
    current_track g' = Some track' /\ f0_edited track' = Some f0' /\
    length f0' = length f0 /\
    forall k,
      f0' !! k = if in_range range (Z.of_nat k) then orig !! k else f0 !! k.
Proof.
  intros Hc Hv Hf Ho Hx Hd. cbv zeta.
  destruct (handle_draw_curve g g' point_x y false true track f0
              Hc Hv Hf Hx Hd) as (track' & f0' & Hc' & Hf' & Hl & Hout & Hin).
  exists track', f0'. split; [exact Hc'|]. split; [exact Hf'|].
  split; [exact Hl|]. intros k.
  destruct (in_range _ (Z.of_nat k)) eqn:Hr.
  - apply (Hin k Hr); [reflexivity|reflexivity|exact Ho].
  - apply Hout. exact Hr.
Qed.

(** *** Undo and redo undo each other *)

Lemma set_dirty_twice (states : list (SegmentState F)) :
  map set_dirty (map set_dirty states) = map set_dirty states.
Proof. rewrite map_map. reflexivity. Qed.

(** X20.  [undo] and [redo] are inverse to each other on the pitch curve
    and on both stacks: an undo followed by a redo, or a redo followed by
    an undo, gives the track back as it was, with all segments marked
    dirty. *)
Theorem undo_redo_inverse g track (f0 : list F) :
  current_track g = Some track -> is_vocal track = true ->
  f0_edited track = Some f0 ->
  (undo_stack track <> [] ->
   exists g1 g2,
     undo g = Ok g1 /\ redo g1 = Ok g2 /\
     current_track g2 = Some (mark_all_dirty track)) /\
  (redo_stack track <> [] ->
   exists g1 g2,
     redo g = Ok g1 /\ undo g1 = Ok g2 /\
     current_track g2 = Some (mark_all_dirty track)).
Proof.
  intros Hc Hv Hf. split; intros Hne.
  - destruct (nonempty_snoc (undo_stack track)) as (rest & top & Hu).
    { destruct (undo_stack track); [congruence|simpl; lia]. }
    destruct (undo_ok g track f0 rest top Hc Hv Hf Hu) as (g1 & H1 & Hc1).
    destruct (redo_ok g1 _ top (redo_stack track) f0 Hc1 Hv eq_refl eq_refl)
      as (g2 & H2 & Hc2).
    exists g1, g2. split; [exact H1|]. split; [exact H2|].
    rewrite Hc2. f_equal. apply track_eq; try reflexivity.
    + cbn. rewrite Hf. reflexivity.
    + cbn. apply set_dirty_twice.
    + cbn. rewrite Hu. reflexivity.
  - destruct (nonempty_snoc (redo_stack track)) as (rest & top & Hr).
    { destruct (redo_stack track); [congruence|simpl; lia]. }
    destruct (redo_ok g track f0 rest top Hc Hv Hf Hr) as (g1 & H1 & Hc1).
    destruct (undo_ok g1 _ top (undo_stack track) f0 Hc1 Hv eq_refl eq_refl)
      as (g2 & H2 & Hc2).
    exists g1, g2. split; [exact H1|]. split; [exact H2|].
    rewrite Hc2. f_equal. apply track_eq; try reflexivity.
    + cbn. rewrite Hf. reflexivity.
    + cbn. apply set_dirty_twice.
    + cbn. rewrite Hr. reflexivity.
Qed.

End WithSamples.

(** *** The interpolation of the left button *)

Section WithFloats.
Context {F : Type}.
(** Float addition, subtraction and product, the float of an integer, and
    the quotient of two integers. *)
Variables (add sub mul : F -> F -> F) (of_int : Z -> F) (truediv : Z -> Z -> F).

Implicit Types (g : GUI F) (track : Track F).

(** On a proper range the pointer has moved, so the loop's ratio is the
    quotient, never the constant 0 of its [else]. *)
Lemma stroke_pitch_interp_y last_x last_y x y len i :
  stroke_pitch (interp_y add sub mul of_int truediv) (Some (last_x, last_y))
    x y len i
  = if fst (stroke_range (Some (last_x, last_y)) x len)
       <? snd (stroke_range (Some (last_x, last_y)) x len)
    then add last_y (mul (truediv (i - last_x) (x - last_x)) (sub y last_y))
    else y.
Proof.
  unfold stroke_pitch, stroke_range. cbn [fst snd].
  destruct (Z.ltb_spec (Z.max 0 (Z.min last_x x))
              (Z.min (len - 1) (Z.max last_x x))) as [Hlt|_]; [|reflexivity].
  unfold interp_y. destruct (Z.eqb_spec x last_x) as [->|_]; [lia|].
  reflexivity.
Qed.

(** X18.  Drawing with the left button writes the stroke and nothing else:
    on a frame of the curve, [handle_draw] sets every frame [i] between the
    previous pointer position [(last_x, last_y)] and the pointer [(x, y)]
    to the linear interpolation
    [last_y + (i - last_x) / (x - last_x) * (y - last_y)] (the one frame
    under the pointer to [y] when the range is a single frame or a stroke
    starts) and leaves every other frame as it was. *)
Theorem left_button_writes_stroke g g' point_x y is_right track (f0 : list F) :
  current_track g = Some track -> is_vocal track = true ->
  f0_edited track = Some f0 ->
  0 <= point_x - start_frame track < Py.len f0 ->
  handle_draw (interp_y add sub mul of_int truediv) g point_x y true is_right
  = Ok g' ->
  let x := point_x - start_frame track in
  let range := stroke_range (last_mouse_pos g) x (Py.len f0) in
  exists track' f0',
    current_track g' = Some track' /\ f0_edited track' = Some f0' /\
    length f0' = length f0 /\
    forall k,
      f0' !! k =
      if in_range range (Z.of_nat k)
      then Some
             match last_mouse_pos g with
             | Some (last_x, last_y) =>
                 if fst range <? snd range
                 then add last_y
                        (mul (truediv (Z.of_nat k - last_x) (x - last_x))
                           (sub y last_y))
                 else y
             | None => y
             end
      else f0 !! k.
Proof.
  intros Hc Hv Hf Hx Hd. cbv zeta.
  destruct (handle_draw_curve (interp_y add sub mul of_int truediv)
              g g' point_x y true is_right track f0 Hc Hv Hf Hx Hd)
    as (track' & f0' & Hc' & Hf' & Hl & Hout & Hin).
  exists track', f0'. split; [exact Hc'|]. split; [exact Hf'|].
  split; [exact Hl|]. intros k.
  destruct (in_range _ (Z.of_nat k)) eqn:Hr.
  - destruct (Hin k Hr) as (Hleft & _). rewrite (Hleft eq_refl).
    destruct (last_mouse_pos g) as [[last_x last_y]|]; [|reflexivity].
    rewrite stroke_pitch_interp_y. reflexivity.
  - apply Hout. exact Hr.
Qed.

End WithFloats.

Lemma history_stays_bounded_witness :
  history_bounded Vectors.after_undo /\
  (forall g', redo Vectors.after_undo = Ok g' -> history_bounded g').
Proof.
  assert (H : history_bounded Vectors.after_undo).
  { intros track Hc. vm_compute in Hc. injection Hc as <-. vm_compute. lia. }
  split; [exact H|].
  apply (history_stays_bounded Vectors.linear_interp Vectors.after_undo H).
Defined.

Lemma undo_restores_stroke_witness :
  exists g'' track' f0' track'',
    current_track Vectors.after_first_stroke = Some track' /\
    f0_edited track' = Some f0' /\
    undo Vectors.after_first_stroke = Ok g'' /\
    current_track g'' = Some track'' /\
    f0_edited track'' = Some Vectors.curve /\ redo_stack track'' = [f0'] /\
    all_dirty track''.
Proof.
  apply (undo_restores_stroke Vectors.linear_interp Vectors.editor
           Vectors.after_first_stroke LeftButton 1 (Some 70%Q) [(2, Some 71%Q)]
           Vectors.lead Vectors.curve).
  - reflexivity.
  - reflexivity.
  - reflexivity.
  - discriminate.
  - vm_compute. reflexivity.
Defined.

Lemma stroke_discards_redo_witness :
  exists g'',
    redo Vectors.after_second_stroke = Ok g'' /\
    status_label g'' = "没有可重做的操作" /\
    tracks g'' = tracks Vectors.after_second_stroke.
Proof.
  apply (stroke_discards_redo Vectors.linear_interp Vectors.after_first_stroke
           Vectors.after_second_stroke RightButton 3 (Some 50%Q) []
           (Vectors.after_first_stroke_track) Vectors.drawn_curve).
  - reflexivity.
  - reflexivity.
  - reflexivity.
  - discriminate.
  - vm_compute. reflexivity.
Defined.

Lemma press_beside_curve_witness :
  exists g' track',
    on_scene_mouse_click Vectors.linear_interp Vectors.editor LeftButton 9 (Some 70%Q)
    = Ok g' /\
    current_track g' = Some track' /\
    f0_edited track' = Some Vectors.curve /\
    segment_states track' = segment_states Vectors.lead /\
    last (undo_stack track') = Some Vectors.curve /\
    redo_stack track' = [].
Proof.
  apply (press_beside_curve Vectors.linear_interp Vectors.editor LeftButton 9
           (Some 70%Q) Vectors.lead Vectors.curve).
  - reflexivity.
  - reflexivity.
  - reflexivity.
  - discriminate.
  - vm_compute. intros [_ H]. discriminate H.
Defined.

Lemma drawn_frames_marked_dirty_witness :
  exists st,
    segment_states Vectors.dragged_track !! 1%nat = Some st /\
    dirty st = true.
Proof.
  destruct (drawn_frames_marked_dirty Vectors.linear_interp
              Vectors.pressed Vectors.dragged 2 (Some 71%Q) true false
              Vectors.pressed_track Vectors.dragged_track
              Vectors.pressed_curve Vectors.drawn_curve)
    as (_ & _ & H).
  - vm_compute. reflexivity.
  - reflexivity.
  - reflexivity.
  - reflexivity.
  - reflexivity.
  - apply (H 2%nat 1%nat (2, 4)).
    + discriminate.
    + reflexivity.
    + simpl. lia.
Defined.

Lemma left_button_writes_stroke_witness :
  exists track' f0',
    current_track Vectors.dragged = Some track' /\
    f0_edited track' = Some f0' /\
    f0' !! 1%nat = Some (Some 70%Q) /\ f0' !! 2%nat = Some (Some 71%Q) /\
    f0' !! 3%nat = Some (Some 64%Q).
Proof.
  destruct (left_button_writes_stroke Vectors.pitch_add Vectors.pitch_sub
              Vectors.pitch_mul Vectors.pitch_of_int Vectors.pitch_truediv
              Vectors.pressed Vectors.dragged 2 (Some 71%Q) false
              Vectors.pressed_track Vectors.pressed_curve)
    as (track' & f0' & Hc & Hf & _ & Hk).
  - reflexivity.
  - reflexivity.
  - reflexivity.
  - simpl. unfold Py.len. simpl. lia.
  - vm_compute. reflexivity.
  - exists track', f0'. split; [exact Hc|]. split; [exact Hf|].
    split; [exact (Hk 1%nat)|]. split; [exact (Hk 2%nat)|exact (Hk 3%nat)].
Defined.

Lemma right_button_restores_original_witness :
  exists track' f0',
    current_track Vectors.erased = Some track' /\
    f0_edited track' = Some f0' /\
    f0' !! 1%nat = Some (Some 62%Q) /\ f0' !! 2%nat = Some (Some 71%Q).
Proof.
  destruct (right_button_restores_original Vectors.linear_interp
              Vectors.after_first_stroke Vectors.erased 1 (Some 50%Q)
              Vectors.after_first_stroke_track Vectors.drawn_curve Vectors.curve)
    as (track' & f0' & Hc & Hf & _ & Hk).
  - reflexivity.
  - reflexivity.
  - reflexivity.
  - reflexivity.
  - simpl. unfold Py.len. simpl. lia.
  - vm_compute. reflexivity.
  - exists track', f0'. split; [exact Hc|]. split; [exact Hf|].
    split; [exact (Hk 1%nat)|exact (Hk 2%nat)].
Defined.

Lemma undo_redo_inverse_witness :
  (exists g1 g2,
     undo Vectors.after_undo = Ok g1 /\ redo g1 = Ok g2 /\
     current_track g2 = current_track Vectors.after_undo) /\
  (exists g1 g2,
     redo Vectors.after_undo = Ok g1 /\ undo g1 = Ok g2 /\
     current_track g2 = current_track Vectors.after_undo).
Proof.
  destruct (undo_redo_inverse Vectors.after_undo Vectors.after_undo_track
              Vectors.drawn_curve eq_refl eq_refl eq_refl) as (Hu & Hr).
  split.
  - destruct Hu as (g1 & g2 & H1 & H2 & H3); [discriminate|].
    exists g1, g2. split; [exact H1|]. split; [exact H2|]. exact H3.
  - destruct Hr as (g1 & g2 & H1 & H2 & H3); [discriminate|].
    exists g1, g2. split; [exact H1|]. split; [exact H2|]. exact H3.
Defined.

End HistoryFacts.

(** ** Transposing, copying and pasting curves, deleting tracks, saving *)

Module ArrangementFacts.

Import Segmenter Editor Arrangement EditorFacts.

Section WithSamples.
Context {F : Type}.
Variables (zero one : F) (add sub : F -> F -> F).

Implicit Types (g : GUI F) (track : Track F).

Lemma track_at_put_at g index track track' :
  track_at g index = Some track ->
  track_at (put_at g index track') index = Some track'.
Proof.
  unfold track_at, put_at. cbn [tracks with_tracks].
  unfold Py.len. rewrite length_insert.
  destruct ((0 <=? index) && (index <? Z.of_nat (length (tracks g))));
    [|discriminate].
  intros H. apply list_lookup_insert_eq. eapply lookup_lt_Some. exact H.
Qed.

(** X21.  Transposing is not an undoable step: [apply_shift] moves every
    frame of the curve by the difference to the last shift and leaves both
    history stacks alone, so an undo afterwards brings back the newest
    snapshot as it was taken, while the track's shift value stays at the
    new setting. *)
Theorem shift_not_in_history g last_shift_value semitones track (f0 : list F)
    rest top :
  current_track g = Some track -> is_vocal track = true ->
  f0_edited track = Some f0 -> undo_stack track = rest ++ [top] ->
  let shifted := map (fun p => add p (sub semitones last_shift_value)) f0 in
  exists track1 g2 track2,
    current_track (fst (apply_shift add sub g last_shift_value semitones))
    = Some track1 /\
    snd (apply_shift add sub g last_shift_value semitones) = semitones /\
    f0_edited track1 = Some shifted /\ all_dirty track1 /\
    undo_stack track1 = undo_stack track /\
    redo_stack track1 = redo_stack track /\
    undo (fst (apply_shift add sub g last_shift_value semitones)) = Ok g2 /\
    current_track g2 = Some track2 /\
    f0_edited track2 = Some top /\ shift_value track2 = semitones /\
    redo_stack track2 = redo_stack track ++ [shifted].
Proof.
  intros Hc Hv Hf Hu shifted.
  unfold apply_shift. rewrite Hc, Hv, Hf. cbn [negb fst snd].
  set (track1 := mark_all_dirty
                   (with_shift_value (with_f0_edited track (Some shifted))
                      semitones)).
  assert (Hc1 : current_track (put_current g track1) = Some track1)
    by (eapply current_track_put_current; exact Hc).
  destruct (undo_ok (put_current g track1) track1 shifted rest top Hc1 Hv
              eq_refl Hu) as (g2 & H2 & Hc2).
  exists track1, g2. eexists.
  split; [exact Hc1|]. split; [reflexivity|]. split; [reflexivity|].
  split; [apply HistoryFacts.all_dirty_mark_all_dirty|].
  split; [reflexivity|]. split; [reflexivity|].
  split; [exact H2|]. split; [exact Hc2|].
  split; [reflexivity|]. split; reflexivity.
Qed.

(** The curve that [paste_pitch] builds. *)
Lemma pasted_curve (clipboard orig : list F) :
  let target_len := Py.len orig in
  let source_len := Py.len clipboard in
  let new_f0 := replicate (Z.to_nat target_len) zero in
  let copy_len := Z.min target_len source_len in
  let new_f0 :=
    Py.slice_to clipboard copy_len ++ Py.slice_from new_f0 copy_len in
  (if copy_len <? target_len
   then Py.slice_to new_f0 copy_len ++ Py.slice_from orig copy_len
   else new_f0)
  = take (length orig) clipboard ++ drop (length clipboard) orig.
Proof.
  cbv zeta. unfold Py.len.
  set (n := length orig). set (m := length clipboard).
  assert (Hrep : Py.len (replicate (Z.to_nat (Z.of_nat n)) zero) = Z.of_nat n).
  { rewrite PyFacts.len_replicate. lia. }
  rewrite (PyFacts.slice_to_inside clipboard) by (unfold Py.len; lia).
  rewrite (PyFacts.slice_from_inside (replicate _ zero)) by (rewrite Hrep; lia).
  destruct (Z.ltb_spec (Z.min (Z.of_nat n) (Z.of_nat m)) (Z.of_nat n)) as [Hlt|Hge].
  - replace (Z.min (Z.of_nat n) (Z.of_nat m)) with (Z.of_nat m) by lia.
    rewrite Nat2Z.id.
    rewrite PyFacts.slice_from_inside by (unfold Py.len; lia).
    rewrite PyFacts.slice_to_inside.
    2:{ rewrite PyFacts.len_app. unfold Py.len. rewrite length_take. lia. }
    rewrite Nat2Z.id.
    rewrite take_app_le by (rewrite length_take; lia).
    rewrite take_take, !take_ge by lia. reflexivity.
  - replace (Z.min (Z.of_nat n) (Z.of_nat m)) with (Z.of_nat n) by lia.
    rewrite Nat2Z.id.
    rewrite !drop_ge; [reflexivity|lia|rewrite length_replicate; lia].
Qed.

(** X22.  [paste_pitch] makes the clipboard fit the target track: the
    pasted curve has the length of the track's original curve, the
    clipboard being cut when it is longer and continued with the original
    curve when it is shorter; every segment is marked dirty and the edit
    history is left alone.  When the lengths differ and the user declines,
    nothing changes. *)
Theorem paste_pitch_fits g clipboard index reply_yes track (orig : list F) :
  track_at g index = Some track -> f0_original track = Some orig ->
  (length clipboard = length orig \/ reply_yes = true ->
   exists track',
     track_at (paste_pitch zero g (Some clipboard) index reply_yes) index
     = Some track' /\
     f0_edited track' =
       Some (take (length orig) clipboard ++ drop (length clipboard) orig) /\
     length (take (length orig) clipboard ++ drop (length clipboard) orig)
     = length orig /\
     all_dirty track' /\
     undo_stack track' = undo_stack track /\
     redo_stack track' = redo_stack track) /\
  (length clipboard <> length orig -> reply_yes = false ->
   paste_pitch zero g (Some clipboard) index reply_yes = g).
Proof.
  intros Ht Ho. split.
  - intros Hgo. unfold paste_pitch. rewrite Ht, Ho.
    assert (Hq : negb (Py.len orig =? Py.len clipboard) && negb reply_yes = false).
    { destruct Hgo as [Hlen| ->]; [|apply andb_false_r].
      unfold Py.len. rewrite Hlen, Z.eqb_refl. reflexivity. }
    rewrite Hq.
    change (track_at (with_status ?g0 _) index) with (track_at g0 index).
    pose proof (pasted_curve clipboard orig) as Hp. cbv zeta in Hp. rewrite Hp.
    eexists. split; [eapply track_at_put_at; exact Ht|].
    split; [reflexivity|]. split.
    { rewrite length_app, length_take, length_drop. lia. }
    split; [apply HistoryFacts.all_dirty_mark_all_dirty|].
    split; reflexivity.
  - intros Hne ->. unfold paste_pitch. rewrite Ht, Ho.
    destruct (Z.eqb_spec (Py.len orig) (Py.len clipboard)) as [He|_];
      [|reflexivity].
    unfold Py.len in He. lia.
Qed.

(** X23.  Copy and paste carry a curve over unchanged: after [copy_pitch]
    on a track that has a curve, [paste_pitch] on a track whose original
    curve has the same length gives that track the copied curve, without
    asking. *)
Theorem copy_then_paste g pitch_clipboard source target reply_yes
    track_source track_target (f0 orig : list F) :
  track_at g source = Some track_source -> f0_edited track_source = Some f0 ->
  track_at g target = Some track_target ->
  f0_original track_target = Some orig ->
  length orig = length f0 ->
  exists track',
    track_at
      (paste_pitch zero (fst (copy_pitch g pitch_clipboard source))
         (snd (copy_pitch g pitch_clipboard source)) target reply_yes)
      target = Some track' /\
    f0_edited track' = Some f0.
Proof.
  intros Hs Hf Ht Ho Hlen.
  unfold copy_pitch. rewrite Hs, Hf. cbn [fst snd].
  destruct (paste_pitch_fits
              (with_status g
                 (String.append "Copied pitch from track '"
                    (String.append (name track_source) "'")))
              f0 target reply_yes track_target orig Ht Ho) as (Hfit & _).
  destruct Hfit as (track' & Hat & Hf' & _); [left; congruence|].
  exists track'. split; [exact Hat|].
  rewrite Hf'. f_equal.
  rewrite Hlen, take_ge, drop_ge by lia. apply app_nil_r.
Qed.

Lemma delete_track_guard g index :
  0 <= index < Py.len (tracks g) ->
  (0 <=? index) && (index <? Py.len (tracks g)) = true /\
  Py.len (delete (Z.to_nat index) (tracks g)) = Py.len (tracks g) - 1.
Proof.
  intros Hi. split.
  - destruct (Z.leb_spec 0 index); [|lia].
    destruct (Z.ltb_spec index (Py.len (tracks g))); [reflexivity|lia].
  - unfold Py.len in *. rewrite length_delete; [lia|].
    apply lookup_lt_is_Some. lia.
Qed.

(** A confirmed [delete_track] of another track than the selected one
    leaves the same track selected. *)
Lemma delete_other_track g index :
  0 <= index < Py.len (tracks g) -> index <> current_track_idx g ->
  current_track (delete_track g index true) = current_track g.
Proof.
  intros Hi Hne. destruct (delete_track_guard g index Hi) as (Hguard & Hlen).
  unfold delete_track. rewrite Hguard.
  unfold current_track. cbn [current_track_idx tracks]. rewrite Hlen.
  destruct (Z.eqb_spec (current_track_idx g) index) as [?|_]; [congruence|].
  destruct (Z.ltb_spec index (current_track_idx g)) as [Hlt|Hge].
  - destruct (Z.leb_spec 0 (current_track_idx g - 1)); [|lia].
    destruct (Z.leb_spec 0 (current_track_idx g)); [|lia].
    destruct (Z.ltb_spec (current_track_idx g - 1) (Py.len (tracks g) - 1));
      destruct (Z.ltb_spec (current_track_idx g) (Py.len (tracks g)));
      cbn [andb]; try reflexivity; try lia.
    rewrite list_lookup_delete_ge by lia.
    f_equal. lia.
  - destruct (Z.leb_spec 0 (current_track_idx g)); [|reflexivity].
    destruct (Z.ltb_spec (current_track_idx g) (Py.len (tracks g) - 1));
      destruct (Z.ltb_spec (current_track_idx g) (Py.len (tracks g)));
      cbn [andb]; try reflexivity; try lia.
    apply list_lookup_delete_lt. lia.
Qed.

(** X24.  Deleting a track keeps the selection on the track that was
    selected, whichever side of it the deleted track was on; deleting the
    selected track itself leaves no track selected. *)
Theorem delete_track_selection g index :
  0 <= index < Py.len (tracks g) ->
  Py.len (tracks (delete_track g index true)) = Py.len (tracks g) - 1 /\
  (index = current_track_idx g ->
   current_track (delete_track g index true) = None) /\
  (index <> current_track_idx g ->
   current_track (delete_track g index true) = current_track g).
Proof.
  intros Hi. destruct (delete_track_guard g index Hi) as (Hguard & Hlen).
  split; [|split].
  - unfold delete_track. rewrite Hguard. exact Hlen.
  - intros He. unfold delete_track. rewrite Hguard.
    unfold current_track. cbn [current_track_idx tracks].
    rewrite <- He, Z.eqb_refl. reflexivity.
  - apply delete_other_track. exact Hi.
Qed.

(** X25.  What [_save_project_file] writes for a vocal track is what
    [open_project] restores: the mix settings come back as saved, and the
    edited curve comes back on the frames that the reloaded audio has, so
    entirely when the frame count is the same. *)
Theorem saved_track_restores track loaded (f0 f0_loaded : list F) :
  is_vocal track = true -> f0_edited track = Some f0 ->
  f0_edited loaded = Some f0_loaded ->
  let track' := restore_track zero one (save_track track) loaded in
  muted track' = muted track /\ solo track' = solo track /\
  volume track' = volume track /\ start_frame track' = start_frame track /\
  shift_value track' = shift_value track /\
  f0_edited track' =
    Some (take (length f0_loaded) f0 ++ drop (length f0) f0_loaded) /\
  (length f0_loaded = length f0 -> f0_edited track' = Some f0) /\
  all_dirty track'.
Proof.
  intros Hv Hf Hl. cbv zeta.
  unfold restore_track, save_track. cbn [td_f0 td_muted td_solo td_volume
    td_start_frame td_shift default f0_edited]. rewrite Hv, Hf, Hl.
  assert (Hcurve :
    Py.slice_to f0 (Z.min (Py.len f0) (Py.len f0_loaded))
    ++ Py.slice_from f0_loaded (Z.min (Py.len f0) (Py.len f0_loaded))
    = take (length f0_loaded) f0 ++ drop (length f0) f0_loaded).
  { unfold Py.len.
    rewrite PyFacts.slice_to_inside, PyFacts.slice_from_inside
      by (unfold Py.len; lia).
    destruct (Nat.le_gt_cases (length f0) (length f0_loaded)).
    - replace (Z.min _ _) with (Z.of_nat (length f0)) by lia.
      rewrite Nat2Z.id, !take_ge by lia. reflexivity.
    - replace (Z.min _ _) with (Z.of_nat (length f0_loaded)) by lia.
      rewrite Nat2Z.id, !drop_ge by lia. reflexivity. }
  rewrite Hcurve.
  do 5 (split; [reflexivity|]). split; [reflexivity|].
  split; [|apply HistoryFacts.all_dirty_mark_all_dirty].
  intros Hlen. cbn [f0_edited mark_all_dirty with_segment_states with_f0_edited
                    with_history].
  rewrite Hlen, take_ge, drop_ge by lia. rewrite app_nil_r. reflexivity.
Qed.

End WithSamples.

Lemma shift_not_in_history_witness :
  exists track1 g2 track2,
    current_track
      (fst (apply_shift Vectors.pitch_add Vectors.pitch_sub
              Vectors.after_first_stroke (Some 0%Q) (Some 12%Q))) = Some track1 /\
    f0_edited track1 = Some [Some 72%Q; Some 82%Q; Some 83%Q; Some 76%Q] /\
    undo (fst (apply_shift Vectors.pitch_add Vectors.pitch_sub
                 Vectors.after_first_stroke (Some 0%Q) (Some 12%Q))) = Ok g2 /\
    current_track g2 = Some track2 /\
    f0_edited track2 = Some Vectors.curve /\ shift_value track2 = Some 12%Q.
Proof.
  destruct (shift_not_in_history Vectors.pitch_add Vectors.pitch_sub
              Vectors.after_first_stroke (Some 0%Q) (Some 12%Q)
              Vectors.after_first_stroke_track Vectors.drawn_curve []
              Vectors.curve eq_refl eq_refl eq_refl eq_refl)
    as (track1 & g2 & track2 & H1 & _ & H2 & _ & _ & _ & H3 & H4 & H5 & H6 & _).
  exists track1, g2, track2.
  split; [exact H1|]. split; [exact H2|]. split; [exact H3|].
  split; [exact H4|]. split; [exact H5|exact H6].
Defined.

Lemma paste_pitch_fits_witness :
  exists track',
    track_at
      (paste_pitch (Some 0%Q) Vectors.editor (Some [Some 1%Q; Some 2%Q]) 0 true) 0
    = Some track' /\
    f0_edited track' = Some [Some 1%Q; Some 2%Q; None; Some 64%Q].
Proof.
  destruct (paste_pitch_fits (Some 0%Q) Vectors.editor [Some 1%Q; Some 2%Q] 0 true
              Vectors.lead Vectors.curve eq_refl eq_refl) as (Hfit & _).
  destruct Hfit as (track' & H1 & H2 & _); [right; reflexivity|].
  exists track'. split; [exact H1|exact H2].
Defined.

Lemma copy_then_paste_witness :
  exists track',
    track_at
      (paste_pitch (Some 0%Q) (fst (copy_pitch Vectors.duet None 0))
         (snd (copy_pitch Vectors.duet None 0)) 1 false) 1 = Some track' /\
    f0_edited track' = Some Vectors.drawn_curve.
Proof.
  apply (copy_then_paste (Some 0%Q) Vectors.duet None 0 1 false
           Vectors.after_first_stroke_track Vectors.lead Vectors.drawn_curve
           Vectors.curve eq_refl eq_refl eq_refl eq_refl eq_refl).
Defined.

Lemma delete_track_selection_witness :
  Py.len (tracks (delete_track Vectors.duet 0 true)) = 1 /\
  current_track (delete_track Vectors.duet 0 true) = Some Vectors.lead.
Proof.
  destruct (delete_track_selection Vectors.duet 0) as (Hlen & _ & Hkeep).
  - vm_compute. split; [discriminate|reflexivity].
  - split; [exact Hlen|]. apply Hkeep. discriminate.
Defined.

Lemma saved_track_restores_witness :
  f0_edited
    (restore_track (Some 0%Q) (Some 1%Q)
       (save_track Vectors.after_first_stroke_track) Vectors.lead)
  = Some Vectors.drawn_curve.
Proof.
  destruct (saved_track_restores (Some 0%Q) (Some 1%Q)
              Vectors.after_first_stroke_track Vectors.lead
              Vectors.drawn_curve Vectors.curve eq_refl eq_refl eq_refl)
    as (_ & _ & _ & _ & _ & _ & Hsame & _).
  apply Hsame. reflexivity.
Defined.

End ArrangementFacts.

(** ** The mixer on tracks at non-negative offsets *)

Module MixerBounds.

Import Segmenter Editor MixerFacts.

Section WithSamples.
Context {F : Type}.
Variables (zero : F) (add mul : F -> F -> F).

(** Every participant ends before the length that the first loop of
    [mix_tracks] computes. *)
Lemma end_sample_le hop (active : list (Track F)) : forall acc track audio,
  In track active -> synthesized_audio track = Some audio ->
  start_frame track * hop + Py.len audio <=
  fold_left
    (fun max_len track =>
       match synthesized_audio track with
       | Some audio =>
           let start_sample := start_frame track * hop in
           let end_sample := start_sample + Py.len audio in
           Z.max max_len end_sample
       | None => max_len
       end)
    active acc.
Proof.
  induction active as [|t active IH]; intros acc track audio Hin Ha; [contradiction|].
  cbn [fold_left]. destruct Hin as [->|Hin].
  - rewrite Ha. cbv zeta. etransitivity; [|apply mix_max_len_from]. lia.
  - eapply IH; eassumption.
Qed.

(** An addition on a slice that lies inside the buffer, with as many
    samples as the slice has, goes through. *)
Lemma slice_iadd_inside (mixed rhs : list F) a :
  0 <= a -> a + Py.len rhs <= Py.len mixed ->
  exists mixed', slice_iadd add mixed a (a + Py.len rhs) rhs = Ok mixed'.
Proof.
  intros Ha Hb. unfold slice_iadd.
  pose proof (PyFacts.len_nonneg rhs) as Hr.
  rewrite !PyFacts.slice_index_inside by lia.
  replace (a + Py.len rhs - a) with (Py.len rhs) by lia.
  replace (Z.of_nat (Z.to_nat (Py.len rhs))) with (Py.len rhs) by lia.
  rewrite Z.eqb_refl. cbn [mbind res_bind]. eauto.
Qed.

Lemma mix_into_inside hop (active : list (Track F)) : forall mixed,
  (forall track audio,
     In track active -> synthesized_audio track = Some audio ->
     0 <= start_frame track * hop /\
     start_frame track * hop + Py.len audio <= Py.len mixed) ->
  exists mixed', mix_into add mul hop active mixed = Ok mixed'.
Proof.
  induction active as [|t active IH]; intros mixed H; cbn [mix_into]; [eauto|].
  destruct (synthesized_audio t) as [audio|] eqn:Ha.
  - destruct (H t audio (or_introl eq_refl) Ha) as (H0 & H1).
    assert (Hlen : Py.len (map (fun s => mul s (volume t)) audio) = Py.len audio).
    { unfold Py.len. rewrite length_map. reflexivity. }
    destruct (slice_iadd_inside mixed (map (fun s => mul s (volume t)) audio)
                (start_frame t * hop)) as (m1 & Hm1); [exact H0|lia|].
    rewrite Hlen in Hm1. rewrite Hm1. cbn [mbind res_bind].
    apply IH. intros track audio' Hin Ha'.
    unfold Py.len at 2. rewrite (length_slice_iadd _ _ _ _ _ _ Hm1).
    apply H; [right; exact Hin|exact Ha'].
  - apply IH. intros track audio' Hin Ha'. apply H; [right; exact Hin|exact Ha'].
Qed.

Lemma active_tracks_incl (ts : list (Track F)) track :
  In track (active_tracks ts) -> In track ts.
Proof.
  unfold active_tracks. destruct (List.filter solo ts) eqn:E.
  - intros H. apply filter_In in H. tauto.
  - rewrite <- E. intros H. apply filter_In in H. tauto.
Qed.

(** X26.  With a non-negative hop size and every track at a non-negative
    start frame, [mix_tracks] never fails: each participant's samples fit
    the buffer at its offset, and a mix that is returned has exactly the
    length of the latest end among the participants. *)
Theorem mix_tracks_fits g :
  0 <= hop_size g ->
  (forall track, In track (tracks g) -> 0 <= start_frame track) ->
  exists r,
    mix_tracks zero add mul g = Ok r /\
    forall mixed, r = Some mixed ->
      Py.len mixed = mix_max_len (hop_size g) (active_tracks (tracks g)).
Proof.
  intros Hhop Hstart. unfold mix_tracks.
  destruct (active_tracks (tracks g)) as [|t ts] eqn:E.
  { exists None. split; [reflexivity|discriminate]. }
  pose proof (mix_max_len_nonneg (hop_size g) (t :: ts)) as Hn.
  destruct (Z.eqb_spec (mix_max_len (hop_size g) (t :: ts)) 0) as [H0|Hne].
  { exists None. split; [reflexivity|discriminate]. }
  destruct (mix_into_inside (hop_size g) (t :: ts)
              (replicate (Z.to_nat (mix_max_len (hop_size g) (t :: ts))) zero))
    as (mixed & Hm).
  { intros track audio Hin Ha. split.
    - apply Z.mul_nonneg_nonneg; [|exact Hhop].
      apply Hstart. apply active_tracks_incl. rewrite E. exact Hin.
    - rewrite PyFacts.len_replicate, Z2Nat.id by exact Hn.
      apply end_sample_le; assumption. }
  rewrite Hm. cbn [mbind res_bind]. exists (Some mixed).
  split; [reflexivity|]. intros mixed' [= <-].
  unfold Py.len. rewrite (length_mix_into _ _ _ _ _ _ Hm), length_replicate. lia.
Qed.

End WithSamples.

Lemma mix_tracks_fits_witness :
  exists r,
    mix_tracks 0 Z.add Z.mul Vectors.session = Ok r /\
    forall mixed, r = Some mixed -> Py.len mixed = 4.
Proof.
  apply (mix_tracks_fits 0 Z.add Z.mul Vectors.session).
  - vm_compute. discriminate.
  - intros track Hin. simpl in Hin.
    destruct Hin as [<-|[<-|[<-|[]]]]; vm_compute; discriminate.
Defined.

End MixerBounds.

(** ** Invariants of a session: the shift control and the track offsets *)

Module SessionFacts.

Import Segmenter Editor Arrangement EditorFacts.

Section WithSamples.
Context {F : Type}.
Variables (zero one : F) (add sub : F -> F -> F).
Variable interp : Z -> F -> Z -> F -> Z -> F.

Implicit Types (g : GUI F) (track : Track F).

(** *** Tracks of the window after an update *)

Lemma map_insert_same {A B} (f : A -> B) (l : list A) : forall i x y,
  l !! i = Some y -> f x = f y -> map f (<[i := x]> l) = map f l.
Proof.
  induction l as [|a l IH]; intros [|i] x y H Hf; try discriminate; simpl.
  - injection H as ->. rewrite Hf. reflexivity.
  - f_equal. eapply IH; eassumption.
Qed.

Lemma map_insert {A B} (f : A -> B) (l : list A) : forall i x,
  map f (<[i := x]> l) = <[i := f x]> (map f l).
Proof.
  induction l as [|a l IH]; intros [|i] x; simpl; try reflexivity.
  f_equal. apply IH.
Qed.

Lemma map_delete {A B} (f : A -> B) (l : list A) : forall i,
  map f (delete i l) = delete i (map f l).
Proof.
  induction l as [|a l IH]; intros [|i]; simpl; try reflexivity.
  f_equal. apply IH.
Qed.

Lemma track_at_lookup g index track :
  track_at g index = Some track -> tracks g !! Z.to_nat index = Some track.
Proof.
  unfold track_at. destruct ((0 <=? index) && (index <? Py.len (tracks g)));
    [auto|discriminate].
Qed.

Lemma same_offsets_refl g : same_offsets g g.
Proof. reflexivity. Qed.

Lemma same_offsets_trans g1 g2 g3 :
  same_offsets g1 g2 -> same_offsets g2 g3 -> same_offsets g1 g3.
Proof. unfold same_offsets. congruence. Qed.

Lemma same_offsets_tracks g g' : tracks g' = tracks g -> same_offsets g g'.
Proof. unfold same_offsets, offsets. intros ->. reflexivity. Qed.

Lemma same_offsets_put_current g track track' :
  current_track g = Some track -> start_frame track' = start_frame track ->
  same_offsets g (put_current g track').
Proof.
  intros Hc Hs. unfold same_offsets, offsets, put_current.
  cbn [tracks with_tracks].
  eapply map_insert_same; [apply current_track_lookup; exact Hc|exact Hs].
Qed.

Lemma keeps_shift_refl g : keeps_shift g g.
Proof. intros t H. eauto. Qed.

Lemma keeps_shift_trans g1 g2 g3 :
  keeps_shift g1 g2 -> keeps_shift g2 g3 -> keeps_shift g1 g3.
Proof.
  intros H12 H23 t3 H3. destruct (H23 t3 H3) as (t2 & H2 & He2).
  destruct (H12 t2 H2) as (t1 & H1 & He1). exists t1. split; [exact H1|congruence].
Qed.

Lemma keeps_shift_current g g' :
  current_track g' = current_track g -> keeps_shift g g'.
Proof. intros He t H. rewrite He in H. eauto. Qed.

Lemma keeps_shift_put_current g track track' :
  current_track g = Some track -> shift_value track' = shift_value track ->
  keeps_shift g (put_current g track').
Proof.
  intros Hc Hs t H. rewrite (current_track_put_current g track track' Hc) in H.
  injection H as <-. eauto.
Qed.

Lemma shift_synced_keeps g g' last_shift_value :
  keeps_shift g g' -> shift_synced g last_shift_value ->
  shift_synced g' last_shift_value.
Proof.
  intros Hk Hs t' H. destruct (Hk t' H) as (t & Hc & ->). apply Hs. exact Hc.
Qed.

(** [steady g g']: offsets and the selected track's shift are kept. *)
Lemma steady_put_current g track track' :
  current_track g = Some track ->
  start_frame track' = start_frame track ->
  shift_value track' = shift_value track ->
  same_offsets g (put_current g track') /\ keeps_shift g (put_current g track').
Proof.
  intros Hc Hs Hv. split;
    [eapply same_offsets_put_current|eapply keeps_shift_put_current]; eassumption.
Qed.

(** *** The handlers *)

Lemma handle_draw_steady g g' point_x y is_left is_right :
  handle_draw interp g point_x y is_left is_right = Ok g' ->
  same_offsets g g' /\ keeps_shift g g'.
Proof.
  intros Hd.
  destruct (HistoryFacts.handle_draw_cases interp g g' _ _ _ _ Hd)
    as [->|(track & f0 & Hc & Hv & Hf)].
  { split; [apply same_offsets_refl|apply keeps_shift_refl]. }
  destruct (handle_draw_unfold interp g track f0 point_x y is_left is_right
              Hc Hv Hf) as (Hc1 & Heq).
  rewrite Heq in Hd. clear Heq.
  set (track1 := match last_mouse_pos g with
                 | None => snapshot track f0 | Some _ => track end) in *.
  set (g1 := match last_mouse_pos g with
             | None => push_undo g | Some _ => g end) in *.
  assert (H1 : (same_offsets g g1 /\ keeps_shift g g1) /\
               start_frame track1 = start_frame track /\
               shift_value track1 = shift_value track).
  { unfold g1, track1. destruct (last_mouse_pos g).
    - split; [split; [apply same_offsets_refl|apply keeps_shift_refl]|].
      split; reflexivity.
    - rewrite (push_undo_guarded _ _ _ Hc Hv Hf).
      split; [|split; reflexivity].
      eapply steady_put_current; [exact Hc|reflexivity|reflexivity]. }
  clearbody g1 track1. destruct H1 as ((Hs1 & Hk1) & Hst1 & Hsh1).
  destruct ((0 <=? point_x - start_frame track)
            && (point_x - start_frame track <? Py.len f0)).
  2:{ injection Hd as <-. split; assumption. }
  destruct (draw_edit interp (last_mouse_pos g) is_left is_right
              (f0_original track) (point_x - start_frame track) y f0)
    as [[[f0' changed] range]|e]; [|discriminate].
  cbn [mbind res_bind] in Hd. unfold finish_draw in Hd.
  destruct (if changed
            then mark_dirty (segments track1) 0 (fst range) (snd range)
                   (segment_states track1)
            else Ok (segment_states track1)) as [states|e]; [|discriminate].
  cbn [mbind res_bind] in Hd. injection Hd as <-.
  destruct (steady_put_current g1 track1
              (with_segment_states (with_f0_edited track1 (Some f0')) states)
              Hc1 eq_refl eq_refl) as (Hs2 & Hk2).
  split.
  - eapply same_offsets_trans; [exact Hs1|].
    eapply same_offsets_trans; [exact Hs2|].
    apply same_offsets_tracks. destruct changed; reflexivity.
  - eapply keeps_shift_trans; [exact Hk1|].
    eapply keeps_shift_trans; [exact Hk2|].
    apply keeps_shift_current. destruct changed; reflexivity.
Qed.

Lemma steady_refl g : same_offsets g g /\ keeps_shift g g.
Proof. split; [apply same_offsets_refl|apply keeps_shift_refl]. Qed.

Lemma steady_trans g1 g2 g3 :
  same_offsets g1 g2 /\ keeps_shift g1 g2 ->
  same_offsets g2 g3 /\ keeps_shift g2 g3 ->
  same_offsets g1 g3 /\ keeps_shift g1 g3.
Proof.
  intros [Ha Hb] [Hc Hd].
  split; [eapply same_offsets_trans|eapply keeps_shift_trans]; eassumption.
Qed.

Lemma steady_pointer g p :
  same_offsets g (with_last_mouse_pos g p) /\
  keeps_shift g (with_last_mouse_pos g p).
Proof.
  split; [apply same_offsets_tracks|apply keeps_shift_current]; reflexivity.
Qed.

Lemma click_steady g g' button point_x y :
  on_scene_mouse_click interp g button point_x y = Ok g' ->
  same_offsets g g' /\ keeps_shift g g'.
Proof.
  unfold on_scene_mouse_click. intros Hk.
  destruct (current_track g) as [track|];
    [|injection Hk as <-; apply steady_refl].
  destruct button; try (injection Hk as <-; apply steady_refl);
    (destruct (drawable track); [|injection Hk as <-; apply steady_refl]);
    (eapply steady_trans; [apply (steady_pointer g None)|]);
    eapply handle_draw_steady; exact Hk.
Qed.

Lemma move_steady g g' is_left is_right point_x y :
  on_scene_mouse_move interp g is_left is_right point_x y = Ok g' ->
  same_offsets g g' /\ keeps_shift g g'.
Proof.
  unfold on_scene_mouse_move. intros Hm.
  destruct (current_track g) as [track|];
    [|injection Hm as <-; apply steady_refl].
  destruct (negb (is_left || is_right)).
  { injection Hm as <-. apply steady_pointer. }
  destruct (drawable track); [|injection Hm as <-; apply steady_refl].
  eapply handle_draw_steady; exact Hm.
Qed.

Lemma drag_steady is_left is_right moves : forall g g',
  drag interp g is_left is_right moves = Ok g' ->
  same_offsets g g' /\ keeps_shift g g'.
Proof.
  induction moves as [|[point_x y] moves IH]; intros g g' Hd.
  - injection Hd as <-. apply steady_refl.
  - simpl in Hd.
    destruct (on_scene_mouse_move interp g is_left is_right point_x y)
      as [g1|e] eqn:Hm; [|discriminate].
    cbn [mbind res_bind] in Hd.
    eapply steady_trans; [eapply move_steady; exact Hm|].
    apply IH. exact Hd.
Qed.

Lemma stroke_steady g g' button point_x y moves :
  stroke interp g button point_x y moves = Ok g' ->
  same_offsets g g' /\ keeps_shift g g'.
Proof.
  unfold stroke. intros Hs.
  destruct (on_scene_mouse_click interp g button point_x y) as [g1|e] eqn:Hk;
    [|discriminate].
  cbn [mbind res_bind] in Hs.
  destruct (drag interp g1 (is_left_button button) (is_right_button button) moves)
    as [g2|e] eqn:Hd; [|discriminate].
  cbn [mbind res_bind] in Hs. injection Hs as <-.
  eapply steady_trans; [eapply click_steady; exact Hk|].
  eapply steady_trans; [eapply drag_steady; exact Hd|].
  apply steady_pointer.
Qed.

Lemma steady_status g s :
  same_offsets g (with_status g s) /\ keeps_shift g (with_status g s).
Proof.
  split; [apply same_offsets_tracks|apply keeps_shift_current]; reflexivity.
Qed.

Lemma undo_steady g g' :
  undo g = Ok g' -> same_offsets g g' /\ keeps_shift g g'.
Proof.
  unfold undo. intros Hu.
  destruct (current_track g) as [track|] eqn:Hc;
    [|injection Hu as <-; apply steady_refl].
  destruct (negb (is_vocal track)); [injection Hu as <-; apply steady_refl|].
  destruct (pop (undo_stack track)) as [[rest top]|];
    [|injection Hu as <-; apply steady_status].
  destruct (f0_edited track) as [f0|]; [|discriminate].
  injection Hu as <-.
  eapply steady_trans; [|apply steady_status].
  eapply steady_put_current; [exact Hc|reflexivity|reflexivity].
Qed.

Lemma redo_steady g g' :
  redo g = Ok g' -> same_offsets g g' /\ keeps_shift g g'.
Proof.
  unfold redo. intros Hu.
  destruct (current_track g) as [track|] eqn:Hc;
    [|injection Hu as <-; apply steady_refl].
  destruct (negb (is_vocal track)); [injection Hu as <-; apply steady_refl|].
  destruct (pop (redo_stack track)) as [[rest top]|];
    [|injection Hu as <-; apply steady_status].
  destruct (f0_edited track) as [f0|]; [|discriminate].
  injection Hu as <-.
  eapply steady_trans; [|apply steady_status].
  eapply steady_put_current; [exact Hc|reflexivity|reflexivity].
Qed.

Lemma current_track_put_at g index track track' :
  track_at g index = Some track ->
  shift_value track' = shift_value track ->
  keeps_shift g (put_at g index track').
Proof.
  intros Ht Hs t H. unfold current_track, put_at in H.
  cbn [tracks with_tracks current_track_idx] in H.
  unfold Py.len in H. rewrite length_insert in H. fold (Py.len (tracks g)) in H.
  unfold track_at in Ht.
  destruct (decide (Z.to_nat (current_track_idx g) = Z.to_nat index)) as [He|Hne].
  - destruct ((0 <=? current_track_idx g)
              && (current_track_idx g <? Py.len (tracks g))) eqn:Hg;
      [|discriminate].
    destruct ((0 <=? index) && (index <? Py.len (tracks g))); [|discriminate].
    rewrite He, list_lookup_insert_eq in H by (eapply lookup_lt_Some; exact Ht).
    injection H as <-. exists track. split; [|exact Hs].
    unfold current_track. rewrite Hg, He. exact Ht.
  - rewrite list_lookup_insert_ne in H by congruence.
    exists t. split; [exact H|reflexivity].
Qed.

Lemma paste_pitch_steady g pitch_clipboard index reply_yes :
  same_offsets g (paste_pitch zero g pitch_clipboard index reply_yes) /\
  keeps_shift g (paste_pitch zero g pitch_clipboard index reply_yes).
Proof.
  unfold paste_pitch.
  destruct (track_at g index) as [track|] eqn:Ht; [|apply steady_status].
  destruct pitch_clipboard as [clipboard|]; [|apply steady_status].
  destruct (f0_original track) as [orig|]; [|apply steady_refl].
  destruct (negb (Py.len orig =? Py.len clipboard) && negb reply_yes);
    [apply steady_refl|].
  eapply steady_trans; [|apply steady_status]. split.
  - unfold same_offsets, offsets, put_at. cbn [tracks with_tracks].
    eapply map_insert_same; [apply track_at_lookup; exact Ht|reflexivity].
  - eapply current_track_put_at; [exact Ht|reflexivity].
Qed.

Lemma delete_track_keeps_shift g index reply_yes :
  keeps_shift g (delete_track g index reply_yes).
Proof.
  destruct (decide (0 <= index < Py.len (tracks g))) as [Hi|Hout].
  2:{ unfold delete_track.
      destruct (Z.leb_spec 0 index); destruct (Z.ltb_spec index (Py.len (tracks g)));
        cbn [andb]; try apply keeps_shift_refl. lia. }
  destruct reply_yes.
  2:{ unfold delete_track.
      destruct ((0 <=? index) && (index <? Py.len (tracks g)));
        apply keeps_shift_refl. }
  intros t H. destruct (decide (index = current_track_idx g)) as [He|Hne].
  - exfalso. unfold delete_track in H.
    destruct (ArrangementFacts.delete_track_guard g index Hi) as (Hguard & _).
    rewrite Hguard in H. unfold current_track in H.
    cbn [current_track_idx tracks] in H.
    rewrite <- He, Z.eqb_refl in H. discriminate H.
  - rewrite (ArrangementFacts.delete_other_track g index Hi Hne) in H. eauto.
Qed.

Lemma delete_track_offsets g index reply_yes :
  offsets (delete_track g index reply_yes) =
  if (0 <=? index) && (index <? Py.len (tracks g)) && reply_yes
  then delete (Z.to_nat index) (offsets g)
  else offsets g.
Proof.
  unfold delete_track.
  destruct ((0 <=? index) && (index <? Py.len (tracks g))); [|reflexivity].
  destruct reply_yes; [|reflexivity].
  unfold offsets. cbn [tracks andb]. apply map_delete.
Qed.

Lemma move_track_offsets g new_start :
  offsets (move_track g new_start) =
  match current_track g with
  | Some _ =>
      <[Z.to_nat (current_track_idx g) := Z.max 0 new_start]> (offsets g)
  | None => offsets g
  end.
Proof.
  unfold move_track. destruct (current_track g) as [track|] eqn:Hc;
    [|reflexivity].
  pose proof (current_track_lookup g track Hc) as Hl.
  assert (Hclamp : (if new_start <? 0 then 0 else new_start) = Z.max 0 new_start)
    by (destruct (Z.ltb_spec new_start 0); lia).
  rewrite Hclamp.
  destruct (Z.eqb_spec (Z.max 0 new_start) (start_frame track)) as [He|Hne];
    cbn [negb].
  - unfold offsets. symmetry. apply list_insert_id.
    rewrite PyFacts.lookup_map, Hl. cbn. rewrite He. reflexivity.
  - unfold offsets, put_current. cbn [tracks with_status with_tracks].
    rewrite map_insert. reflexivity.
Qed.

Lemma move_track_keeps_shift g new_start : keeps_shift g (move_track g new_start).
Proof.
  unfold move_track. destruct (current_track g) as [track|] eqn:Hc;
    [|apply keeps_shift_refl].
  destruct (negb _); [|apply keeps_shift_refl].
  eapply keeps_shift_trans; [|apply keeps_shift_current; reflexivity].
  eapply keeps_shift_put_current; [exact Hc|reflexivity].
Qed.

Lemma apply_shift_offsets g last_shift_value semitones :
  same_offsets g (fst (apply_shift add sub g last_shift_value semitones)).
Proof.
  unfold apply_shift. destruct (current_track g) as [track|] eqn:Hc;
    [|apply same_offsets_refl].
  destruct (negb (is_vocal track)); [apply same_offsets_refl|].
  destruct (f0_edited track) as [f0|]; [|apply same_offsets_refl].
  cbn [fst]. eapply same_offsets_put_current; [exact Hc|reflexivity].
Qed.

(** X27.  The shift control stays in step with the selection: selecting a
    track sets the window's [last_shift_value] to that track's shift, and
    transposing, drawing, undo, redo, pasting, deleting and moving tracks
    all keep it equal to the shift of the selected track, so that
    [apply_shift] always moves the curve by the difference to the track's
    own shift. *)
Theorem shift_follows_selection g last_shift_value :
  (forall index,
     shift_synced (fst (on_track_selected g last_shift_value index))
       (snd (on_track_selected g last_shift_value index))) /\
  (shift_synced g last_shift_value ->
   (forall semitones,
      shift_synced (fst (apply_shift add sub g last_shift_value semitones))
        (snd (apply_shift add sub g last_shift_value semitones))) /\
   (forall semitones track (f0 : list F),
      current_track g = Some track -> is_vocal track = true ->
      f0_edited track = Some f0 ->
      exists track',
        current_track (fst (apply_shift add sub g last_shift_value semitones))
        = Some track' /\
        f0_edited track' =
          Some (map (fun p => add p (sub semitones (shift_value track))) f0)) /\
   (forall button point_x y moves g',
      stroke interp g button point_x y moves = Ok g' ->
      shift_synced g' last_shift_value) /\
   (forall g', undo g = Ok g' -> shift_synced g' last_shift_value) /\
   (forall g', redo g = Ok g' -> shift_synced g' last_shift_value) /\
   (forall pitch_clipboard index reply_yes,
      shift_synced (paste_pitch zero g pitch_clipboard index reply_yes)
        last_shift_value) /\
   (forall index reply_yes,
      shift_synced (delete_track g index reply_yes) last_shift_value) /\
   (forall new_start, shift_synced (move_track g new_start) last_shift_value)).
Proof.
  split.
  - intros index. unfold on_track_selected.
    destruct (current_track (with_current_track_idx g index)) as [track|] eqn:Hc;
      cbn [fst snd]; intros t Ht; rewrite Hc in Ht; [|discriminate].
    injection Ht as <-. reflexivity.
  - intros Hs. split; [|split; [|split; [|split; [|split; [|split; [|split]]]]]].
    + intros semitones. unfold apply_shift.
      destruct (current_track g) as [track|] eqn:Hc; [|exact Hs].
      destruct (negb (is_vocal track)); [exact Hs|].
      destruct (f0_edited track) as [f0|]; [|exact Hs].
      cbn [fst snd]. intros t Ht.
      rewrite (current_track_put_current g track _ Hc) in Ht.
      injection Ht as <-. reflexivity.
    + intros semitones track f0 Hc Hv Hf. unfold apply_shift.
      rewrite Hc, Hv, Hf. cbn [negb fst]. rewrite (Hs track Hc).
      eexists. split; [eapply current_track_put_current; exact Hc|reflexivity].
    + intros button point_x y moves g' Hst.
      eapply shift_synced_keeps; [|exact Hs]. eapply stroke_steady. exact Hst.
    + intros g' Hu. eapply shift_synced_keeps; [|exact Hs].
      eapply undo_steady. exact Hu.
    + intros g' Hu. eapply shift_synced_keeps; [|exact Hs].
      eapply redo_steady. exact Hu.
    + intros pitch_clipboard index reply_yes.
      eapply shift_synced_keeps; [|exact Hs]. apply paste_pitch_steady.
    + intros index reply_yes.
      eapply shift_synced_keeps; [|exact Hs]. apply delete_track_keeps_shift.
    + intros new_start.
      eapply shift_synced_keeps; [|exact Hs]. apply move_track_keeps_shift.
Qed.

(** X28.  Among the handlers of the editing session only the move tool
    changes a start frame, and it clamps the new start at 0: selecting,
    transposing, drawing, undo, redo and pasting leave the start frames of
    all tracks exactly as they are, deleting removes the deleted track's
    entry and nothing else, and a move sets the selected track's start to
    [max(0, new_start)].  So start frames that are non-negative stay so
    during a session.  Opening a project is the exception: [open_project]
    takes a track's start frame from the file as it is, negative or
    not. *)
Theorem offsets_change_by_move_only g :
  (forall last_shift_value index,
     offsets (fst (on_track_selected g last_shift_value index)) = offsets g) /\
  (forall last_shift_value semitones,
     offsets (fst (apply_shift add sub g last_shift_value semitones))
     = offsets g) /\
  (forall button point_x y moves g',
     stroke interp g button point_x y moves = Ok g' -> offsets g' = offsets g) /\
  (forall g', undo g = Ok g' -> offsets g' = offsets g) /\
  (forall g', redo g = Ok g' -> offsets g' = offsets g) /\
  (forall pitch_clipboard index reply_yes,
     offsets (paste_pitch zero g pitch_clipboard index reply_yes) = offsets g) /\
  (forall index reply_yes,
     offsets (delete_track g index reply_yes) =
     if (0 <=? index) && (index <? Py.len (tracks g)) && reply_yes
     then delete (Z.to_nat index) (offsets g)
     else offsets g) /\
  (forall new_start,
     offsets (move_track g new_start) =
     match current_track g with
     | Some _ =>
         <[Z.to_nat (current_track_idx g) := Z.max 0 new_start]> (offsets g)
     | None => offsets g
     end) /\
  (starts_nonneg g ->
   (forall track, In track (tracks g) -> 0 <= start_frame track) /\
   (forall index reply_yes, starts_nonneg (delete_track g index reply_yes)) /\
   (forall new_start, starts_nonneg (move_track g new_start)) /\
   (forall g', offsets g' = offsets g -> starts_nonneg g')) /\
  (forall t_data track,
     start_frame (restore_track zero one t_data track)
     = default 0 (td_start_frame t_data)).
Proof.
  split; [|split; [|split; [|split; [|split; [|split; [|split; [|split;
    [|split]]]]]]]].
  - intros last_shift_value index. unfold on_track_selected.
    destruct (current_track (with_current_track_idx g index)); reflexivity.
  - intros last_shift_value semitones. apply apply_shift_offsets.
  - intros button point_x y moves g' Hst.
    apply (stroke_steady g g' button point_x y moves Hst).
  - intros g' Hu. apply (undo_steady g g' Hu).
  - intros g' Hu. apply (redo_steady g g' Hu).
  - intros pitch_clipboard index reply_yes. apply paste_pitch_steady.
  - apply delete_track_offsets.
  - apply move_track_offsets.
  - intros Hn. split; [|split; [|split]].
    + intros track Hin. unfold starts_nonneg in Hn.
      apply (proj1 (List.Forall_forall _ _) Hn).
      unfold offsets. apply in_map. exact Hin.
    + intros index reply_yes. unfold starts_nonneg.
      rewrite delete_track_offsets.
      destruct ((0 <=? index) && (index <? Py.len (tracks g)) && reply_yes);
        [apply Forall_delete|]; exact Hn.
    + intros new_start. unfold starts_nonneg. rewrite move_track_offsets.
      destruct (current_track g); [|exact Hn].
      apply Forall_insert; [exact Hn|lia].
    + intros g' He. unfold starts_nonneg. rewrite He. exact Hn.
  - intros t_data track. unfold restore_track.
    destruct (td_f0 t_data); [|reflexivity].
    cbn [f0_edited]. destruct (f0_edited track); reflexivity.
Qed.

End WithSamples.

Lemma shift_follows_selection_witness :
  shift_synced Vectors.duet (Some 0%Q) /\
  shift_synced
    (fst (apply_shift Vectors.pitch_add Vectors.pitch_sub Vectors.duet
            (Some 0%Q) (Some 12%Q)))
    (snd (apply_shift Vectors.pitch_add Vectors.pitch_sub Vectors.duet
            (Some 0%Q) (Some 12%Q))).
Proof.
  assert (H : shift_synced Vectors.duet (Some 0%Q)).
  { intros t Ht. vm_compute in Ht. injection Ht as <-. reflexivity. }
  split; [exact H|].
  destruct (shift_follows_selection (Some 0%Q) Vectors.pitch_add Vectors.pitch_sub
              Vectors.linear_interp Vectors.duet (Some 0%Q)) as (_ & Hrest).
  destruct (Hrest H) as (Hshift & _). apply Hshift.
Defined.

Lemma offsets_change_by_move_only_witness :
  starts_nonneg Vectors.duet /\
  offsets (move_track Vectors.duet 7) = [0; 7] /\
  offsets (move_track Vectors.duet (-5)) = [0; 0] /\
  starts_nonneg (move_track Vectors.duet (-5)).
Proof.
  assert (H : starts_nonneg Vectors.duet).
  { unfold starts_nonneg. vm_compute. repeat constructor; discriminate. }
  destruct (offsets_change_by_move_only (Some 0%Q) (Some 1%Q) Vectors.pitch_add
              Vectors.pitch_sub Vectors.linear_interp Vectors.duet)
    as (_ & _ & _ & _ & _ & _ & _ & Hmove & Hnonneg & _).
  destruct (Hnonneg H) as (_ & _ & Hstay & _).
  split; [exact H|]. split; [exact (Hmove 7)|].
  split; [exact (Hmove (-5))|apply Hstay].
Defined.

End SessionFacts.
